(** * Marker rendering and caching in Mapnik: a shallow embedding

    The development follows five files of the repository:

    - [src/agg/process_markers_symbolizer.cpp]: the AGG renderer context,
      whose [render_marker] keeps the rendered-image cache;
    - [src/renderer_common/render_markers_symbolizer.cpp]: the visitor over
      the marker variant, with the attribute cache and the ellipse cache, and
      the entry point [render_markers_symbolizer];
    - [src/geometry/interior.cpp]: the polylabel based interior point;
    - [plugins/input/postgis/connection.hpp]: the connection to the
      database, over the client library;
    - [test/visual/report.cpp]: the summaries of the visual tests.

    A finite C++ [double] is modelled by the rational it holds ([Q]).  In
    the renderer context every addition, subtraction and multiplication
    rounds its exact result to the nearest binary64 number, ties to even
    ([Dbl.round]); infinities and NaN are not values of the model, so a
    property that an overflow could reach carries a bound on the size of
    its inputs.  The interior point is modelled in exact arithmetic, and its
    properties are those of the algorithm in exact arithmetic.  The product
    of two transforms and the centre of a box, which the visitor only
    passes on, are written as their exact values.  The three
    caches are [std::map]s: they are modelled as association lists kept
    sorted by the key comparison, so that [begin()] is the head of the
    list. *)

From Stdlib Require Import ZArith QArith Qcanon Qround Qabs Qpower Lqa Lia List Bool String.
From Stdlib Require PrimFloat Uint63 FloatOps.
From stdpp Require Import base decidable option numbers countable gmap strings.
From stdpp Require Import pretty.
Import ListNotations.

(** ** Arithmetic on doubles *)

Module Dbl.
Local Open Scope Q_scope.

Definition double : Type := Q.

(** *** Rounding to binary64

    A binary64 number is [m * 2^e] with [|m| < 2^53] and [-1074 <= e]. *)
Definition pow2 (e : Z) : Q := 2 ^ e.

(** The integer [l] with [2^l <= x < 2^(l+1)], for a positive [x]. *)
Definition ilog2 (x : Q) : Z :=
  let l := (Z.log2 (Qnum x) - Z.log2 (Zpos (Qden x)))%Z in
  if Qle_bool (pow2 l) x then l else (l - 1)%Z.

(** A nearest integer, the even one of two that are equally near. *)
Definition nearest_even (y : Q) : Z :=
  let f := Qfloor y in
  match Qcompare (y - inject_Z f) (1 # 2) with
  | Lt => f
  | Gt => (f + 1)%Z
  | Eq => if Z.even f then f else (f + 1)%Z
  end.

(** The exponent of the last place of a positive [x]: 52 below its
    leading bit, and never below the least exponent (gradual underflow). *)
Definition exponent (x : Q) : Z := Z.max (ilog2 x - 52) (-1074).

Definition round_pos (x : Q) : Q :=
  let e := exponent x in
  inject_Z (nearest_even (x / pow2 e)) * pow2 e.

(** Round to nearest, ties to even. *)
Definition round (x : Q) : double :=
  Qred (match Qcompare x 0 with
        | Eq => 0
        | Gt => round_pos x
        | Lt => - round_pos (- x)
        end).

(** The format: at most 53 significant bits above the least exponent. *)
Definition in_format (x : Q) : Prop :=
  exists m e : Z,
    x == inject_Z m * pow2 e /\ (Z.abs m < 2 ^ 53)%Z /\ (-1074 <= e)%Z.

(** [a + b], [a - b] and [a * b] on doubles. *)
Definition add (a b : double) : double := round (a + b).
Definition sub (a b : double) : double := round (a - b).
Definition mul (a b : double) : double := round (a * b).

(** [std::floor] and [std::ceil] return a double with an integral value. *)
Definition floor (x : double) : double := inject_Z (Qfloor x).
Definition ceil (x : double) : double := inject_Z (Qceiling x).

(** [std::abs] and [std::fabs]. *)
Definition abs (x : double) : double := Qabs x.

(** The range of [int]. *)
Definition int_min : Z := (- 2 ^ 31)%Z.
Definition int_max : Z := (2 ^ 31 - 1)%Z.

(** [static_cast<int>(x)]: truncation toward zero. Where the truncated
    value is not in the range of [int] the language leaves the conversion
    undefined; the model gives the least [int], which is what the
    conversion instruction of the usual targets delivers. *)
Definition static_cast_int (x : double) : Z :=
  let z := Z.quot (Qnum x) (Zpos (Qden x)) in
  if ((int_min <=? z) && (z <=? int_max))%Z then z else int_min.

(** [a + b] and [a * b] on [int]: past the range the model wraps around,
    where the language leaves the result open. *)
Definition int_wrap (z : Z) : Z := ((z + 2 ^ 31) mod 2 ^ 32 - 2 ^ 31)%Z.
Definition int_add (a b : Z) : Z := int_wrap (a + b).
Definition int_mul (a b : Z) : Z := int_wrap (a * b).

(** [a == b], [a != b], [a < b], [a > b], [a <= b] on doubles. *)
Definition eqb (a b : double) : bool := Qeq_bool a b.
Definition neqb (a b : double) : bool := negb (Qeq_bool a b).
Definition ltb (a b : double) : bool :=
  negb (Qle_bool b a).
Definition gtb (a b : double) : bool := ltb b a.
Definition leb (a b : double) : bool := Qle_bool a b.

(** [std::min(a, b)] is [(b < a) ? b : a]; [std::max(a, b)] is
    [(a < b) ? b : a]. *)
Definition min (a b : double) : double := if ltb b a then b else a.
Definition max (a b : double) : double := if ltb a b then b else a.

End Dbl.

(** ** The sample index on primitive floats

    The same computation as [sample_idx_of] below, on the binary64 numbers
    of the kernel, to compare the rounding of the model with. *)

Module Binary64.
Import PrimFloat.

Definition two52 : float := 4503599627370496%float.

(** [std::floor]: a double of magnitude [2^52] or more is integral; below
    that, adding and subtracting [2^52] rounds to a nearest integer, which
    is the floor or the integer above it. *)
Definition floor (x : float) : float :=
  if ltb (abs x) two52 then
    let r :=
      (if leb 0 x then (x + two52) - two52 else (x - two52) + two52)%float in
    if ltb x r then (r - 1)%float else r
  else x.

(** [static_cast<int>(x)] for a double that holds a natural number below
    [2^53]. *)
Definition static_cast_int (x : float) : Z :=
  let '(f, e) := frshiftexp x in
  let m := Uint63.to_Z (normfr_mantissa f) in
  let k := (Uint63.to_Z e - FloatOps.shift)%Z in
  Z.shiftr m (53 - k).

Definition sample_idx_of (tx ty : float) : Z :=
  let dx := (tx - floor tx)%float in
  let dy := (ty - floor ty)%float in
  let sample_x := floor (dx * 8)%float in
  let sample_y := floor (dy * 8)%float in
  (static_cast_int sample_y * 8 + static_cast_int sample_x)%Z.

(** The double nearest to the decimal [n / d], as a literal denotes it. *)
Definition decimal (n d : Z) : float :=
  (of_uint63 (Uint63.of_Z n) / of_uint63 (Uint63.of_Z d))%float.

(** The double [- 2^-62]. *)
Definition tiny_negative : float := (- (1 / 4611686018427387904))%float.

(** The rational that a finite double holds. *)
Definition to_Q (x : float) : Q :=
  match FloatOps.Prim2SF x with
  | SpecFloat.S754_finite s m e =>
      ((if s then - inject_Z (Zpos m) else inject_Z (Zpos m)) * Dbl.pow2 e)%Q
  | _ => 0%Q
  end.

(** Doubles on which the rounding of the model is compared with the
    arithmetic of the primitive floats: decimals, powers of two, large and
    small magnitudes, subnormal numbers. *)
Definition samples : list float :=
  [decimal 103 10; decimal 1 3; (1 / 4611686018427387904)%float;
   decimal 123456789 1000; (decimal 1 3 * 0x1p+996)%float;
   (decimal 1 7 * 0x1p-997)%float; (5 * 0x1p-1074)%float;
   (decimal 2 3 * 0x1p-1022)%float].

(** The model's operation on the rationals of two doubles gives the
    rational of the primitive operation, overflow apart. *)
Definition agrees (fop : float -> float -> float) (qop : Q -> Q -> Q)
    (a b : float) : bool :=
  is_infinity (fop a b)
  || Qeq_bool (to_Q (fop a b)) (Dbl.round (qop (to_Q a) (to_Q b))).

Definition on_all_pairs (f : float -> float -> bool) : bool :=
  forallb (fun a => forallb (fun b => f a b && f (- a)%float b) samples)
    samples.

End Binary64.

(** ** [std::map] as a key-ordered association list *)

(** The comparison object of a map ([std::less<Key>]). *)
Class Less (K : Type) := less : K -> K -> bool.

(** The requirements [std::map] places on the comparison: a strict weak
    ordering. *)
Class StrictWeakOrder (K : Type) `{Less K} := {
  less_irrefl : forall a : K, less a a = false;
  less_trans : forall a b c : K,
    less a b = true -> less b c = true -> less a c = true;
  less_negtrans : forall a b c : K,
    less a b = false -> less b c = false -> less a c = false
}.

Module StdMap.
Section Defs.
Context {K V : Type} `{Less K}.

Definition t : Type := list (K * V).

(** Keys are identified up to equivalence: neither is less than the
    other. *)
Definition equivb (a b : K) : bool := negb (less a b) && negb (less b a).

Definition empty : t := [].

Definition size (m : t) : nat := length m.

(** [m.find(k)]: [None] stands for [m.end()]. *)
Fixpoint find (k : K) (m : t) : option V :=
  match m with
  | [] => None
  | (k', v') :: r => if equivb k k' then Some v' else find k r
  end.

(** [m.emplace(k, v)]: inserts unless an equivalent key is present. *)
Fixpoint emplace (k : K) (v : V) (m : t) : t :=
  match m with
  | [] => [(k, v)]
  | (k', v') :: r =>
      if less k k' then (k, v) :: m
      else if less k' k then (k', v') :: emplace k v r
      else m
  end.

(** [m[k] = v]: inserts, or overwrites the value of the equivalent key. *)
Fixpoint assign (k : K) (v : V) (m : t) : t :=
  match m with
  | [] => [(k, v)]
  | (k', v') :: r =>
      if less k k' then (k, v) :: m
      else if less k' k then (k', v') :: assign k v r
      else (k', v) :: r
  end.

(** [m.begin()] as an optional entry, and [m.erase(m.begin())]. *)
Definition begin (m : t) : option (K * V) := hd_error m.
Definition erase_begin (m : t) : t := tl m.

(** The step that precedes every insertion into a cache:
    [if (m.size() > cap) m.erase(m.begin());]. *)
Definition evict (cap : nat) (m : t) : t :=
  if (cap <? size m)%nat then erase_begin m else m.

(** The representation invariant: keys strictly increasing. *)
Inductive sorted : t -> Prop :=
| sorted_nil : sorted []
| sorted_cons k v r :
    Forall (fun e => less k (fst e) = true) r -> sorted r ->
    sorted ((k, v) :: r).
End Defs.

Arguments t : clear implicits.
Arguments t K V : assert.
End StdMap.

(** ** Data model *)

(** [agg::trans_affine]: the matrix [sx shy shx sy tx ty]. *)
Record trans_affine := mk_trans_affine {
  sx : Q; shy : Q; shx : Q; sy : Q; tx : Q; ty : Q
}.

(** Modelled from the spec: [agg::trans_affine] is declared in AGG's headers,
    which are not among the sources; a translation adds to the translation
    components of the matrix, in double arithmetic, and leaves scale and
    shear alone. *)
Definition translate (m : trans_affine) (x y : Q) : trans_affine :=
  {| sx := sx m; shy := shy m; shx := shx m; sy := sy m;
     tx := Dbl.add (tx m) x; ty := Dbl.add (ty m) y |}.

Definition with_translation (m : trans_affine) (x y : Q) : trans_affine :=
  {| sx := sx m; shy := shy m; shx := shx m; sy := sy m; tx := x; ty := y |}.

(** [agg::trans_affine_scaling(s)]. *)
Definition trans_affine_scaling (s : Q) : trans_affine :=
  {| sx := s; shy := 0; shx := 0; sy := s; tx := 0; ty := 0 |}.

(** [mapnik::box2d<double>]. *)
Record box2d := mk_box2d { minx : Q; miny : Q; maxx : Q; maxy : Q }.

Definition width (b : box2d) : Q := (maxx b - minx b)%Q.
Definition height (b : box2d) : Q := (maxy b - miny b)%Q.
Definition center (b : box2d) : Q * Q :=
  ((minx b + maxx b) / 2, (miny b + maxy b) / 2)%Q.

(** Gradient kinds carried by a paint attribute record. *)
Inductive gradient_e := NO_GRADIENT | LINEAR | RADIAL.

Record gradient := mk_gradient {
  get_gradient_type : gradient_e;
  gradient_data : Z
}.

Definition set_gradient_type (g : gradient) (t : gradient_e) : gradient :=
  {| get_gradient_type := t; gradient_data := gradient_data g |}.

Definition has_gradient (g : gradient) : bool :=
  match get_gradient_type g with NO_GRADIENT => false | _ => true end.

(** Modelled from the spec: [svg::path_attributes] is declared outside the
    sources; an attribute record carries the fill flag, colour and gradient
    and the stroke flag, colour, width and gradient. *)
Record path_attributes := mk_path_attributes {
  fill_flag : bool;
  fill_color : Z;
  fill_gradient : gradient;
  stroke_flag : bool;
  stroke_color : Z;
  stroke_width : Q;
  stroke_gradient : gradient
}.

Definition set_stroke_off (a : path_attributes) : path_attributes :=
  {| fill_flag := fill_flag a; fill_color := fill_color a;
     fill_gradient := fill_gradient a;
     stroke_flag := false; stroke_color := stroke_color a;
     stroke_width := stroke_width a;
     stroke_gradient := set_gradient_type (stroke_gradient a) NO_GRADIENT |}.

Definition set_fill_off (a : path_attributes) : path_attributes :=
  {| fill_flag := false; fill_color := fill_color a;
     fill_gradient := set_gradient_type (fill_gradient a) NO_GRADIENT;
     stroke_flag := stroke_flag a; stroke_color := stroke_color a;
     stroke_width := stroke_width a;
     stroke_gradient := stroke_gradient a |}.

Definition svg_attribute_type : Type := list path_attributes.

(** A vertex of a stored path: coordinates and the path command. *)
Definition svg_path_storage : Type := list (Q * Q * Z).

(** [svg_path_ptr]: a shared pointer to the path storage of a marker.  The
    pointer value is its identity; the pointee carries the path, the stock
    attributes and the bounding box. *)
Record svg_path_ptr := mk_svg_path_ptr {
  address : Z;
  source : svg_path_storage;
  attributes : svg_attribute_type;
  bounding_box : box2d
}.

(** [image_rgba8]: [pixels] holds one 32-bit value per pixel, row by row. *)
Record image_rgba8 := mk_image {
  image_width : Z;
  image_height : Z;
  pixels : list Z
}.

(** [image_rgba8(width, height, true)]: a zero-initialised image. *)
Definition new_image (w h : Z) : image_rgba8 :=
  {| image_width := w; image_height := h;
     pixels := repeat 0%Z (Z.to_nat (w * h)) |}.

(** [std::all_of(img.begin(), img.end(), val == 0)]. *)
Definition all_zero (img : image_rgba8) : bool :=
  forallb (fun val => Z.eqb val 0) (pixels img).

(** [std::shared_ptr<image_rgba8>]: null is [None]. *)
Abbreviation image_ptr := (option image_rgba8).

(** The marker variant. *)
Inductive marker :=
| marker_null
| marker_svg (data : svg_path_ptr)
| marker_rgba8 (data : image_rgba8) (bbox : box2d).

(** *** Symbolizers and their properties *)

Inductive keys :=
| k_gamma | k_gamma_method | k_opacity | k_offset | k_comp_op | k_clip
| k_fill | k_stroke | k_stroke_width
| k_geometry_transform | k_image_transform
| k_spacing | k_max_error | k_allow_overlap | k_avoid_edges
| k_ignore_placement | k_width | k_height | k_file
| k_markers_placement_type | k_direction
| k_simplify_tolerance | k_smooth.

(** A property value: literals of several types, or a shared pointer to an
    expression tree (compared by pointer). *)
Inductive prop_value :=
| value_bool (b : bool)
| value_integer (z : Z)
| value_double (d : Qc)
| value_string (s : string)
| expression_ptr (e : Z)
| transform_type (e : Z).

(** Modelled from the spec: [is_expression] is declared outside the sources;
    it reports whether a property is a dynamic expression. *)
Definition is_expression (v : prop_value) : bool :=
  match v with expression_ptr _ => true | _ => false end.

Definition keys_code (k : keys) : positive :=
  match k with
  | k_gamma => 1 | k_gamma_method => 2 | k_opacity => 3 | k_offset => 4
  | k_comp_op => 5 | k_clip => 6 | k_fill => 7 | k_stroke => 8
  | k_stroke_width => 9 | k_geometry_transform => 10
  | k_image_transform => 11 | k_spacing => 12 | k_max_error => 13
  | k_allow_overlap => 14 | k_avoid_edges => 15 | k_ignore_placement => 16
  | k_width => 17 | k_height => 18 | k_file => 19
  | k_markers_placement_type => 20 | k_direction => 21
  | k_simplify_tolerance => 22 | k_smooth => 23
  end%positive.

Definition keys_of_code (p : positive) : option keys :=
  match p with
  | 1 => Some k_gamma | 2 => Some k_gamma_method | 3 => Some k_opacity
  | 4 => Some k_offset | 5 => Some k_comp_op | 6 => Some k_clip
  | 7 => Some k_fill | 8 => Some k_stroke | 9 => Some k_stroke_width
  | 10 => Some k_geometry_transform | 11 => Some k_image_transform
  | 12 => Some k_spacing | 13 => Some k_max_error
  | 14 => Some k_allow_overlap | 15 => Some k_avoid_edges
  | 16 => Some k_ignore_placement | 17 => Some k_width | 18 => Some k_height
  | 19 => Some k_file | 20 => Some k_markers_placement_type
  | 21 => Some k_direction | 22 => Some k_simplify_tolerance
  | 23 => Some k_smooth
  | _ => None
  end%positive.

#[global] Instance keys_eq_dec : EqDecision keys.
Proof. solve_decision. Defined.

#[global] Instance keys_countable : Countable keys.
Proof.
  refine (inj_countable keys_code keys_of_code _).
  intros []; reflexivity.
Defined.

#[global] Instance prop_value_eq_dec : EqDecision prop_value.
Proof. solve_decision. Defined.

(** [symbolizer_base::cont_type]: the map from property keys to values. *)
Abbreviation cont_type := (gmap keys prop_value).

(** A symbolizer object: the address it lives at and its properties. *)
Record markers_symbolizer := mk_symbolizer {
  sym_address : Z;
  properties : cont_type
}.

Definition has_key (sym : markers_symbolizer) (k : keys) : bool :=
  bool_decide (is_Some (properties sym !! k)).

(** *** Key comparisons *)

#[global] Instance Z_less : Less Z := Z.ltb.
#[global] Instance bool_less : Less bool := fun a b => negb a && b.
#[global] Instance double_less : Less Q := Dbl.ltb.

(** [std::tuple] and [std::pair] compare lexicographically, using only the
    [<] of the components. *)
#[global] Instance pair_less {A B : Type} `{Less A, Less B} : Less (A * B) :=
  fun x y =>
    less (fst x) (fst y) || (negb (less (fst y) (fst x)) && less (snd x) (snd y)).

Definition gradient_code (g : gradient_e) : Z :=
  match g with NO_GRADIENT => 0 | LINEAR => 1 | RADIAL => 2 end.

(** Modelled from the spec: the comparison of [svg::path_attributes] is
    declared outside the sources; two attribute records are key-equal only
    by full value comparison, which a field-by-field lexicographic order
    gives. *)
Definition path_attributes_fields (a : path_attributes) :
  bool * Z * Z * Z * bool * Z * Q * Z * Z :=
  (fill_flag a, fill_color a,
   gradient_code (get_gradient_type (fill_gradient a)),
   gradient_data (fill_gradient a),
   stroke_flag a, stroke_color a, stroke_width a,
   gradient_code (get_gradient_type (stroke_gradient a)),
   gradient_data (stroke_gradient a)).

#[global] Instance path_attributes_less : Less path_attributes :=
  fun a b => less (path_attributes_fields a) (path_attributes_fields b).

(** Shared pointers compare by the stored pointer. *)
#[global] Instance svg_path_ptr_less : Less svg_path_ptr :=
  fun a b => Z.ltb (address a) (address b).

(** A double that may be the sentinel negative infinity. *)
Inductive xdouble := NegInfinity | Finite (d : Q).

#[global] Instance xdouble_less : Less xdouble :=
  fun a b =>
    match a, b with
    | _, NegInfinity => false
    | NegInfinity, Finite _ => true
    | Finite x, Finite y => Dbl.ltb x y
    end.

(** ** The rendering state *)

(** Key and value of the rendered-image cache. *)
Abbreviation image_key := (svg_path_ptr * Z * path_attributes)%type.
Abbreviation image_pair := (image_ptr * image_ptr)%type.

(** Key of the ellipse cache: width, height and stroke width. *)
Abbreviation ellipse_key := (xdouble * xdouble * xdouble)%type.

(** [agg::renderer_base] over a pixel format: the buffer written to and the
    compositing operation of the pixel format. *)
Record renderer_base := mk_renb { rb_buffer : image_rgba8; rb_comp_op : Z }.

(** The compositing operation of a pixel format that was not given one
    ([agg::comp_op_src_over]). *)
Definition default_comp_op : Z := 3.

Definition clip_box_t : Type := Z * Z * Z * Z.

(** [markers_dispatch_params]. *)
Record markers_dispatch_params := mk_params {
  p_size : box2d;
  p_tr : trans_affine;
  p_spacing : Q;
  p_max_error : Q;
  p_allow_overlap : bool;
  p_avoid_edges : bool;
  p_direction : Z;
  placement_method : Z;
  ignore_placement : bool;
  snap_to_pixels : bool;
  scale_factor : Q;
  opacity : Q
}.

(** The stages of the vertex converter, and the geometry kinds that select
    the clipping stage. *)
Inductive converter_tag :=
| clip_poly_tag | clip_line_tag | transform_tag | offset_transform_tag
| affine_transform_tag | simplify_tag | smooth_tag.

Inductive geometry_types :=
| Unknown | Point | LineString | Polygon
| MultiPoint | MultiLineString | MultiPolygon | GeometryCollection.

(** The functions and types this layer consumes from the rest of the
    library: the rasterizer, the marker registry, the style evaluator and
    the placement machinery. *)
Class Collaborators := {
  feature_impl : Type;
  variables : Type;
  detector : Type;
  (** [render_vector_marker(svg_renderer(path, attrs), ras, renb, bbox, tr,
      opacity, snap)]: the buffer of [renb] after rendering. *)
  render_vector_marker :
    svg_path_storage -> svg_attribute_type -> clip_box_t -> renderer_base ->
    box2d -> trans_affine -> Q -> bool -> image_rgba8;
  (** [render_raster_marker(renb, ras, src, tr, opacity, scale_factor,
      snap)]: the buffer of [renb] after the blit. *)
  render_raster_marker :
    renderer_base -> clip_box_t -> image_rgba8 -> trans_affine -> Q -> Q ->
    bool -> image_rgba8;
  (** [marker_cache::instance().find(uri, update_cache)] and [is_uri]. *)
  marker_cache_find : string -> bool -> marker;
  is_uri : string -> bool;
  (** [push_explicit_style]: [Some custom] when a style property overrides
      the stock attributes. *)
  push_explicit_style :
    svg_attribute_type -> markers_symbolizer -> feature_impl -> variables ->
    option svg_attribute_type;
  (** Evaluation of a property that is present in the symbolizer. *)
  extract_string : feature_impl -> variables -> prop_value -> string;
  extract_double : feature_impl -> variables -> prop_value -> Q;
  (** [get<T, key>(sym, feature, vars)] with the registered default. *)
  get_double : keys -> markers_symbolizer -> feature_impl -> variables -> Q;
  get_bool : keys -> markers_symbolizer -> feature_impl -> variables -> bool;
  get_enum : keys -> markers_symbolizer -> feature_impl -> variables -> Z;
  setup_transform_scaling :
    trans_affine -> Q -> Q -> feature_impl -> variables ->
    markers_symbolizer -> trans_affine;
  evaluate_transform :
    trans_affine -> feature_impl -> variables -> prop_value -> Q ->
    trans_affine;
  (** [build_ellipse]: the path, attributes and bounding box written into
      the fresh storage. *)
  build_ellipse :
    markers_symbolizer -> feature_impl -> variables ->
    svg_path_storage * svg_attribute_type * box2d;
  (** The placements produced for a feature by the vertex converter and the
      placement finder, with the collision detector they update: the
      transforms at which the dispatch calls [render_marker]. *)
  geometry_type : feature_impl -> geometry_types;
  (** The transform a dispatch object derives from the marker transform. *)
  vector_dispatch_tr : svg_path_ptr -> trans_affine -> trans_affine;
  apply_markers_multi :
    feature_impl -> variables -> markers_symbolizer -> list converter_tag ->
    trans_affine -> markers_dispatch_params -> detector ->
    list trans_affine * detector
}.

(** The calls a render makes on the caches and on the rasterizer, in program
    order; the last three are the calls on the destination and on scratch
    buffers. *)
Inductive target := Destination | Scratch.

Inductive call :=
| MarkerCacheFind (filename : string)
| CachedAttributesFind (key : Z)
| CachedAttributesAssign (key : Z)
| CachedEllipsesFind (key : ellipse_key)
| CachedEllipsesEmplace (key : ellipse_key)
| CachedImagesFind (key : image_key)
| CachedImagesEmplace (key : image_key)
| RenderVectorMarker (into : target) (attrs : svg_attribute_type)
    (tr : trans_affine)
| RenderRasterMarker (src : image_rgba8) (tr : trans_affine).

Section Rendering.
Context `{Collaborators}.
Local Open Scope Q_scope.

(** The process-wide caches (static members), the destination buffer and
    rasterizer of the renderer context, the collision detector, and the
    next address the allocator hands out. *)
Record world := mk_world {
  cached_images_ : StdMap.t image_key image_pair;
  cached_attributes_ : StdMap.t Z (svg_attribute_type * cont_type);
  cached_ellipses_ : StdMap.t ellipse_key svg_path_ptr;
  buf_ : image_rgba8;
  comp_op_ : Z;
  ras_clip_box : clip_box_t;
  detector_ : detector;
  next_address : Z
}.

Definition set_cached_images (w : world) m : world :=
  mk_world m (cached_attributes_ w) (cached_ellipses_ w) (buf_ w)
    (comp_op_ w) (ras_clip_box w) (detector_ w) (next_address w).
Definition set_cached_attributes (w : world) m : world :=
  mk_world (cached_images_ w) m (cached_ellipses_ w) (buf_ w)
    (comp_op_ w) (ras_clip_box w) (detector_ w) (next_address w).
Definition set_cached_ellipses (w : world) m : world :=
  mk_world (cached_images_ w) (cached_attributes_ w) m (buf_ w)
    (comp_op_ w) (ras_clip_box w) (detector_ w) (next_address w).
Definition set_buf (w : world) b : world :=
  mk_world (cached_images_ w) (cached_attributes_ w) (cached_ellipses_ w) b
    (comp_op_ w) (ras_clip_box w) (detector_ w) (next_address w).
Definition set_clip_box (w : world) c : world :=
  mk_world (cached_images_ w) (cached_attributes_ w) (cached_ellipses_ w)
    (buf_ w) (comp_op_ w) c (detector_ w) (next_address w).
Definition set_detector (w : world) d : world :=
  mk_world (cached_images_ w) (cached_attributes_ w) (cached_ellipses_ w)
    (buf_ w) (comp_op_ w) (ras_clip_box w) d (next_address w).
Definition set_next_address (w : world) a : world :=
  mk_world (cached_images_ w) (cached_attributes_ w) (cached_ellipses_ w)
    (buf_ w) (comp_op_ w) (ras_clip_box w) (detector_ w) a.

(** [renb_]: the renderer base over the destination buffer. *)
Definition renb_ (w : world) : renderer_base :=
  {| rb_buffer := buf_ w; rb_comp_op := comp_op_ w |}.

(** The constructor of [markers_dispatch_params]: the spacing is scaled. *)
Definition make_markers_dispatch_params (size : box2d) (tr : trans_affine)
    (sym : markers_symbolizer) (feature : feature_impl) (vars : variables)
    (scale : Q) (snap : bool) : markers_dispatch_params :=
  {| p_size := size;
     p_tr := tr;
     p_spacing := Dbl.mul (get_double k_spacing sym feature vars) scale;
     p_max_error := get_double k_max_error sym feature vars;
     p_allow_overlap := get_bool k_allow_overlap sym feature vars;
     p_avoid_edges := get_bool k_avoid_edges sym feature vars;
     p_direction := get_enum k_direction sym feature vars;
     placement_method := get_enum k_markers_placement_type sym feature vars;
     ignore_placement := get_bool k_ignore_placement sym feature vars;
     snap_to_pixels := snap;
     scale_factor := scale;
     opacity := get_double k_opacity sym feature vars |}.

(** *** [agg_markers_renderer_context::render_marker] for vector markers *)

(** Maximum number of images to cache, and the subpixel sampling rate. *)
Definition cache_size : nat := 4096.
Definition sampling_rate : Z := 8.

Definition cacheable (marker_tr : trans_affine) : bool :=
  Dbl.eqb (sx marker_tr) 1%Q && Dbl.eqb (sy marker_tr) 1%Q &&
  Dbl.eqb (shx marker_tr) 0%Q && Dbl.eqb (shy marker_tr) 0%Q.

Definition stroke_active (a : path_attributes) : bool :=
  stroke_flag a || has_gradient (stroke_gradient a).
Definition fill_active (a : path_attributes) : bool :=
  fill_flag a || has_gradient (fill_gradient a).

(** Canvas offsets. *)
Definition margin_of (a0 : path_attributes) : Q :=
  if stroke_active a0 then Dbl.abs (stroke_width a0) else 0%Q.
Definition x0_of (src : svg_path_ptr) (margin : Q) : Q :=
  Dbl.floor (Dbl.sub (minx (bounding_box src)) margin).
Definition y0_of (src : svg_path_ptr) (margin : Q) : Q :=
  Dbl.floor (Dbl.sub (miny (bounding_box src)) margin).

(** Subpixel offset and sample index. *)
Definition dx_of (marker_tr : trans_affine) : Q :=
  Dbl.sub (tx marker_tr) (Dbl.floor (tx marker_tr)).
Definition dy_of (marker_tr : trans_affine) : Q :=
  Dbl.sub (ty marker_tr) (Dbl.floor (ty marker_tr)).

Definition sample_idx_of (marker_tr : trans_affine) : Z :=
  let sample_x :=
    Dbl.floor (Dbl.mul (dx_of marker_tr) (inject_Z sampling_rate)) in
  let sample_y :=
    Dbl.floor (Dbl.mul (dy_of marker_tr) (inject_Z sampling_rate)) in
  Dbl.int_add
    (Dbl.int_mul (Dbl.static_cast_int sample_y) sampling_rate)
    (Dbl.static_cast_int sample_x).

Definition key_of (src : svg_path_ptr) (a0 : path_attributes)
    (marker_tr : trans_affine) : image_key :=
  (src, sample_idx_of marker_tr, a0).

(** Canvas size: an [int]. The width and the height of the box are the
    differences of its sides, in double arithmetic. *)
Definition canvas_width (src : svg_path_ptr) (margin : Q) : Z :=
  let bbox := bounding_box src in
  Dbl.int_add
    (Dbl.static_cast_int
       (Dbl.ceil
          (Dbl.add (Dbl.sub (maxx bbox) (minx bbox)) (Dbl.mul 2 margin))))
    2.
Definition canvas_height (src : svg_path_ptr) (margin : Q) : Z :=
  let bbox := bounding_box src in
  Dbl.int_add
    (Dbl.static_cast_int
       (Dbl.ceil
          (Dbl.add (Dbl.sub (maxy bbox) (miny bbox)) (Dbl.mul 2 margin))))
    2.

(** The local transformation matrix of a cache miss: the translation is
    reset to the subpixel offset relative to the canvas origin. *)
Definition local_tr (src : svg_path_ptr) (a0 : path_attributes)
    (marker_tr : trans_affine) : trans_affine :=
  let margin := margin_of a0 in
  with_translation marker_tr
    (Dbl.sub (dx_of marker_tr) (x0_of src margin))
    (Dbl.sub (dy_of marker_tr) (y0_of src margin)).

(** A patch is rendered into a fresh zeroed image with one of the two
    shapes switched off, and dropped when it stays entirely zero. *)
Definition render_patch (src : svg_path_ptr) (path : svg_path_storage)
    (attrs_copy : svg_attribute_type) (clip : clip_box_t)
    (w h : Z) (tr : trans_affine) (snap : bool) : image_ptr :=
  let img := new_image w h in
  let img' :=
    render_vector_marker path attrs_copy clip
      {| rb_buffer := img; rb_comp_op := default_comp_op |}
      (bounding_box src) tr 1%Q snap in
  if all_zero img' then None else Some img'.

Definition fill_patch (src : svg_path_ptr) (path : svg_path_storage)
    (a0 : path_attributes) (params : markers_dispatch_params)
    (marker_tr : trans_affine) : image_ptr :=
  let margin := margin_of a0 in
  let w := canvas_width src margin in
  let h := canvas_height src margin in
  if fill_active a0 then
    render_patch src path [set_stroke_off a0] (0, 0, w, h)%Z w h
      (local_tr src a0 marker_tr) (snap_to_pixels params)
  else None.

Definition stroke_patch (src : svg_path_ptr) (path : svg_path_storage)
    (a0 : path_attributes) (params : markers_dispatch_params)
    (marker_tr : trans_affine) : image_ptr :=
  let margin := margin_of a0 in
  let w := canvas_width src margin in
  let h := canvas_height src margin in
  if stroke_active a0 then
    render_patch src path [set_fill_off a0] (0, 0, w, h)%Z w h
      (local_tr src a0 marker_tr) (snap_to_pixels params)
  else None.

Definition patch_calls (active : bool) (attrs_copy : svg_attribute_type)
    (tr : trans_affine) : list call :=
  if active then [RenderVectorMarker Scratch attrs_copy tr] else [].

(** The blitting transformation. *)
Definition blit_tr (src : svg_path_ptr) (a0 : path_attributes)
    (marker_tr : trans_affine) : trans_affine :=
  let margin := margin_of a0 in
  translate marker_tr
    (Dbl.sub (x0_of src margin) (dx_of marker_tr))
    (Dbl.sub (y0_of src margin) (dy_of marker_tr)).

Definition blit_calls (img : image_ptr) (tr : trans_affine) : list call :=
  match img with
  | Some i => [RenderRasterMarker i tr]
  | None => []
  end.

(** [if (img) render_raster_marker(renb_, ras_, *img, tr, ...)]. *)
Definition blit (img : image_ptr) (tr : trans_affine)
    (params : markers_dispatch_params) (w : world) : world * list call :=
  match img with
  | Some i =>
      (set_buf w
         (render_raster_marker (renb_ w) (ras_clip_box w) i tr
            (opacity params) (scale_factor params) (snap_to_pixels params)),
       blit_calls img tr)
  | None => (w, blit_calls img tr)
  end.

(** The cached path: look the key up; on a miss render both patches,
    evict when the cache is over its size and store; then blit. *)
Definition lookup_or_render (src : svg_path_ptr) (path : svg_path_storage)
    (a0 : path_attributes) (params : markers_dispatch_params)
    (marker_tr : trans_affine) (w : world)
  : image_pair * world * list call :=
  let key := key_of src a0 marker_tr in
  match StdMap.find key (cached_images_ w) with
  | Some (fill_img, stroke_img) =>
      ((fill_img, stroke_img), w, [CachedImagesFind key])
  | None =>
      let fill_img := fill_patch src path a0 params marker_tr in
      let stroke_img := stroke_patch src path a0 params marker_tr in
      let cache := cached_images_ w in
      let cache := StdMap.evict cache_size cache in
      let cache := StdMap.emplace key (fill_img, stroke_img) cache in
      let w := set_cached_images w cache in
      let w :=
        set_clip_box w
          (0, 0, image_width (buf_ w), image_height (buf_ w))%Z in
      ((fill_img, stroke_img), w,
       [CachedImagesFind key]
       ++ patch_calls (fill_active a0) [set_stroke_off a0]
            (local_tr src a0 marker_tr)
       ++ patch_calls (stroke_active a0) [set_fill_off a0]
            (local_tr src a0 marker_tr)
       ++ [CachedImagesEmplace key])
  end.

Definition render_cached (src : svg_path_ptr) (path : svg_path_storage)
    (a0 : path_attributes) (params : markers_dispatch_params)
    (marker_tr : trans_affine) (w : world) : world * list call :=
  let '(fill_img, stroke_img, w1, c1) :=
    lookup_or_render src path a0 params marker_tr w in
  let tr := blit_tr src a0 marker_tr in
  let '(w2, c2) := blit fill_img tr params w1 in
  let '(w3, c3) := blit stroke_img tr params w2 in
  (w3, c1 ++ c2 ++ c3).

(** The non-cached rendering path. *)
Definition render_uncached (src : svg_path_ptr) (path : svg_path_storage)
    (attrs : svg_attribute_type) (params : markers_dispatch_params)
    (marker_tr : trans_affine) (w : world) : world * list call :=
  (set_buf w
     (render_vector_marker path attrs (ras_clip_box w) (renb_ w)
        (bounding_box src) marker_tr (opacity params)
        (snap_to_pixels params)),
   [RenderVectorMarker Destination attrs marker_tr]).

Definition render_marker (src : svg_path_ptr) (path : svg_path_storage)
    (attrs : svg_attribute_type) (params : markers_dispatch_params)
    (marker_tr : trans_affine) (w : world) : world * list call :=
  match attrs with
  | [a0] =>
      if cacheable marker_tr
      then render_cached src path a0 params marker_tr w
      else render_uncached src path attrs params marker_tr w
  | _ => render_uncached src path attrs params marker_tr w
  end.

(** [render_marker] for raster markers. *)
Definition render_marker_raster (src : image_rgba8)
    (params : markers_dispatch_params) (marker_tr : trans_affine)
    (w : world) : world * list call :=
  (set_buf w
     (render_raster_marker (renb_ w) (ras_clip_box w) src marker_tr
        (opacity params) (scale_factor params) (snap_to_pixels params)),
   [RenderRasterMarker src marker_tr]).

End Rendering.

(** ** The marker visitor and the entry point *)

(** Modelled from the spec: matrix product of [agg::trans_affine], declared
    in AGG's headers: [a * b] applies [a] first, then [b]. *)
Definition multiply (a b : trans_affine) : trans_affine :=
  {| sx := sx a * sx b + shy a * shx b;
     shx := shx a * sx b + sy a * shx b;
     tx := tx a * sx b + ty a * shx b + tx b;
     shy := sx a * shy b + shy a * sy b;
     sy := shx a * shy b + sy a * sy b;
     ty := tx a * shy b + ty a * sy b + ty b |}%Q.

Definition trans_affine_translation (x y : Q) : trans_affine :=
  {| sx := 1; shy := 0; shx := 0; sy := 1; tx := x; ty := y |}%Q.

Definition is_empty (s : string) : bool :=
  match s with EmptyString => true | String _ _ => false end.

Definition ellipse_uri : string := "shape://ellipse".

Section Visitor.
Context `{Collaborators}.
Local Open Scope Q_scope.

(** The part of [renderer_common] this layer reads. *)
Record renderer_common := mk_common {
  scale_factor_ : Q;
  vars_ : variables
}.

(** Maximum number of attributes and of ellipses to cache. *)
Definition attributes_cache_size : nat := 256.
Definition ellipses_cache_size : nat := 256.

(** [get<T>(sym, key, feature, vars, default_value)]: the default is
    returned when the key is absent. *)
Definition get_string (sym : markers_symbolizer) (key : keys)
    (feature : feature_impl) (vars : variables) (default : string)
  : string :=
  match properties sym !! key with
  | Some v => extract_string feature vars v
  | None => default
  end.

Definition get_double_or_neg_infinity (sym : markers_symbolizer)
    (key : keys) (feature : feature_impl) (vars : variables) : xdouble :=
  match properties sym !! key with
  | Some v => Finite (extract_double feature vars v)
  | None => NegInfinity
  end.

Definition get_marker_attributes (stock_marker : svg_path_ptr)
    (sym : markers_symbolizer) (feature : feature_impl)
    (common : renderer_common) : svg_attribute_type :=
  let stock_attr := attributes stock_marker in
  match push_explicit_style stock_attr sym feature (vars_ common) with
  | Some custom_attr => custom_attr
  | None => stock_attr
  end.

(** The stages switched on in the vertex converter. *)
Definition converter_tags (sym : markers_symbolizer)
    (feature : feature_impl) (vars : variables) : list converter_tag :=
  let clip := get_bool k_clip sym feature vars in
  let offset := get_double k_offset sym feature vars in
  let simplify_tolerance := get_double k_simplify_tolerance sym feature vars in
  let smooth := get_double k_smooth sym feature vars in
  (if clip then
     match geometry_type feature with
     | Polygon | MultiPolygon => [clip_poly_tag]
     | LineString | MultiLineString => [clip_line_tag]
     | _ => []
     end
   else [])
  ++ [transform_tag]
  ++ (if Dbl.gtb (Dbl.abs offset) 0 then [offset_transform_tag] else [])
  ++ [affine_transform_tag]
  ++ (if Dbl.gtb simplify_tolerance 0 then [simplify_tag] else [])
  ++ (if Dbl.gtb smooth 0 then [smooth_tag] else []).

Definition geom_tr_of (sym : markers_symbolizer) (feature : feature_impl)
    (common : renderer_common) : trans_affine :=
  match properties sym !! k_geometry_transform with
  | Some t =>
      evaluate_transform (trans_affine_translation 0 0) feature
        (vars_ common) t (scale_factor_ common)
  | None => trans_affine_translation 0 0
  end.

(** Running a render step over the placements, in order. *)
Fixpoint for_each_placement
    (step : trans_affine -> world -> world * list call)
    (placements : list trans_affine) (w : world) : world * list call :=
  match placements with
  | [] => (w, [])
  | m :: rest =>
      let '(w1, c1) := step m w in
      let '(w2, c2) := for_each_placement step rest w1 in
      (w2, c1 ++ c2)
  end.

(** The visitor's [render_marker]: the placements of the dispatch object
    are rendered one by one. *)
Definition dispatch_placements (sym : markers_symbolizer)
    (feature : feature_impl) (common : renderer_common)
    (params : markers_dispatch_params)
    (step : trans_affine -> world -> world * list call)
    (w : world) : world * list call :=
  let vars := vars_ common in
  let '(placements, det) :=
    apply_markers_multi feature vars sym (converter_tags sym feature vars)
      (geom_tr_of sym feature common) params (detector_ w) in
  for_each_placement step placements (set_detector w det).

(** The attribute cache: a hit needs the key and equal properties. *)
Definition lookup_attributes (sym : markers_symbolizer) (w : world)
  : option svg_attribute_type :=
  match StdMap.find (sym_address sym) (cached_attributes_ w) with
  | Some (attrs, props) =>
      if bool_decide (props = properties sym) then Some attrs else None
  | None => None
  end.

(** No property of the symbolizer is an expression. *)
Definition properties_cacheable (sym : markers_symbolizer) : bool :=
  forallb (fun key_prop => negb (is_expression (snd key_prop)))
    (map_to_list (properties sym)).

Definition resolve_attributes (sym : markers_symbolizer)
    (feature : feature_impl) (common : renderer_common)
    (stock : svg_path_ptr) (w : world)
  : svg_attribute_type * world * list call :=
  let attr_key := sym_address sym in
  match lookup_attributes sym w with
  | Some r_attributes =>
      (r_attributes, w, [CachedAttributesFind attr_key])
  | None =>
      let r_attributes := get_marker_attributes stock sym feature common in
      if properties_cacheable sym then
        let cache := cached_attributes_ w in
        let cache := StdMap.evict attributes_cache_size cache in
        let cache :=
          StdMap.assign attr_key (r_attributes, properties sym) cache in
        (r_attributes, set_cached_attributes w cache,
         [CachedAttributesFind attr_key; CachedAttributesAssign attr_key])
      else
        (r_attributes, w, [CachedAttributesFind attr_key])
  end.

(** The ellipse cache: procedurally built ellipses are kept by size. *)
Definition ellipse_key_of (sym : markers_symbolizer)
    (feature : feature_impl) (common : renderer_common) : ellipse_key :=
  let vars := vars_ common in
  (get_double_or_neg_infinity sym k_width feature vars,
   get_double_or_neg_infinity sym k_height feature vars,
   get_double_or_neg_infinity sym k_stroke_width feature vars).

Definition resolve_ellipse (sym : markers_symbolizer)
    (feature : feature_impl) (common : renderer_common) (w : world)
  : svg_path_ptr * world * list call :=
  let vars := vars_ common in
  let marker_key := ellipse_key_of sym feature common in
  match StdMap.find marker_key (cached_ellipses_ w) with
  | Some marker_ptr => (marker_ptr, w, [CachedEllipsesFind marker_key])
  | None =>
      let '(path, attrs, bbox) := build_ellipse sym feature vars in
      let marker_ptr := mk_svg_path_ptr (next_address w) path attrs bbox in
      let w := set_next_address w (next_address w + 1)%Z in
      let cache := cached_ellipses_ w in
      let cache := StdMap.evict ellipses_cache_size cache in
      let cache := StdMap.emplace marker_key marker_ptr cache in
      (marker_ptr, set_cached_ellipses w cache,
       [CachedEllipsesFind marker_key; CachedEllipsesEmplace marker_key])
  end.

Definition apply_image_transform (sym : markers_symbolizer)
    (feature : feature_impl) (common : renderer_common)
    (image_tr : trans_affine) : trans_affine :=
  match properties sym !! k_image_transform with
  | Some t =>
      evaluate_transform image_tr feature (vars_ common) t
        (scale_factor_ common)
  | None => image_tr
  end.

(** [operator()(marker_svg const&)]. *)
Definition visit_svg (filename : string) (sym : markers_symbolizer)
    (feature : feature_impl) (common : renderer_common)
    (mark : svg_path_ptr) (w : world) : world * list call :=
  let vars := vars_ common in
  let snap := negb (is_uri filename) in
  let image_tr := trans_affine_scaling (scale_factor_ common) in
  let '(r_attributes, w1, c1) :=
    resolve_attributes sym feature common mark w in
  let '(marker_ptr, image_tr, w2, c2) :=
    if negb (String.eqb filename ellipse_uri)
       || negb (has_key sym k_width || has_key sym k_height)
    then
      let bbox := bounding_box mark in
      (mark,
       setup_transform_scaling image_tr
         (Dbl.sub (maxx bbox) (minx bbox)) (Dbl.sub (maxy bbox) (miny bbox))
         feature vars sym,
       w1, [])
    else
      let '(marker_ptr, w2, c2) := resolve_ellipse sym feature common w1 in
      (marker_ptr, image_tr, w2, c2) in
  let image_tr := apply_image_transform sym feature common image_tr in
  let params :=
    make_markers_dispatch_params (bounding_box marker_ptr)
      (vector_dispatch_tr marker_ptr image_tr) sym feature vars
      (scale_factor_ common) snap in
  let '(w3, c3) :=
    dispatch_placements sym feature common params
      (render_marker marker_ptr (source marker_ptr) r_attributes params)
      w2 in
  (w3, c1 ++ c2 ++ c3).

(** [operator()(marker_rgba8 const&)]. *)
Definition visit_rgba8 (sym : markers_symbolizer)
    (feature : feature_impl) (common : renderer_common)
    (data : image_rgba8) (bbox : box2d) (w : world) : world * list call :=
  let vars := vars_ common in
  let image_tr := trans_affine_scaling (scale_factor_ common) in
  let image_tr :=
    setup_transform_scaling image_tr (inject_Z (image_width data))
      (inject_Z (image_height data)) feature vars sym in
  let image_tr := apply_image_transform sym feature common image_tr in
  let c := center bbox in
  let recenter := trans_affine_translation (- fst c) (- snd c) in
  let marker_trans := multiply recenter image_tr in
  let params :=
    make_markers_dispatch_params
      (mk_box2d 0 0 (inject_Z (image_width data))
         (inject_Z (image_height data)))
      marker_trans sym feature vars (scale_factor_ common) false in
  dispatch_placements sym feature common params
    (render_marker_raster data params) w.

(** [render_markers_symbolizer]: nothing is done for an empty file name. *)
Definition render_markers_symbolizer (sym : markers_symbolizer)
    (feature : feature_impl) (common : renderer_common) (w : world)
  : world * list call :=
  let filename := get_string sym k_file feature (vars_ common) ellipse_uri in
  if negb (is_empty filename) then
    let mark := marker_cache_find filename true in
    let '(w1, c1) :=
      match mark with
      | marker_null => (w, [])
      | marker_svg data => visit_svg filename sym feature common data w
      | marker_rgba8 data bbox => visit_rgba8 sym feature common data bbox w
      end in
    (w1, MarkerCacheFind filename :: c1)
  else (w, []).

End Visitor.

(** ** The interior point of a polygon

    The arithmetic of this module is exact: a coordinate is the rational
    it holds and no operation rounds, overflows or underflows.  What is
    proved of it is proved of the algorithm, not of its run on doubles. *)

Module Interior.

(** A computation either returns, or stops at a division by zero, or
    meets a non-finite distance (a polygon without any vertex), or runs
    out of the fuel that bounds its loops. *)
Inductive outcome (A : Type) :=
| Ok (a : A)
| DivisionByZero
| NotFinite
| OutOfFuel.
Arguments Ok {A} a.
Arguments DivisionByZero {A}.
Arguments NotFinite {A}.
Arguments OutOfFuel {A}.

#[global] Instance outcome_ret : MRet outcome := fun A a => Ok a.
#[global] Instance outcome_bind : MBind outcome := fun A B f m =>
  match m with
  | Ok a => f a
  | DivisionByZero => DivisionByZero
  | NotFinite => NotFinite
  | OutOfFuel => OutOfFuel
  end.

(** Every division of the translation unit goes through [div]. *)
Definition div (n d : Q) : outcome Q :=
  if Dbl.eqb d 0%Q then DivisionByZero else Ok (n / d)%Q.

Record point := mk_point { px : Q; py : Q }.
Definition linear_ring : Type := list point.
Record polygon := mk_polygon {
  exterior_ring : linear_ring;
  interior_rings : list linear_ring
}.

Definition DBL_MAX : Q := inject_Z (2 ^ 1024 - 2 ^ 971).

(** Modelled from the spec: [envelope] and the constructors of [box2d]
    are declared outside the sources; the bounding box of a ring starts
    at its first point and is extended by every further point, and the
    box of an empty ring is the default constructed one. *)
Definition default_box : box2d :=
  mk_box2d DBL_MAX DBL_MAX (- DBL_MAX) (- DBL_MAX).

Definition expand_to_include (b : box2d) (p : point) : box2d :=
  mk_box2d (Dbl.min (minx b) (px p)) (Dbl.min (miny b) (py p))
           (Dbl.max (maxx b) (px p)) (Dbl.max (maxy b) (py p)).

(** [box2d::valid]. *)
Definition valid (b : box2d) : Prop :=
  (minx b <= maxx b)%Q /\ (miny b <= maxy b)%Q.

Definition envelope (ring : linear_ring) : box2d :=
  match ring with
  | [] => default_box
  | p :: rest =>
      fold_left expand_to_include rest (mk_box2d (px p) (py p) (px p) (py p))
  end.

Section Polylabel.
(** [std::sqrt], and [mapnik::geometry::centroid], which may fail. *)
Variable sqrt : Q -> Q.
Variable centroid : polygon -> option point.
Local Open Scope Q_scope.

(** Squared distance from a point to a segment. *)
Definition segment_dist_sq (p a b : point) : outcome Q :=
  let x := px a in
  let y := py a in
  let dx := px b - x in
  let dy := py b - y in
  '(x, y) ←
    (if Dbl.neqb dx 0 || Dbl.neqb dy 0 then
       t ← div ((px p - x) * dx + (py p - y) * dy) (dx * dx + dy * dy);
       if Dbl.gtb t 1 then Ok (px b, py b)
       else if Dbl.gtb t 0 then Ok (x + dx * t, y + dy * t)
       else Ok (x, y)
     else Ok (x, y));
  let dx := px p - x in
  let dy := py p - y in
  Ok (dx * dx + dy * dy).

(** [std::min(min_dist_sq, d)], [None] being infinity. *)
Definition min_dist (m : option Q) (d : Q) : option Q :=
  match m with
  | None => Some d
  | Some m => Some (Dbl.min m d)
  end.

(** One iteration of the loop of [point_to_ring_dist]. *)
Definition ring_step (p a b : point) (st : bool * option Q)
  : outcome (bool * option Q) :=
  let '(inside, min_dist_sq) := st in
  crosses ←
    (if xorb (Dbl.gtb (py a) (py p)) (Dbl.gtb (py b) (py p)) then
       q ← div ((px b - px a) * (py p - py a)) (py b - py a);
       Ok (Dbl.ltb (px p) (q + px a))
     else Ok false) : outcome bool;
  d ← segment_dist_sq p a b;
  Ok (if crosses : bool then negb inside else inside,
      min_dist min_dist_sq d).

Fixpoint ring_loop (p b : point) (ring : list point)
    (st : bool * option Q) : outcome (bool * option Q) :=
  match ring with
  | [] => Ok st
  | a :: rest => st' ← ring_step p a b st; ring_loop p a rest st'
  end.

(** The loop starts with [j] at the last vertex. *)
Definition point_to_ring_dist (p : point) (ring : linear_ring)
    (st : bool * option Q) : outcome (bool * option Q) :=
  match ring with
  | [] => Ok st
  | a :: _ => ring_loop p (List.last ring a) ring st
  end.

Fixpoint rings_loop (p : point) (rings : list linear_ring)
    (st : bool * option Q) : outcome (bool * option Q) :=
  match rings with
  | [] => Ok st
  | ring :: rest =>
      st' ← point_to_ring_dist p ring st; rings_loop p rest st'
  end.

(** Signed distance from a point to the polygon outline. *)
Definition point_to_polygon_dist (p : point) (poly : polygon)
  : outcome Q :=
  st ← point_to_ring_dist p (exterior_ring poly) (false, None);
  '(inside, min_dist_sq) ← rings_loop p (interior_rings poly) st;
  match min_dist_sq with
  | None => NotFinite
  | Some m => Ok ((if inside : bool then 1 else -1) * sqrt m)
  end.

(** [fitness_functor]. *)
Record fitness_functor := mk_fitness {
  ff_centroid : point;
  max_size : Q
}.

Definition make_fitness (c : point) (polygon_size : point)
  : fitness_functor :=
  mk_fitness c (Dbl.max (px polygon_size) (py polygon_size)).

Definition apply_fitness (ff : fitness_functor) (cell_center : point)
    (distance_polygon : Q) : outcome Q :=
  if Dbl.leb distance_polygon 0 then Ok distance_polygon
  else
    let dx := px cell_center - px (ff_centroid ff) in
    let dy := py cell_center - py (ff_centroid ff) in
    let distance_centroid := sqrt (dx * dx + dy * dy) in
    q ← div distance_centroid (max_size ff);
    Ok (distance_polygon * (1 - q)).

Record cell := mk_cell {
  c : point;
  h : Q;
  d : Q;
  fitness : Q;
  max_fitness : Q
}.

Definition make_cell (c_ : point) (h_ : Q) (poly : polygon)
    (ff : fitness_functor) : outcome cell :=
  d_ ← point_to_polygon_dist c_ poly;
  f ← apply_fitness ff c_ d_;
  mf ← apply_fitness ff c_ (d_ + h_ * sqrt 2);
  Ok (mk_cell c_ h_ d_ f mf).

(** The priority queue: [top] is a cell of greatest [max_fitness]. *)
Fixpoint pop_top (queue : list cell) : option (cell * list cell) :=
  match queue with
  | [] => None
  | a :: rest =>
      match pop_top rest with
      | None => Some (a, [])
      | Some (b, rest') =>
          if Dbl.ltb (max_fitness a) (max_fitness b)
          then Some (b, a :: rest')
          else Some (a, rest)
      end
  end.

(** The two loops that cover the bounding box with initial cells. *)
Fixpoint cover_y (fuel : nat) (x y : Q) (bbox : box2d) (cell_size h_ : Q)
    (poly : polygon) (ff : fitness_functor) (queue : list cell)
  : outcome (list cell) :=
  if Dbl.ltb y (maxy bbox) then
    match fuel with
    | O => OutOfFuel
    | S fuel' =>
        cl ← make_cell (mk_point (x + h_) (y + h_)) h_ poly ff;
        cover_y fuel' x (y + cell_size) bbox cell_size h_ poly ff
          (queue ++ [cl])
    end
  else Ok queue.

Fixpoint cover_x (fuel : nat) (x : Q) (bbox : box2d) (cell_size h_ : Q)
    (poly : polygon) (ff : fitness_functor) (queue : list cell)
  : outcome (list cell) :=
  if Dbl.ltb x (maxx bbox) then
    match fuel with
    | O => OutOfFuel
    | S fuel' =>
        queue' ←
          cover_y fuel' x (miny bbox) bbox cell_size h_ poly ff queue;
        cover_x fuel' (x + cell_size) bbox cell_size h_ poly ff queue'
    end
  else Ok queue.

(** The search loop. *)
Fixpoint search (fuel : nat) (precision : Q) (poly : polygon)
    (ff : fitness_functor) (queue : list cell) (best_cell : cell)
  : outcome point :=
  match pop_top queue with
  | None => Ok (c best_cell)
  | Some (current_cell, queue) =>
      match fuel with
      | O => OutOfFuel
      | S fuel' =>
          let best_cell :=
            if Dbl.gtb (fitness current_cell) (fitness best_cell)
            then current_cell else best_cell in
          if Dbl.leb (max_fitness current_cell - fitness best_cell)
               precision
          then search fuel' precision poly ff queue best_cell
          else
            h_ ← div (h current_cell) 2;
            let cx := px (c current_cell) in
            let cy := py (c current_cell) in
            c1 ← make_cell (mk_point (cx - h_) (cy - h_)) h_ poly ff;
            c2 ← make_cell (mk_point (cx + h_) (cy - h_)) h_ poly ff;
            c3 ← make_cell (mk_point (cx - h_) (cy + h_)) h_ poly ff;
            c4 ← make_cell (mk_point (cx + h_) (cy + h_)) h_ poly ff;
            search fuel' precision poly ff (queue ++ [c1; c2; c3; c4])
              best_cell
      end
  end.

Definition polylabel (fuel : nat) (poly : polygon) (precision : Q)
  : outcome point :=
  let bbox := envelope (exterior_ring poly) in
  let size := mk_point (width bbox) (height bbox) in
  let cell_size := Dbl.min (px size) (py size) in
  h_ ← div cell_size 2;
  if Dbl.eqb cell_size 0 then
    Ok (mk_point (minx bbox) (miny bbox))
  else
    match centroid poly with
    | None =>
        let center := center bbox in
        Ok (mk_point (fst center) (snd center))
    | Some centroid =>
        let fitness_func := make_fitness centroid size in
        queue ←
          cover_x fuel (minx bbox) bbox cell_size h_ poly fitness_func [];
        best_cell ← make_cell centroid 0 poly fitness_func;
        search fuel precision poly fitness_func queue best_cell
    end.

(** [interior]: the precision is chosen for viewport coordinates. *)
Definition interior (fuel : nat) (poly : polygon) (scale_factor : Q)
  : outcome point :=
  let precision := 10 * scale_factor in
  polylabel fuel poly precision.

End Polylabel.
End Interior.

(** ** Definitions worded after the specification *)

(** The bucket index as the specification words it: each fractional
    component of the translation is quantized into [S] buckets by
    [floor (fraction * S)], and the two are combined as
    [y_bucket * S + x_bucket]. *)
Definition spec_fraction (t : Q) : Q := (t - inject_Z (Qfloor t))%Q.
Definition spec_bucket (S : Z) (t : Q) : Z :=
  Qfloor (spec_fraction t * inject_Z S).
Definition spec_bucket_index (S : Z) (tx ty : Q) : Z :=
  (spec_bucket S ty * S + spec_bucket S tx)%Z.

(** A placement with unit scale and no shear. *)
Definition placement_at (x y : Q) : trans_affine :=
  {| sx := 1; shy := 0; shx := 0; sy := 1; tx := x; ty := y |}.

(** The blit translation as the specification words it: the original
    translation minus the quantization remainder, which is the difference
    between the actual fractional offset and the representative of its
    bucket. *)
Definition spec_bucket_representative (S : Z) (t : Q) : Q :=
  (inject_Z (spec_bucket S t) / inject_Z S)%Q.
Definition spec_quantization_remainder (S : Z) (t : Q) : Q :=
  (spec_fraction t - spec_bucket_representative S t)%Q.
Definition spec_blit_translation (S : Z) (t : Q) : Q :=
  (t - spec_quantization_remainder S t)%Q.

(** A square marker of side 10 with its corner at the origin, filled and
    without stroke. *)
Definition plain_fill : path_attributes :=
  {| fill_flag := true; fill_color := 255;
     fill_gradient := mk_gradient NO_GRADIENT 0;
     stroke_flag := false; stroke_color := 0; stroke_width := 1%Q;
     stroke_gradient := mk_gradient NO_GRADIENT 0 |}.

Definition square_marker : svg_path_ptr :=
  {| address := 1;
     source := [(0%Q, 0%Q, 1%Z); (10%Q, 0%Q, 2%Z); (10%Q, 10%Q, 2%Z);
                (0%Q, 10%Q, 2%Z)];
     attributes := [plain_fill];
     bounding_box := mk_box2d 0 0 10 10 |}%Q.

(** The placement at (10.3, 10.7): each literal denotes the nearest
    double. *)
Definition sample_placement : trans_affine :=
  placement_at (Dbl.round (103 # 10)) (Dbl.round (107 # 10)).

(** The placement at (5.3, 2.7): other integral parts, the same
    fractions. *)
Definition shifted_placement : trans_affine :=
  placement_at (Dbl.round (53 # 10)) (Dbl.round (27 # 10)).

(** The placement at (10.35, 10.72). *)
Definition second_placement : trans_affine :=
  placement_at (Dbl.round (1035 # 100)) (Dbl.round (1072 # 100)).

(** The double [- 2^-62]. *)
Definition tiny_negative : Q := (- (1 # 4611686018427387904))%Q.

(** A small instance of the collaborators, on which the model runs: the
    rasterizer adds the active colours of the first attribute record to
    every pixel of its target, a blit adds the sum of the source pixels,
    the registry knows the ellipse only, no style is pushed, and a feature
    has a single placement at the dispatch transform. *)
Definition flat_colour (attrs : svg_attribute_type) : Z :=
  match attrs with
  | a :: _ =>
      ((if fill_flag a then fill_color a else 0)
       + (if stroke_flag a then stroke_color a else 0))%Z
  | [] => 0%Z
  end.

Definition literal_double (v : prop_value) : Q :=
  match v with
  | value_double d => this d
  | value_integer z => inject_Z z
  | _ => 0%Q
  end.

Definition literal_string (v : prop_value) : string :=
  match v with
  | value_string s => s
  | _ => EmptyString
  end.

Definition flat_collaborators : Collaborators := {|
  feature_impl := unit;
  variables := unit;
  detector := unit;
  render_vector_marker := fun _ attrs _ renb _ _ _ _ =>
    {| image_width := image_width (rb_buffer renb);
       image_height := image_height (rb_buffer renb);
       pixels := map (Z.add (flat_colour attrs)) (pixels (rb_buffer renb)) |};
  render_raster_marker := fun renb _ src _ _ _ _ =>
    {| image_width := image_width (rb_buffer renb);
       image_height := image_height (rb_buffer renb);
       pixels := map (Z.add (fold_right Z.add 0%Z (pixels src)))
                   (pixels (rb_buffer renb)) |};
  marker_cache_find := fun name _ =>
    if String.eqb name ellipse_uri then marker_svg square_marker
    else marker_null;
  is_uri := fun _ => false;
  push_explicit_style := fun _ _ _ _ => None;
  extract_string := fun _ _ v => literal_string v;
  extract_double := fun _ _ v => literal_double v;
  get_double := fun k sym _ _ =>
    match properties sym !! k with
    | Some v => literal_double v
    | None => match k with k_opacity => 1%Q | _ => 0%Q end
    end;
  get_bool := fun _ _ _ _ => false;
  get_enum := fun _ _ _ _ => 0%Z;
  setup_transform_scaling := fun tr _ _ _ _ _ => tr;
  evaluate_transform := fun tr _ _ _ _ => tr;
  build_ellipse := fun _ _ _ =>
    (source square_marker, attributes square_marker,
     bounding_box square_marker);
  geometry_type := fun _ => Point;
  vector_dispatch_tr := fun _ tr => tr;
  apply_markers_multi := fun _ _ _ _ _ params det => ([p_tr params], det)
|}.

(** A world with empty caches and a 4 by 4 destination. *)
Definition empty_world : @world flat_collaborators :=
  @mk_world flat_collaborators StdMap.empty StdMap.empty StdMap.empty
    (new_image 4 4) 0%Z (0, 0, 4, 4)%Z tt 100%Z.

Definition plain_params : markers_dispatch_params :=
  {| p_size := bounding_box square_marker;
     p_tr := sample_placement;
     p_spacing := 100; p_max_error := Dbl.round (1 # 5);
     p_allow_overlap := false; p_avoid_edges := false; p_direction := 0;
     placement_method := 0; ignore_placement := false;
     snap_to_pixels := true; scale_factor := 1; opacity := 1 |}.

(** A marker whose fill and stroke are both fully transparent. *)
Definition transparent_attr : path_attributes :=
  {| fill_flag := true; fill_color := 0;
     fill_gradient := mk_gradient NO_GRADIENT 0;
     stroke_flag := true; stroke_color := 0; stroke_width := 1;
     stroke_gradient := mk_gradient NO_GRADIENT 0 |}.

(** *** The invariant of the caches *)

(** A boolean test of the representation invariant: adjacent keys are in
    strictly increasing order. *)
Fixpoint sortedb {K V : Type} `{Less K} (m : StdMap.t K V) : bool :=
  match m with
  | [] => true
  | (k, _) :: r =>
      match r with
      | [] => true
      | (k', _) :: _ => less k k' && sortedb r
      end
  end.

(** What the insertions keep of a cache with capacity [cap]: it is sorted,
    and holds at most [cap + 1] entries. *)
Definition cache_wf {K V : Type} `{Less K} (cap : nat) (m : StdMap.t K V)
  : Prop :=
  StdMap.sorted m /\ (StdMap.size m <= S cap)%nat.

Definition caches_wf `{Collaborators} (w : world) : Prop :=
  cache_wf cache_size (cached_images_ w)
  /\ cache_wf attributes_cache_size (cached_attributes_ w)
  /\ cache_wf ellipses_cache_size (cached_ellipses_ w).

(** Caches filled with [n] entries under the keys [1 .. n]. *)
Definition numbered_marker (i : nat) : svg_path_ptr :=
  {| address := Z.of_nat i; source := []; attributes := [plain_fill];
     bounding_box := mk_box2d 0 0 10 10 |}.

Definition images_upto (n : nat) : StdMap.t image_key image_pair :=
  map (fun i => ((numbered_marker i, 0%Z, plain_fill), (None, None)))
    (seq 1 n).

Definition attributes_upto (n : nat)
  : StdMap.t Z (svg_attribute_type * cont_type) :=
  map (fun i => (Z.of_nat i, ([plain_fill], ∅))) (seq 1 n).

Definition ellipses_upto (n : nat) : StdMap.t ellipse_key svg_path_ptr :=
  map (fun i =>
         ((Finite (inject_Z (Z.of_nat i)), NegInfinity, NegInfinity),
          numbered_marker i))
    (seq 1 n).

Definition world_with (images attrs ellipses : nat)
  : @world flat_collaborators :=
  @mk_world flat_collaborators (images_upto images) (attributes_upto attrs)
    (ellipses_upto ellipses) (new_image 4 4) 0%Z (0, 0, 4, 4)%Z tt 10000%Z.

(** A symbolizer without properties, at an address above the numbered
    ones, and one that asks for an ellipse of width 1000. *)
Definition bare_symbolizer : markers_symbolizer :=
  {| sym_address := 1000; properties := ∅ |}.

Definition wide_symbolizer : markers_symbolizer :=
  {| sym_address := 1000;
     properties := {[ k_width := value_integer 1000 ]} |}.

Definition unit_common : @renderer_common flat_collaborators :=
  @mk_common flat_collaborators 1%Q tt.

(** A polygon squeezed onto a vertical segment, and a square. *)
Definition segment_polygon : Interior.polygon :=
  Interior.mk_polygon
    [Interior.mk_point 0 0; Interior.mk_point 0 5; Interior.mk_point 0 0] [].

Definition square_polygon : Interior.polygon :=
  Interior.mk_polygon
    [Interior.mk_point 0 0; Interior.mk_point 8 0; Interior.mk_point 8 8;
     Interior.mk_point 0 8; Interior.mk_point 0 0] [].

(** The integral part of the square root, which is exact on the squares
    that the example below meets. *)
Definition integer_sqrt (q : Q) : Q := inject_Z (Z.sqrt (Qfloor q)).

(** The calls that only a miss makes: a store into a cache or a
    rasterization. *)
Definition is_miss_call (c : call) : bool :=
  match c with
  | CachedAttributesAssign _ | CachedEllipsesEmplace _
  | CachedImagesEmplace _ | RenderVectorMarker _ _ _ => true
  | _ => false
  end.

(** ** Further definitions for the renders *)

(** The calls that [render_marker] makes: on the image cache and on the
    rasterizer. *)
Definition is_render_call (c : call) : bool :=
  match c with
  | CachedImagesFind _ | CachedImagesEmplace _
  | RenderVectorMarker _ _ _ | RenderRasterMarker _ _ => true
  | _ => false
  end.

(** A coordinate on the grid of eighths of a pixel, at most [2^20] from
    the origin: the sums and differences that the canvas takes of such
    coordinates are exact in doubles and fit an [int]. *)
Definition on_grid (q : Q) : Prop :=
  (inject_Z (Qfloor (q * 8)) == q * 8)%Q
  /\ (Qabs q <= inject_Z (2 ^ 20))%Q.

(** The stages of the vertex converter in the order in which they are
    switched on. *)
Definition converter_order : list converter_tag :=
  [clip_poly_tag; clip_line_tag; transform_tag; offset_transform_tag;
   affine_transform_tag; simplify_tag; smooth_tag].

Section RenderAll.
Context `{Collaborators}.

(** A sequence of renders, each for a symbolizer and a feature. *)
Definition render_all
  (requests : list (markers_symbolizer * feature_impl * renderer_common))
  (w : world) : world :=
fold_left
  (fun w0 r =>
     fst (render_markers_symbolizer (fst (fst r)) (snd (fst r)) (snd r) w0))
  requests w.

End RenderAll.

(** The squared distance between two points. *)
Definition dist_sq (p q : Interior.point) : Q :=
  ((Interior.px p - Interior.px q) * (Interior.px p - Interior.px q)
   + (Interior.py p - Interior.py q) * (Interior.py p - Interior.py q))%Q.

(** ** The PostGIS connection ([plugins/input/postgis/connection.hpp]) *)

Module Postgis.

Inductive ConnStatusType :=
| CONNECTION_OK | CONNECTION_BAD | CONNECTION_STARTED | CONNECTION_MADE.

Inductive ExecStatusType :=
| PGRES_EMPTY_QUERY | PGRES_COMMAND_OK | PGRES_TUPLES_OK | PGRES_COPY_OUT
| PGRES_COPY_IN | PGRES_BAD_RESPONSE | PGRES_NONFATAL_ERROR
| PGRES_FATAL_ERROR.

Definition conn_status_eqb (a b : ConnStatusType) : bool :=
match a, b with
| CONNECTION_OK, CONNECTION_OK | CONNECTION_BAD, CONNECTION_BAD
| CONNECTION_STARTED, CONNECTION_STARTED
| CONNECTION_MADE, CONNECTION_MADE => true
| _, _ => false
end.

Definition exec_status_eqb (a b : ExecStatusType) : bool :=
match a, b with
| PGRES_EMPTY_QUERY, PGRES_EMPTY_QUERY | PGRES_COMMAND_OK, PGRES_COMMAND_OK
| PGRES_TUPLES_OK, PGRES_TUPLES_OK | PGRES_COPY_OUT, PGRES_COPY_OUT
| PGRES_COPY_IN, PGRES_COPY_IN | PGRES_BAD_RESPONSE, PGRES_BAD_RESPONSE
| PGRES_NONFATAL_ERROR, PGRES_NONFATAL_ERROR
| PGRES_FATAL_ERROR, PGRES_FATAL_ERROR => true
| _, _ => false
end.

(** The client library: [PGconn] is what a connection pointer points to,
  [PGresult] what a result pointer points to; a null pointer is [None].
  A function that works on the connection gives its new state back. *)
Class Libpq := {
PGconn : Type;
PGresult : Type;
PQconnectdb : string -> option PGconn;
PQstatus : PGconn -> ConnStatusType;
PQerrorMessage : PGconn -> string;
PQexec : PGconn -> string -> option PGresult * PGconn;
PQexecParams : PGconn -> string -> option PGresult * PGconn;
PQsendQuery : PGconn -> string -> Z * PGconn;
PQsendQueryParams : PGconn -> string -> Z * PGconn;
PQgetResult : PGconn -> option PGresult * PGconn;
PQresultStatus : PGresult -> ExecStatusType
}.

(** The calls made on the library, in program order. *)
Inductive pq_call :=
| C_PQconnectdb (conninfo : string)
| C_PQfinish
| C_PQexec (sql : string)
| C_PQexecParams (sql : string)
| C_PQsendQuery (sql : string)
| C_PQsendQueryParams (sql : string)
| C_PQgetResult
| C_PQclear.

(** What a member function does: it returns, or throws a
  [datasource_exception], or its loop outlives the fuel. *)
Inductive outcome (A : Type) :=
| Return (a : A)
| Throw (what : string)
| OutOfFuel.
Arguments Return {A} a.
Arguments Throw {A} what.
Arguments OutOfFuel {A}.

Definition newline : string := String (Ascii.ascii_of_nat 10) EmptyString.

Section Connection.
Context `{Libpq}.

(** The library on a pointer that may be null: a null connection is bad,
gives no result and accepts no query. *)
Definition status_of (conn : option PGconn) : ConnStatusType :=
match conn with Some c => PQstatus c | None => CONNECTION_BAD end.

Definition exec_on (conn : option PGconn) (sql : string) (params : bool)
: option PGresult * option PGconn :=
match conn with
| Some c =>
  let '(r, c') := if params then PQexecParams c sql else PQexec c sql in
  (r, Some c')
| None => (None, None)
end.

Definition send_on (conn : option PGconn) (sql : string) (params : bool)
: Z * option PGconn :=
match conn with
| Some c =>
  let '(r, c') :=
    if params then PQsendQueryParams c sql else PQsendQuery c sql in
  (r, Some c')
| None => (0%Z, None)
end.

Definition get_result_on (conn : option PGconn)
: option PGresult * option PGconn :=
match conn with
| Some c => let '(r, c') := PQgetResult c in (r, Some c')
| None => (None, None)
end.

Definition exec_call (sql : string) (params : bool) : pq_call :=
if params then C_PQexecParams sql else C_PQexec sql.
Definition send_call (sql : string) (params : bool) : pq_call :=
if params then C_PQsendQueryParams sql else C_PQsendQuery sql.

(** [ResultSet]: the result pointer it wraps. *)
Definition ResultSet : Type := option PGresult.

Record Connection := mk_connection {
conn_ : option PGconn;
cursorId : Z;
closed_ : bool
}.

Definition set_conn (c : Connection) (conn : option PGconn) : Connection :=
mk_connection conn (cursorId c) (closed_ c).

(** [status()]. *)
Definition status (conn : option PGconn) : string :=
match conn with
| Some c => PQerrorMessage c
| None => "Uninitialized connection"
end.

(** The constructor. *)
Definition connect_with_pass (connection_str : string)
(password : option string) : string :=
match password with
| Some p =>
  if negb (is_empty p) then connection_str +:+ " password=" +:+ p
  else connection_str
| None => connection_str
end.

Definition connect_error (conn : option PGconn) (connection_str : string)
: string :=
"Postgis Plugin: " +:+ status conn +:+ newline +:+ "Connection string: '"
+:+ connection_str +:+ "'" +:+ newline.

Definition connect (connection_str : string) (password : option string)
: outcome Connection * list pq_call :=
let conninfo := connect_with_pass connection_str password in
let conn := PQconnectdb conninfo in
(if negb (conn_status_eqb (status_of conn) CONNECTION_OK)
then Throw (connect_error conn connection_str)
else Return (mk_connection conn 0 false),
[C_PQconnectdb conninfo]).

(** [close()], which the destructor repeats. *)
Definition close (c : Connection) : Connection * list pq_call :=
if negb (closed_ c)
then (mk_connection (conn_ c) (cursorId c) true, [C_PQfinish])
else (c, []).

(** [isOK()]. *)
Definition isOK (c : Connection) : bool :=
negb (closed_ c)
&& negb (conn_status_eqb (status_of (conn_ c)) CONNECTION_BAD).

(** [execute(sql)]. *)
Definition execute (c : Connection) (sql : string)
: bool * Connection * list pq_call :=
let '(result, conn) := exec_on (conn_ c) sql false in
let ok :=
match result with
| Some r => exec_status_eqb (PQresultStatus r) PGRES_COMMAND_OK
| None => false
end in
(ok, set_conn c conn, [C_PQexec sql; C_PQclear]).

Definition query_error (conn : option PGconn) (where_ sql : string) : string :=
"Postgis Plugin: " +:+ status conn +:+ newline +:+ "in " +:+ where_
+:+ " Full sql was: '" +:+ sql +:+ "'" +:+ newline.

Definition result_is (result : option PGresult) (st : ExecStatusType) : bool :=
match result with
| Some r => exec_status_eqb (PQresultStatus r) st
| None => false
end.

(** [executeQuery(sql, type)]. *)
Definition executeQuery (c : Connection) (sql : string) (type : Z)
: outcome ResultSet * Connection * list pq_call :=
let params := (type =? 1)%Z in
let '(result, conn) := exec_on (conn_ c) sql params in
let c := set_conn c conn in
if negb (result_is result PGRES_TUPLES_OK) then
(Throw (query_error conn "executeQuery" sql), c,
 [exec_call sql params]
 ++ match result with Some _ => [C_PQclear] | None => [] end)
else (Return result, c, [exec_call sql params]).

(** [clearAsyncResult(result)]: clears all pending results. *)
Fixpoint clearAsyncResult (fuel : nat) (result : option PGresult)
(conn : option PGconn) : option (option PGconn * list pq_call) :=
match result with
| None => Some (conn, [])
| Some _ =>
  match fuel with
  | O => None
  | S fuel' =>
      let '(next, conn') := get_result_on conn in
      match clearAsyncResult fuel' next conn' with
      | Some (conn'', calls) =>
          Some (conn'', C_PQclear :: C_PQgetResult :: calls)
      | None => None
      end
  end
end.

(** The common end of the asynchronous failures: clear what is pending,
close, throw. *)
Definition fail_async {A : Type} (fuel : nat) (what : string)
(result : option PGresult) (c : Connection) (before : list pq_call)
: outcome A * Connection * list pq_call :=
match clearAsyncResult fuel result (conn_ c) with
| Some (conn, calls) =>
  let '(c', closing) := close (set_conn c conn) in
  (Throw what, c', before ++ calls ++ closing)
| None => (OutOfFuel, c, before)
end.

(** [executeAsyncQuery(sql, type)]. *)
Definition executeAsyncQuery (fuel : nat) (c : Connection) (sql : string)
(type : Z) : outcome bool * Connection * list pq_call :=
let params := (type =? 1)%Z in
let '(result, conn) := send_on (conn_ c) sql params in
let c := set_conn c conn in
if negb (result =? 1)%Z then
let err_msg := query_error conn "executeAsyncQuery" sql in
let '(pending, conn') := get_result_on conn in
fail_async fuel err_msg pending (set_conn c conn')
  [send_call sql params; C_PQgetResult]
else (Return (negb (result =? 0)%Z), c, [send_call sql params]).

(** [getNextAsyncResult()]. *)
Definition getNextAsyncResult (fuel : nat) (c : Connection)
: outcome ResultSet * Connection * list pq_call :=
let '(result, conn) := get_result_on (conn_ c) in
let c := set_conn c conn in
if match result with
 | Some r => negb (exec_status_eqb (PQresultStatus r) PGRES_TUPLES_OK)
 | None => false
 end
then
fail_async fuel
  ("Postgis Plugin: " +:+ status conn +:+ newline
   +:+ "in getNextAsyncResult")
  result c [C_PQgetResult]
else (Return result, c, [C_PQgetResult]).

(** [getAsyncResult()]. *)
Definition getAsyncResult (fuel : nat) (c : Connection)
: outcome ResultSet * Connection * list pq_call :=
let '(result, conn) := get_result_on (conn_ c) in
let c := set_conn c conn in
if negb (result_is result PGRES_TUPLES_OK)
then
fail_async fuel
  ("Postgis Plugin: " +:+ status conn +:+ newline
   +:+ "in getAsyncResult")
  result c [C_PQgetResult]
else (Return result, c, [C_PQgetResult]).

(** [cursorId++] on an [int]. Past the largest value the model wraps
around, where the language leaves the result open. *)
Definition int_wrap (z : Z) : Z :=
((z + 2 ^ 31) mod 2 ^ 32 - 2 ^ 31)%Z.

(** [new_cursor_name()]. *)
Definition new_cursor_name (c : Connection) : string * Connection :=
("mapnik_" +:+ pretty (cursorId c),
mk_connection (conn_ c) (int_wrap (cursorId c + 1)) (closed_ c)).

(** The names of [n] cursors opened one after the other. *)
Fixpoint cursor_names (n : nat) (c : Connection) : list string :=
match n with
| O => []
| S n' =>
  let '(name, c') := new_cursor_name c in
  name :: cursor_names n' c'
end.

End Connection.
End Postgis.

(** ** The report of the visual tests ([test/visual/report.cpp]) *)

Module VisualReport.

Inductive result_state :=
| STATE_OK | STATE_FAIL | STATE_ERROR | STATE_OVERWRITE.

Definition newline : string := String (Ascii.ascii_of_nat 10) EmptyString.
(** The double quote. *)
Definition dq : string := String (Ascii.ascii_of_nat 34) EmptyString.

(** [unsigned]: arithmetic modulo 2^32. *)
Definition unsigned_wrap (z : Z) : Z := (z mod 2 ^ 32)%Z.

(** The file-system library: [slash] is [operator/], [insert_path] what
  [operator<<] writes for a path; an operation that throws gives [None]. *)
Class Filesystem := {
path : Type;
filename : path -> path;
slash : path -> path -> path;
insert_path : path -> string;
fs : Type;
exists_ : fs -> path -> option bool;
remove : fs -> path -> option fs;
copy_file : fs -> path -> path -> option fs
}.

(** The lines of a text, each ended by a newline. *)
Definition unlines (ls : list string) : string :=
fold_right (fun l rest => l +:+ newline +:+ rest) EmptyString ls.

Definition html_header : string :=
unlines
  ["<!DOCTYPE html>";
   "<html>";
   "<head>";
   "  <style>";
   "    body { margin:10; padding:10; }";
   "    .expected {";
   "       float:left;";
   "       border-width:1px;";
   "       border-style:solid;";
   "       width:45%;";
   "    }    ";
   "    .actual {";
   "       float:right;";
   "       border-width:1px;";
   "       border-style:solid;";
   "       width:45%;";
   "    }";
   "    .text {";
   "       float:left;";
   "    }";
   "  </style>";
   "</head>";
   "<body>";
   "<script>";
   "</script>";
   "<div id='results'>";
   "     <div class=" +:+ dq +:+ "expected" +:+ dq +:+ ">expected</div>";
   "     <div class=" +:+ dq +:+ "text" +:+ dq +:+ ">% difference</div>";
   "     <div class=" +:+ dq +:+ "actual" +:+ dq +:+ ">actual</div>"].

Definition html_footer : string :=
"</div>
</body>
</html>".

Section Report.
Context `{Filesystem}.

(** The fields of [result] that the summaries read. *)
Record result := mk_result {
name : string;
state : result_state;
diff : Z;
error_message : string;
reference_image_path : path;
actual_image_path : path
}.

(** [console_report::summary]: the four counters of its loop. *)
Record counters := mk_counters {
ok : Z;
error : Z;
fail : Z;
overwrite : Z
}.

Definition count (c : counters) (r : result) : counters :=
match state r with
| STATE_OK =>
  mk_counters (unsigned_wrap (ok c + 1)) (error c) (fail c) (overwrite c)
| STATE_FAIL =>
  mk_counters (ok c) (error c) (unsigned_wrap (fail c + 1)) (overwrite c)
| STATE_ERROR =>
  mk_counters (ok c) (unsigned_wrap (error c + 1)) (fail c) (overwrite c)
| STATE_OVERWRITE =>
  mk_counters (ok c) (error c) (fail c) (unsigned_wrap (overwrite c + 1))
end.

(** It gives the stream after the summary line and the value returned. *)
Definition console_report_summary (s : string) (results : list result)
: string * Z :=
let c := fold_left count results (mk_counters 0 0 0 0) in
(s +:+ newline
+:+ "Visual rendering: " +:+ pretty (fail c) +:+ " failed / "
+:+ pretty (ok c) +:+ " passed / " +:+ pretty (overwrite c)
+:+ " overwritten / " +:+ pretty (error c) +:+ " errors" +:+ newline,
unsigned_wrap (fail c + error c)).

(** What [html_report::report] writes for a result that could not be
rendered, and for one that differs from its reference. *)
Definition error_div (r : result) : string :=
"<div class=" +:+ dq +:+ "text" +:+ dq +:+ ">Failed to render: "
+:+ name r +:+ "<br><em>" +:+ error_message r +:+ "</em></div>"
+:+ newline.

Definition fail_divs (r : result) (reference actual : path) : string :=
"<div class=" +:+ dq +:+ "expected" +:+ dq +:+ ">" +:+ newline
+:+ "  <a href=" +:+ insert_path (filename reference) +:+ ">" +:+ newline
+:+ "    <img src=" +:+ insert_path (filename reference)
+:+ " width=" +:+ dq +:+ "100%" +:+ dq +:+ ">" +:+ newline
+:+ "  </a>" +:+ newline
+:+ "</div>" +:+ newline
+:+ "<div class=" +:+ dq +:+ "text" +:+ dq +:+ ">" +:+ pretty (diff r)
+:+ "</div>" +:+ newline
+:+ "<div class=" +:+ dq +:+ "actual" +:+ dq +:+ ">" +:+ newline
+:+ "  <a href=" +:+ insert_path (filename actual) +:+ ">" +:+ newline
+:+ "    <img src=" +:+ insert_path (filename actual)
+:+ " width=" +:+ dq +:+ "100%" +:+ dq +:+ ">" +:+ newline
+:+ "  </a>" +:+ newline
+:+ "</div>" +:+ newline.

Definition remove_if_exists (p : path) (f : fs) : option fs :=
e ← exists_ f p;
if e : bool then remove f p else Some f.

(** [html_report::report(r, output_dir)] on the file system and the
stream. *)
Definition html_report_report (r : result) (output_dir : path)
(st : fs * string) : option (fs * string) :=
let '(f, s) := st in
match state r with
| STATE_ERROR => Some (f, s +:+ error_div r)
| STATE_FAIL =>
  let reference := slash output_dir (filename (reference_image_path r)) in
  let actual := slash output_dir (filename (actual_image_path r)) in
  f ← remove_if_exists reference f;
  f ← remove_if_exists actual f;
  f ← copy_file f (reference_image_path r) reference;
  f ← copy_file f (actual_image_path r) actual;
  Some (f, s +:+ fail_divs r reference actual)
| _ => Some st
end.

Fixpoint html_report_loop (results : list result) (output_dir : path)
(st : fs * string) : option (fs * string) :=
match results with
| [] => Some st
| r :: rest =>
  st ← (match state r with
        | STATE_OK => Some st
        | _ => html_report_report r output_dir st
        end);
  html_report_loop rest output_dir st
end.

(** [html_report::summary(results, output_dir)]. *)
Definition html_report_summary (results : list result) (output_dir : path)
(st : fs * string) : option (fs * string) :=
st ← html_report_loop results output_dir (fst st, snd st +:+ html_header);
Some (fst st, snd st +:+ html_footer).

(** The results that failed or could not be rendered. *)
Definition failed (r : result) : bool :=
match state r with
| STATE_FAIL | STATE_ERROR => true
| _ => false
end.

Definition is_error (r : result) : bool :=
match state r with STATE_ERROR => true | _ => false end.

Definition concat_strings (l : list string) : string :=
fold_right String.append EmptyString l.

Definition has_state (st : result_state) (r : result) : bool :=
match state r, st with
| STATE_OK, STATE_OK | STATE_FAIL, STATE_FAIL
| STATE_ERROR, STATE_ERROR | STATE_OVERWRITE, STATE_OVERWRITE => true
| _, _ => false
end.

(** How many of the results satisfy [p]. *)
Definition count_of (p : result -> bool) (results : list result) : Z :=
Z.of_nat (length (List.filter p results)).

End Report.
End VisualReport.

(** ** Small instances on which the further properties run *)

(** A symbolizer that names a file which the registry does not know. *)
Definition file_symbolizer : markers_symbolizer :=
  {| sym_address := 1001;
     properties := {[ k_file := value_string "missing.svg" ]} |}.

(** The collaborators again, with a registry that knows raster markers
    only: every name is an image of 2 by 2 pixels. *)
Definition dot_image : image_rgba8 :=
  {| image_width := 2; image_height := 2; pixels := [1; 2; 3; 4]%Z |}.

Definition raster_collaborators : Collaborators := {|
  feature_impl := unit;
  variables := unit;
  detector := unit;
  render_vector_marker := @render_vector_marker flat_collaborators;
  render_raster_marker := @render_raster_marker flat_collaborators;
  marker_cache_find := fun _ _ => marker_rgba8 dot_image (mk_box2d 0 0 2 2);
  is_uri := fun _ => false;
  push_explicit_style := fun _ _ _ _ => None;
  extract_string := fun _ _ v => literal_string v;
  extract_double := fun _ _ v => literal_double v;
  get_double := @get_double flat_collaborators;
  get_bool := fun _ _ _ _ => false;
  get_enum := fun _ _ _ _ => 0%Z;
  setup_transform_scaling := fun tr _ _ _ _ _ => tr;
  evaluate_transform := fun tr _ _ _ _ => tr;
  build_ellipse := @build_ellipse flat_collaborators;
  geometry_type := fun _ => Point;
  vector_dispatch_tr := fun _ tr => tr;
  apply_markers_multi := fun _ _ _ _ _ params det =>
    ([p_tr params; translate (p_tr params) 1 0], det)
|}.

Definition raster_world : @world raster_collaborators :=
  @mk_world raster_collaborators StdMap.empty StdMap.empty StdMap.empty
    (new_image 4 4) 0%Z (0, 0, 4, 4)%Z tt 100%Z.

Definition raster_common : @renderer_common raster_collaborators :=
  @mk_common raster_collaborators 1%Q tt.

(** A client library that is scripted: a connection is the list of the
    results that are pending on it; a statement sent without parameters
    queues a result with tuples and one that failed, a command executed
    is accepted, and only the empty connection string is refused. *)
Definition scripted_libpq : Postgis.Libpq := {|
  Postgis.PGconn := list Postgis.ExecStatusType;
  Postgis.PGresult := Postgis.ExecStatusType;
  Postgis.PQconnectdb := fun conninfo =>
    if is_empty conninfo then None else Some [];
  Postgis.PQstatus := fun _ => Postgis.CONNECTION_OK;
  Postgis.PQerrorMessage := fun _ => "scripted";
  Postgis.PQexec := fun c _ => (Some Postgis.PGRES_COMMAND_OK, c);
  Postgis.PQexecParams := fun c _ => (Some Postgis.PGRES_TUPLES_OK, c);
  Postgis.PQsendQuery := fun c _ =>
    (1%Z, c ++ [Postgis.PGRES_TUPLES_OK; Postgis.PGRES_FATAL_ERROR]);
  Postgis.PQsendQueryParams := fun c _ => (0%Z, c);
  Postgis.PQgetResult := fun c =>
    match c with
    | [] => (None, [])
    | r :: rest => (Some r, rest)
    end;
  Postgis.PQresultStatus := fun r => r
|}.

Definition scripted_connection (pending : list Postgis.ExecStatusType)
  : @Postgis.Connection scripted_libpq :=
  @Postgis.mk_connection scripted_libpq (Some pending) 0 false.

(** A file system that is the list of the names of its files. *)
Definition flat_filesystem : VisualReport.Filesystem := {|
  VisualReport.path := string;
  VisualReport.filename := fun p => p;
  VisualReport.slash := fun d p => d +:+ "/" +:+ p;
  VisualReport.insert_path := fun p =>
    VisualReport.dq +:+ p +:+ VisualReport.dq;
  VisualReport.fs := list string;
  VisualReport.exists_ := fun f p => Some (existsb (String.eqb p) f);
  VisualReport.remove := fun f p =>
    Some (List.filter (fun q => negb (String.eqb p q)) f);
  VisualReport.copy_file := fun f from to =>
    if existsb (String.eqb from) f && negb (existsb (String.eqb to) f)
    then Some (to :: f) else None
|}.

Definition sample_result (name : string) (state : VisualReport.result_state)
  : @VisualReport.result flat_filesystem :=
  @VisualReport.mk_result flat_filesystem name state 7 "no such style"
    "reference.png" "actual.png".

Definition sample_results : list (@VisualReport.result flat_filesystem) :=
  [sample_result "lines" VisualReport.STATE_OK;
   sample_result "text" VisualReport.STATE_ERROR;
   sample_result "marker" VisualReport.STATE_OVERWRITE].

(** * Properties *)

(** ** Facts on rounding *)

Module RoundFacts.
Import Dbl.
Local Open Scope Q_scope.

Lemma pow2_pos (e : Z) : 0 < pow2 e.
Proof. unfold pow2. apply Qpower_0_lt. reflexivity. Qed.

Lemma pow2_add (a b : Z) : pow2 (a + b) == pow2 a * pow2 b.
Proof. unfold pow2. apply Qpower_plus. intros H; discriminate H. Qed.

Lemma pow2_sub (a b : Z) : pow2 (a - b) == pow2 a / pow2 b.
Proof. unfold pow2. apply Qpower_minus. intros H; discriminate H. Qed.

Lemma pow2_le (a b : Z) : (a <= b)%Z -> pow2 a <= pow2 b.
Proof. intros H. unfold pow2. apply Qpower_le_compat_l; [exact H|]. discriminate. Qed.

Lemma pow2_lt (a b : Z) : (a < b)%Z -> pow2 a < pow2 b.
Proof. intros H. unfold pow2. apply Qpower_lt_compat_l; [exact H|]. reflexivity. Qed.

Lemma pow2_lt_inv (a b : Z) : pow2 a < pow2 b -> (a < b)%Z.
Proof. intros H. apply (Qpower_lt_compat_l_inv 2); [exact H|reflexivity]. Qed.

Lemma pow2_le_inv (a b : Z) : pow2 a <= pow2 b -> (a <= b)%Z.
Proof. intros H. apply (Qpower_le_compat_l_inv 2); [exact H|reflexivity]. Qed.

Lemma pow2_Z (a : Z) : (0 <= a)%Z -> pow2 a == inject_Z (2 ^ a).
Proof. intros H. unfold pow2. rewrite Zpower_Qpower by exact H. reflexivity. Qed.

Lemma pow2_succ (a : Z) : pow2 (a + 1) == 2 * pow2 a.
Proof. rewrite pow2_add. change (pow2 1) with 2. ring. Qed.

Lemma ilog2_spec (x : Q) :
  0 < x -> pow2 (ilog2 x) <= x /\ x < pow2 (ilog2 x + 1).
Proof.
intros Hx. destruct x as [n d].
assert (Hn : (0 < n)%Z).
{ unfold Qlt in Hx. simpl in Hx. lia. }
unfold ilog2. cbn [Qnum Qden].
set (a := Z.log2 n). set (b := Z.log2 (Zpos d)).
assert (Ha : (2 ^ a <= n < 2 ^ (a + 1))%Z).
{ pose proof (Z.log2_spec n Hn) as Hs. fold a in Hs.
  replace (a + 1)%Z with (Z.succ a) by lia. exact Hs. }
assert (Hb : (2 ^ b <= Zpos d < 2 ^ (b + 1))%Z).
{ pose proof (Z.log2_spec (Zpos d) eq_refl) as Hs. fold b in Hs.
  replace (b + 1)%Z with (Z.succ b) by lia. exact Hs. }
assert (Ha0 : (0 <= a)%Z) by apply Z.log2_nonneg.
assert (Hb0 : (0 <= b)%Z) by apply Z.log2_nonneg.
set (x := n # d).
set (N := inject_Z n). set (D := inject_Z (Zpos d)).
assert (HxD : x * D == N).
{ subst x N D. unfold Qeq, Qmult, inject_Z. simpl. lia. }
assert (HD : 0 < D).
{ subst D. unfold Qlt, inject_Z. simpl. lia. }
assert (HNa : pow2 a <= N /\ N < pow2 (a + 1)).
{ rewrite !pow2_Z by lia. subst N. rewrite <- Zle_Qle, <- Zlt_Qlt. exact Ha. }
assert (HDb : pow2 b <= D /\ D < pow2 (b + 1)).
{ rewrite !pow2_Z by lia. subst D. rewrite <- Zle_Qle, <- Zlt_Qlt. exact Hb. }
pose proof (pow2_pos a). pose proof (pow2_pos b).
pose proof (pow2_pos (a - b)) as Hp0.
pose proof (pow2_pos (a - b - 1)) as Hp1.
pose proof (pow2_pos (a - b + 1)) as Hp2.
assert (E0 : pow2 (a - b) * pow2 b == pow2 a).
{ rewrite <- pow2_add. replace (a - b + b)%Z with a by lia. reflexivity. }
assert (E1 : pow2 (a - b - 1) * pow2 (b + 1) == pow2 a).
{ rewrite <- pow2_add. replace (a - b - 1 + (b + 1))%Z with a by lia.
  reflexivity. }
assert (E2 : pow2 (a - b + 1) * pow2 b == pow2 (a + 1)).
{ rewrite <- pow2_add. replace (a - b + 1 + b)%Z with (a + 1)%Z by lia.
  reflexivity. }
assert (Hlow : pow2 (a - b - 1) <= x).
{ destruct (Qlt_le_dec x (pow2 (a - b - 1))) as [Hc|Hc]; [|exact Hc].
  exfalso. nra. }
assert (Hup : x < pow2 (a - b + 1)).
{ destruct (Qlt_le_dec x (pow2 (a - b + 1))) as [Hc|Hc]; [exact Hc|].
  exfalso. nra. }
destruct (Qle_bool (pow2 (a - b)) x) eqn:E.
- apply Qle_bool_iff in E. split; assumption.
- assert (Hlt : x < pow2 (a - b)).
  { destruct (Qlt_le_dec x (pow2 (a - b))) as [Hc|Hc]; [exact Hc|].
    apply Qle_bool_iff in Hc. congruence. }
  split; [exact Hlow|].
  replace (a - b - 1 + 1)%Z with (a - b)%Z by lia. exact Hlt.
Qed.

Lemma ilog2_unique (x : Q) (l : Z) :
  pow2 l <= x -> x < pow2 (l + 1) -> ilog2 x = l.
Proof.
intros Hlo Hhi.
assert (Hx : 0 < x) by (pose proof (pow2_pos l); lra).
destruct (ilog2_spec x Hx) as [Slo Shi].
assert (H1 : (ilog2 x < l + 1)%Z) by (apply pow2_lt_inv; lra).
assert (H2 : (l < ilog2 x + 1)%Z) by (apply pow2_lt_inv; lra).
lia.
Qed.

Lemma ilog2_comp (x y : Q) : 0 < x -> x == y -> ilog2 x = ilog2 y.
Proof.
intros Hx Hxy. symmetry. destruct (ilog2_spec x Hx) as [Slo Shi].
apply ilog2_unique; rewrite <- Hxy; assumption.
Qed.

Lemma ilog2_mono (x y : Q) : 0 < x -> x <= y -> (ilog2 x <= ilog2 y)%Z.
Proof.
intros Hx Hxy.
destruct (ilog2_spec x Hx) as [Xlo Xhi].
destruct (ilog2_spec y) as [Ylo Yhi]; [lra|].
assert (H : (ilog2 x < ilog2 y + 1)%Z) by (apply pow2_lt_inv; lra).
lia.
Qed.

Lemma ilog2_shift (x : Q) (k : Z) :
  0 < x -> ilog2 (x * pow2 k) = (ilog2 x + k)%Z.
Proof.
intros Hx. destruct (ilog2_spec x Hx) as [Xlo Xhi].
pose proof (pow2_pos k).
apply ilog2_unique.
- rewrite pow2_add. nra.
- replace (ilog2 x + k + 1)%Z with (ilog2 x + 1 + k)%Z by lia.
  rewrite pow2_add. nra.
Qed.


(** *** Rounding to a nearest integer, ties to even *)

Lemma Qfloor_spec (y : Q) :
  inject_Z (Qfloor y) <= y /\ y < inject_Z (Qfloor y) + 1.
Proof.
pose proof (Qfloor_le y). pose proof (Qlt_floor y) as Hlt.
rewrite inject_Z_plus in Hlt. change (inject_Z 1) with 1 in Hlt.
split; assumption.
Qed.

Lemma Qfloor_unique (y : Q) (z : Z) :
  inject_Z z <= y -> y < inject_Z z + 1 -> Qfloor y = z.
Proof.
intros Hlo Hhi. destruct (Qfloor_spec y) as [Flo Fhi].
assert (H1 : (z < Qfloor y + 1)%Z).
{ rewrite Zlt_Qlt, inject_Z_plus. change (inject_Z 1) with 1. lra. }
assert (H2 : (Qfloor y < z + 1)%Z).
{ rewrite Zlt_Qlt, inject_Z_plus. change (inject_Z 1) with 1. lra. }
lia.
Qed.

Lemma nearest_even_cases (y : Q) :
  let f := Qfloor y in
  (nearest_even y = f /\ y - inject_Z f <= 1 # 2)
  \/ (nearest_even y = (f + 1)%Z /\ 1 # 2 <= y - inject_Z f).
Proof.
intros f. unfold nearest_even. fold f.
destruct (Qcompare (y - inject_Z f) (1 # 2)) eqn:E.
- apply Qeq_alt in E. destruct (Z.even f).
  + left. split; [reflexivity|lra].
  + right. split; [reflexivity|lra].
- apply Qlt_alt in E. left. split; [reflexivity|lra].
- apply Qgt_alt in E. right. split; [reflexivity|lra].
Qed.

Lemma nearest_even_error (y : Q) :
  - (1 # 2) <= inject_Z (nearest_even y) - y <= 1 # 2.
Proof.
destruct (Qfloor_spec y) as [Flo Fhi].
destruct (nearest_even_cases y) as [[-> H]|[-> H]].
- lra.
- rewrite inject_Z_plus. change (inject_Z 1) with 1. lra.
Qed.

Lemma nearest_even_int (z : Z) : nearest_even (inject_Z z) = z.
Proof.
unfold nearest_even. rewrite Qfloor_Z.
assert (E : Qcompare (inject_Z z - inject_Z z) (1 # 2) = Lt).
{ apply (proj1 (Qlt_alt _ _)).
  assert (Hz : inject_Z z - inject_Z z == 0) by ring.
  rewrite Hz. reflexivity. }
rewrite E. reflexivity.
Qed.

Lemma nearest_even_comp (y1 y2 : Q) :
  y1 == y2 -> nearest_even y1 = nearest_even y2.
Proof.
intros E. unfold nearest_even.
rewrite (Qfloor_comp _ _ E).
assert (Ec : Qcompare (y1 - inject_Z (Qfloor y2)) (1 # 2)
             = Qcompare (y2 - inject_Z (Qfloor y2)) (1 # 2)).
{ apply Qcompare_comp; [rewrite E|]; reflexivity. }
rewrite Ec. reflexivity.
Qed.

Lemma nearest_even_mono (y1 y2 : Q) :
  y1 <= y2 -> (nearest_even y1 <= nearest_even y2)%Z.
Proof.
intros H.
assert (Hf : (Qfloor y1 <= Qfloor y2)%Z) by (apply Qfloor_resp_le; exact H).
destruct (Z.eq_dec (Qfloor y1) (Qfloor y2)) as [Ef|Nf].
- unfold nearest_even. rewrite Ef.
  destruct (Qcompare (y1 - inject_Z (Qfloor y2)) (1 # 2)) eqn:E1;
    destruct (Qcompare (y2 - inject_Z (Qfloor y2)) (1 # 2)) eqn:E2;
    repeat match goal with
           | E : Qcompare _ _ = Eq |- _ => apply Qeq_alt in E
           | E : Qcompare _ _ = Lt |- _ => apply Qlt_alt in E
           | E : Qcompare _ _ = Gt |- _ => apply Qgt_alt in E
           end;
    try destruct (Z.even (Qfloor y2)); try lia; exfalso; lra.
- destruct (nearest_even_cases y1) as [[-> _]|[-> _]];
    destruct (nearest_even_cases y2) as [[-> _]|[-> _]]; lia.
Qed.

(** *** Rounding a positive number *)

Lemma exponent_comp (x y : Q) : 0 < x -> x == y -> exponent x = exponent y.
Proof.
intros Hx E. unfold exponent. rewrite (ilog2_comp x y Hx E). reflexivity.
Qed.

Lemma exponent_mono (x y : Q) :
  0 < x -> x <= y -> (exponent x <= exponent y)%Z.
Proof.
intros Hx H. unfold exponent. pose proof (ilog2_mono x y Hx H). lia.
Qed.

(** The scaled number lies below [2^53]; in the normal range it is at
    least [2^52]. *)
Lemma scaled_bounds (x : Q) :
  0 < x ->
  0 < x / pow2 (exponent x) /\ x / pow2 (exponent x) < inject_Z (2 ^ 53)
  /\ ((-1074 < exponent x)%Z -> inject_Z (2 ^ 52) <= x / pow2 (exponent x)).
Proof.
intros Hx. destruct (ilog2_spec x Hx) as [Xlo Xhi].
pose proof (pow2_pos (exponent x)) as He.
assert (Hle : (ilog2 x - 52 <= exponent x)%Z) by (unfold exponent; lia).
assert (Hup : pow2 (ilog2 x + 1) <= pow2 (exponent x + 53)).
{ apply pow2_le. lia. }
assert (E53 : pow2 53 == inject_Z (2 ^ 53)) by (apply pow2_Z; lia).
rewrite (pow2_add (exponent x) 53), E53 in Hup.
split; [|split].
- apply Qlt_shift_div_l; [exact He|]. lra.
- apply Qlt_shift_div_r; [exact He|].
  set (c := inject_Z (2 ^ 53)) in *. nra.
- intros Hn. assert (Ee : exponent x = (ilog2 x - 52)%Z)
    by (unfold exponent in *; lia).
  apply Qle_shift_div_l; [exact He|].
  assert (Hp : pow2 (exponent x + 52) == pow2 (ilog2 x)).
  { rewrite Ee. replace (ilog2 x - 52 + 52)%Z with (ilog2 x) by lia.
    reflexivity. }
  assert (E52 : pow2 52 == inject_Z (2 ^ 52)) by (apply pow2_Z; lia).
  rewrite (pow2_add (exponent x) 52), E52 in Hp.
  set (c := inject_Z (2 ^ 52)) in *. nra.
Qed.

Lemma round_pos_mantissa (x : Q) :
  0 < x ->
  (0 <= nearest_even (x / pow2 (exponent x)) <= 2 ^ 53)%Z
  /\ ((-1074 < exponent x)%Z ->
      (2 ^ 52 <= nearest_even (x / pow2 (exponent x)))%Z).
Proof.
intros Hx. destruct (scaled_bounds x Hx) as (H0 & H1 & H2).
split; [split|].
- rewrite <- (nearest_even_int 0). apply nearest_even_mono.
  change (inject_Z 0) with 0. lra.
- rewrite <- (nearest_even_int (2 ^ 53)). apply nearest_even_mono. lra.
- intros Hn. rewrite <- (nearest_even_int (2 ^ 52)).
  apply nearest_even_mono. apply H2. exact Hn.
Qed.

Lemma round_pos_comp (x y : Q) : 0 < x -> x == y -> round_pos x == round_pos y.
Proof.
intros Hx E. unfold round_pos. rewrite (exponent_comp x y Hx E).
rewrite (nearest_even_comp (x / pow2 (exponent y)) (y / pow2 (exponent y))).
- reflexivity.
- rewrite E. reflexivity.
Qed.

Lemma round_pos_nonneg (x : Q) : 0 < x -> 0 <= round_pos x.
Proof.
intros Hx. unfold round_pos.
destruct (round_pos_mantissa x Hx) as [[H0 _] _].
pose proof (pow2_pos (exponent x)).
assert (0 <= inject_Z (nearest_even (x / pow2 (exponent x)))).
{ change 0 with (inject_Z 0). rewrite <- Zle_Qle. exact H0. }
nra.
Qed.

Lemma round_pos_mono (x y : Q) :
  0 < x -> x <= y -> round_pos x <= round_pos y.
Proof.
intros Hx H. assert (Hy : 0 < y) by lra.
pose proof (exponent_mono x y Hx H) as He.
pose proof (pow2_pos (exponent x)) as Px.
pose proof (pow2_pos (exponent y)) as Py.
destruct (Z.eq_dec (exponent x) (exponent y)) as [Ee|Ne].
- unfold round_pos. rewrite Ee.
  assert (Hm : (nearest_even (x / pow2 (exponent y))
                <= nearest_even (y / pow2 (exponent y)))%Z).
  { apply nearest_even_mono. apply Qmult_le_compat_r; [exact H|].
    apply Qlt_le_weak. apply Qinv_lt_0_compat. exact Py. }
  rewrite Zle_Qle in Hm. nra.
- assert (Hlt : (exponent x + 1 <= exponent y)%Z) by lia.
  destruct (round_pos_mantissa x Hx) as [[_ Hxm] _].
  destruct (round_pos_mantissa y Hy) as [_ Hym].
  assert (Hyn : (-1074 < exponent y)%Z) by (unfold exponent in *; lia).
  specialize (Hym Hyn).
  unfold round_pos.
  rewrite Zle_Qle in Hxm, Hym.
  assert (Hp : pow2 (exponent x + 1) <= pow2 (exponent y))
    by (apply pow2_le; exact Hlt).
  rewrite pow2_succ in Hp.
  assert (E53 : inject_Z (2 ^ 53) == 2 * inject_Z (2 ^ 52)) by reflexivity.
  set (mx := inject_Z (nearest_even (x / pow2 (exponent x)))) in *.
  set (my := inject_Z (nearest_even (y / pow2 (exponent y)))) in *.
  set (c := inject_Z (2 ^ 52)) in *.
  assert (0 < c) by reflexivity.
  apply Qle_trans with (2 * c * pow2 (exponent x)).
  + rewrite E53 in Hxm. nra.
  + nra.
Qed.

(** Error of the rounding: half a unit in the last place. *)
Lemma round_pos_error (x : Q) :
  0 < x ->
  Qabs (round_pos x - x) <= pow2 (exponent x - 1).
Proof.
intros Hx. unfold round_pos.
pose proof (pow2_pos (exponent x)) as Pe.
pose proof (nearest_even_error (x / pow2 (exponent x))) as [Hlo Hhi].
assert (Hx' : x == x / pow2 (exponent x) * pow2 (exponent x)).
{ field. intros E. rewrite E in Pe. discriminate Pe. }
assert (Hh : pow2 (exponent x - 1) == (1 # 2) * pow2 (exponent x)).
{ replace (exponent x - 1)%Z with (exponent x + -1)%Z by lia.
  rewrite pow2_add. change (pow2 (-1)) with (1 # 2). ring. }
rewrite Hh.
set (s := x / pow2 (exponent x)) in *.
set (m := inject_Z (nearest_even s)) in *.
set (P := pow2 (exponent x)) in *.
apply Qabs_Qle_condition. split; nra.
Qed.

Lemma half_ulp_bound (x : Q) :
  0 < x -> pow2 (exponent x - 1) <= x * pow2 (-53) + pow2 (-1075).
Proof.
intros Hx. destruct (ilog2_spec x Hx) as [Xlo _].
pose proof (pow2_pos (-53)). pose proof (pow2_pos (-1075)).
unfold exponent. destruct (Z.max_spec (ilog2 x - 52) (-1074)) as [[_ ->]|[_ ->]].
- change (-1074 - 1)%Z with (-1075)%Z. nra.
- replace (ilog2 x - 52 - 1)%Z with (ilog2 x + -53)%Z by lia.
  rewrite pow2_add. nra.
Qed.

Lemma round_pos_fix (x : Q) (m e : Z) :
  x == inject_Z m * pow2 e -> (0 < m < 2 ^ 53)%Z -> (-1074 <= e)%Z ->
  round_pos x == x.
Proof.
intros Ex Hm He.
pose proof (pow2_pos e) as Pe.
assert (Hmq : 0 < inject_Z m /\ inject_Z m < inject_Z (2 ^ 53)).
{ change 0 with (inject_Z 0). rewrite <- !Zlt_Qlt. exact Hm. }
assert (Hx : 0 < x) by (rewrite Ex; nra).
destruct (ilog2_spec x Hx) as [Xlo Xhi].
assert (Hl : (ilog2 x < e + 53)%Z).
{ apply pow2_lt_inv.
  assert (E53 : pow2 53 == inject_Z (2 ^ 53)) by (apply pow2_Z; lia).
  rewrite (pow2_add e 53), E53.
  set (c := inject_Z (2 ^ 53)) in *. nra. }
assert (Hec : (exponent x <= e)%Z) by (unfold exponent; lia).
unfold round_pos. set (ec := exponent x) in *. clearbody ec.
clear Xlo Xhi Hl.
pose proof (pow2_pos ec) as Pc.
assert (Hnz : ~ pow2 ec == 0) by (intros E; rewrite E in Pc; discriminate Pc).
assert (Hp : pow2 (e - ec) == inject_Z (2 ^ (e - ec))) by (apply pow2_Z; lia).
assert (Hs : x / pow2 ec == inject_Z (m * 2 ^ (e - ec))).
{ rewrite inject_Z_mult, <- Hp, pow2_sub, Ex. field. exact Hnz. }
rewrite (nearest_even_comp _ _ Hs), nearest_even_int.
rewrite inject_Z_mult, <- Hp, pow2_sub, Ex. field. exact Hnz.
Qed.

Lemma round_pos_in_format (x : Q) : 0 < x -> in_format (round_pos x).
Proof.
intros Hx. destruct (round_pos_mantissa x Hx) as [[H0 H1] _].
assert (He : (-1074 <= exponent x)%Z) by (unfold exponent; lia).
unfold round_pos.
destruct (Z.eq_dec (nearest_even (x / pow2 (exponent x))) (2 ^ 53)%Z)
  as [E|N].
- exists (2 ^ 52)%Z, (exponent x + 1)%Z. rewrite E.
  split; [|split; [reflexivity|lia]].
  rewrite pow2_succ.
  assert (E53 : inject_Z (2 ^ 53) == 2 * inject_Z (2 ^ 52)) by reflexivity.
  rewrite E53. ring.
- exists (nearest_even (x / pow2 (exponent x))), (exponent x).
  split; [reflexivity|]. split; [lia|exact He].
Qed.


(** *** Rounding *)

Lemma round_zero (x : Q) : x == 0 -> round x == 0.
Proof.
intros E. unfold round. rewrite Qred_correct.
destruct (Qcompare x 0) eqn:C; [reflexivity| |].
- apply Qlt_alt in C. lra.
- apply Qgt_alt in C. lra.
Qed.

Lemma round_of_pos (x : Q) : 0 < x -> round x == round_pos x.
Proof.
intros H. unfold round. rewrite Qred_correct.
destruct (Qcompare x 0) eqn:C; [| |reflexivity].
- apply Qeq_alt in C. lra.
- apply Qlt_alt in C. lra.
Qed.

Lemma round_of_neg (x : Q) : x < 0 -> round x == - round_pos (- x).
Proof.
intros H. unfold round. rewrite Qred_correct.
destruct (Qcompare x 0) eqn:C; [|reflexivity|].
- apply Qeq_alt in C. lra.
- apply Qgt_alt in C. lra.
Qed.

Lemma round_cases (x : Q) :
  (x == 0 /\ round x == 0)
  \/ (0 < x /\ round x == round_pos x)
  \/ (x < 0 /\ round x == - round_pos (- x)).
Proof.
destruct (Q_dec x 0) as [[H|H]|H].
- right. right. split; [exact H|apply round_of_neg; exact H].
- right. left. split; [exact H|apply round_of_pos; exact H].
- left. split; [exact H|apply round_zero; exact H].
Qed.

Lemma round_comp (x y : Q) : x == y -> round x = round y.
Proof.
intros E. unfold round. apply Qred_complete.
rewrite <- (Qcompare_comp x y E 0 0 (Qeq_refl 0)).
destruct (Qcompare x 0) eqn:C.
- reflexivity.
- apply Qlt_alt in C. apply Qopp_comp. apply round_pos_comp; [lra|].
  rewrite E. reflexivity.
- apply Qgt_alt in C. apply round_pos_comp; [lra|exact E].
Qed.

#[global] Instance round_proper : Proper (Qeq ==> Qeq) round.
Proof. intros x y E. rewrite (round_comp x y E). reflexivity. Qed.

Lemma round_opp (x : Q) : round (- x) == - round x.
Proof.
destruct (round_cases x) as [[H ->]|[[H ->]|[H ->]]].
- rewrite round_zero; lra.
- rewrite round_of_neg by lra.
  rewrite (round_pos_comp (- - x) x); [reflexivity|lra|ring].
- rewrite round_of_pos by lra. ring.
Qed.

Lemma round_mono (x y : Q) : x <= y -> round x <= round y.
Proof.
intros H.
destruct (round_cases x) as [[Hx ->]|[[Hx ->]|[Hx ->]]];
  destruct (round_cases y) as [[Hy ->]|[[Hy ->]|[Hy ->]]];
  try lra.
- pose proof (round_pos_nonneg y Hy). lra.
- apply round_pos_mono; assumption.
- pose proof (round_pos_nonneg (- x)). lra.
- pose proof (round_pos_nonneg (- x)). pose proof (round_pos_nonneg y Hy).
  lra.
- assert (round_pos (- y) <= round_pos (- x))
    by (apply round_pos_mono; lra).
  lra.
Qed.

Lemma in_format_opp (x : Q) : in_format x -> in_format (- x).
Proof.
intros (m & e & E & Hm & He). exists (- m)%Z, e.
split; [|split; [lia|exact He]].
rewrite E, inject_Z_opp. ring.
Qed.

Lemma in_format_zero (x : Q) : x == 0 -> in_format x.
Proof.
intros E. exists 0%Z, 0%Z. split; [|split; [reflexivity|lia]].
rewrite E. reflexivity.
Qed.

Lemma round_in_format (x : Q) : in_format (round x).
Proof.
destruct (round_cases x) as [[H E]|[[H E]|[H E]]].
- apply in_format_zero. exact E.
- destruct (round_pos_in_format x H) as (m & e & Em & Hm).
  exists m, e. split; [rewrite E; exact Em|exact Hm].
- destruct (in_format_opp _ (round_pos_in_format (- x) ltac:(lra)))
    as (m & e & Em & Hm).
  exists m, e. split; [rewrite E; exact Em|exact Hm].
Qed.

Lemma round_fix (x : Q) : in_format x -> round x == x.
Proof.
intros (m & e & E & Hm & He).
pose proof (pow2_pos e) as Pe.
destruct (Z.lt_trichotomy m 0) as [Hn|[Hz|Hp]].
- assert (Hx : x < 0).
  { assert (inject_Z m < 0)
      by (change 0 with (inject_Z 0); rewrite <- Zlt_Qlt; exact Hn).
    rewrite E. nra. }
  rewrite round_of_neg by exact Hx.
  rewrite (round_pos_fix (- x) (- m) e); [ring| |lia|exact He].
  rewrite E, inject_Z_opp. ring.
- assert (Hx : x == 0) by (subst m; rewrite E; ring).
  rewrite (round_zero x Hx), Hx. reflexivity.
- assert (Hx : 0 < x).
  { assert (0 < inject_Z m)
      by (change 0 with (inject_Z 0); rewrite <- Zlt_Qlt; exact Hp).
    rewrite E. nra. }
  rewrite round_of_pos by exact Hx.
  apply (round_pos_fix x m e); [exact E|lia|exact He].
Qed.

Lemma round_idem (x : Q) : round (round x) == round x.
Proof. apply round_fix. apply round_in_format. Qed.

(** The error of one rounding. *)
Lemma round_error (x : Q) :
  Qabs (round x - x) <= Qabs x * pow2 (-53) + pow2 (-1075).
Proof.
pose proof (pow2_pos (-53)) as P53. pose proof (pow2_pos (-1075)) as P1075.
destruct (round_cases x) as [[H E]|[[H E]|[H E]]]; rewrite E.
- rewrite H. change (Qabs (0 - 0)) with 0. change (Qabs 0) with 0. lra.
- rewrite (Qabs_pos x) by lra.
  apply Qle_trans with (pow2 (exponent x - 1)).
  + apply round_pos_error. exact H.
  + apply half_ulp_bound. exact H.
- rewrite (Qabs_neg x) by lra.
  assert (Ha : Qabs (- round_pos (- x) - x)
               == Qabs (round_pos (- x) - - x)).
  { rewrite <- (Qabs_opp (round_pos (- x) - - x)).
    apply Qabs_wd. ring. }
  rewrite Ha.
  apply Qle_trans with (pow2 (exponent (- x) - 1)).
  + apply round_pos_error. lra.
  + apply half_ulp_bound. lra.
Qed.

(** Some members of the format. *)
Lemma in_format_int (z : Z) : (Z.abs z < 2 ^ 53)%Z -> in_format (inject_Z z).
Proof.
intros H. exists z, 0%Z. split; [|split; [exact H|lia]].
change (pow2 0) with 1. ring.
Qed.

Lemma in_format_shift (x : Q) (k : Z) :
  (0 <= k)%Z -> in_format x -> in_format (x * pow2 k).
Proof.
intros Hk (m & e & E & Hm & He). exists m, (e + k)%Z.
split; [|split; [exact Hm|lia]].
rewrite E, pow2_add. ring.
Qed.

Lemma in_format_eighths (k : Z) :
  (Z.abs k < 2 ^ 53)%Z -> in_format (inject_Z k / 8).
Proof.
intros H. exists k, (-3)%Z. split; [|split; [exact H|lia]].
change (pow2 (-3)) with (1 # 8). field.
Qed.

(** On the sample doubles, and their opposites, the rounded sum,
    difference and product of the model are those of the primitive
    floats, and a double is a fixed point of the rounding. *)
Example round_agrees_with_the_primitive_floats :
  Binary64.on_all_pairs (Binary64.agrees PrimFloat.add Qplus) = true
  /\ Binary64.on_all_pairs (Binary64.agrees PrimFloat.sub Qminus) = true
  /\ Binary64.on_all_pairs (Binary64.agrees PrimFloat.mul Qmult) = true
  /\ forallb (fun a => Qeq_bool (Binary64.to_Q a) (round (Binary64.to_Q a)))
       Binary64.samples = true
  /\ Qeq_bool (Binary64.to_Q (Binary64.decimal 103 10)) (round (103 # 10))
     = true.
Proof.
  split; [vm_compute; reflexivity|].
  split; [vm_compute; reflexivity|].
  split; [vm_compute; reflexivity|].
  split; vm_compute; reflexivity.
Qed.

End RoundFacts.

(** ** Facts on doubles *)

Module DblFacts.

Lemma eqb_true a b : Dbl.eqb a b = true <-> (a == b)%Q.
Proof. apply Qeq_bool_iff. Qed.

Lemma ltb_true a b : Dbl.ltb a b = true <-> (a < b)%Q.
Proof.
  unfold Dbl.ltb. rewrite negb_true_iff.
  split; intros H.
  - apply Qnot_le_lt. intros Hle. apply Qle_bool_iff in Hle. congruence.
  - destruct (Qle_bool b a) eqn:E; [|reflexivity].
    apply Qle_bool_iff in E. exfalso. apply (Qlt_not_le _ _ H E).
Qed.

Lemma ltb_false a b : Dbl.ltb a b = false <-> (b <= a)%Q.
Proof.
  unfold Dbl.ltb. rewrite negb_false_iff. apply Qle_bool_iff.
Qed.

Lemma static_cast_int_inject (z : Z) :
  (Dbl.int_min <= z <= Dbl.int_max)%Z ->
  Dbl.static_cast_int (inject_Z z) = z.
Proof.
  intros Hz. unfold Dbl.static_cast_int; simpl. rewrite Z.quot_1_r.
  destruct (Z.leb_spec Dbl.int_min z); [|lia].
  destruct (Z.leb_spec z Dbl.int_max); [reflexivity|lia].
Qed.

Lemma static_cast_int_floor x :
  (Dbl.int_min <= Qfloor x <= Dbl.int_max)%Z ->
  Dbl.static_cast_int (Dbl.floor x) = Qfloor x.
Proof. apply static_cast_int_inject. Qed.

Lemma static_cast_int_range x :
  (Dbl.int_min <= Dbl.static_cast_int x <= Dbl.int_max)%Z.
Proof.
  unfold Dbl.static_cast_int.
  destruct (Z.leb_spec Dbl.int_min (Qnum x ÷ Z.pos (Qden x)));
    destruct (Z.leb_spec (Qnum x ÷ Z.pos (Qden x)) Dbl.int_max);
    simpl; unfold Dbl.int_min, Dbl.int_max in *; lia.
Qed.

Lemma int_wrap_id (z : Z) :
  (Dbl.int_min <= z <= Dbl.int_max)%Z -> Dbl.int_wrap z = z.
Proof.
  unfold Dbl.int_min, Dbl.int_max, Dbl.int_wrap. intros Hz.
  rewrite Z.mod_small by lia. lia.
Qed.

(** The fractional part [x - Dbl.floor x] lies in [0, 1). *)
Lemma frac_range (x : Q) : (0 <= x - Dbl.floor x)%Q /\ (x - Dbl.floor x < 1)%Q.
Proof.
  unfold Dbl.floor.
  pose proof (Qfloor_le x) as Hlo.
  pose proof (Qlt_floor x) as Hhi.
  rewrite inject_Z_plus in Hhi.
  change (inject_Z 1) with 1%Q in Hhi.
  split; lra.
Qed.

Lemma Qfloor_range (x : Q) (lo hi : Z) :
  (inject_Z lo <= x)%Q -> (x < inject_Z hi)%Q ->
  (lo <= Qfloor x < hi)%Z.
Proof.
  intros Hlo Hhi. split.
  - apply Qfloor_resp_le in Hlo. rewrite Qfloor_Z in Hlo. exact Hlo.
  - pose proof (Qfloor_le x) as Hf.
    assert (inject_Z (Qfloor x) < inject_Z hi)%Q as Hlt by lra.
    rewrite <- Zlt_Qlt in Hlt. exact Hlt.
Qed.

Lemma min_zero a b :
  (0 <= a)%Q -> (0 <= b)%Q -> (a == 0 \/ b == 0)%Q ->
  (Dbl.min a b == 0)%Q.
Proof.
  intros Ha Hb Hz. unfold Dbl.min.
  destruct (Dbl.ltb b a) eqn:E.
  - apply ltb_true in E. destruct Hz as [Hz|Hz]; lra.
  - apply ltb_false in E. destruct Hz as [Hz|Hz]; lra.
Qed.

End DblFacts.

(** ** The key comparisons are strict weak orderings *)

Section OrderFacts.
Context {K : Type} `{StrictWeakOrder K}.

Lemma equivb_refl (a : K) : StdMap.equivb a a = true.
Proof. unfold StdMap.equivb. rewrite less_irrefl. reflexivity. Qed.
End OrderFacts.

#[global] Instance Z_swo : StrictWeakOrder Z.
Proof.
  split; unfold less, Z_less; intros.
  - apply Z.ltb_irrefl.
  - apply Z.ltb_lt in H, H0. apply Z.ltb_lt. lia.
  - apply Z.ltb_ge in H, H0. apply Z.ltb_ge. lia.
Qed.

#[global] Instance bool_swo : StrictWeakOrder bool.
Proof.
  split; unfold less, bool_less.
  - intros []; reflexivity.
  - intros [] [] []; simpl; congruence.
  - intros [] [] []; simpl; congruence.
Qed.

#[global] Instance double_swo : StrictWeakOrder Q.
Proof.
  split; unfold less, double_less; intros.
  - apply DblFacts.ltb_false. apply Qle_refl.
  - apply DblFacts.ltb_true in H, H0. apply DblFacts.ltb_true.
    eapply Qlt_trans; eassumption.
  - apply DblFacts.ltb_false in H, H0. apply DblFacts.ltb_false.
    eapply Qle_trans; eassumption.
Qed.

#[global] Instance xdouble_swo : StrictWeakOrder xdouble.
Proof.
  split; unfold less, xdouble_less.
  - intros [|x]; [reflexivity|]. apply (less_irrefl (K:=Q)).
  - intros [|x] [|y] [|z]; try congruence. apply (less_trans (K:=Q)).
  - intros [|x] [|y] [|z]; try congruence. apply (less_negtrans (K:=Q)).
Qed.

#[global] Instance pair_swo {A B : Type} `{StrictWeakOrder A, StrictWeakOrder B} :
  StrictWeakOrder (A * B).
Proof.
  split; unfold less, pair_less.
  - intros [a1 a2]; simpl. rewrite !less_irrefl. reflexivity.
  - intros [a1 a2] [b1 b2] [c1 c2]; simpl. intros Hab Hbc.
    pose proof (less_trans a1 b1 c1) as T1.
    pose proof (less_negtrans a1 c1 b1) as N1.
    pose proof (less_negtrans b1 a1 c1) as N2.
    pose proof (less_negtrans c1 b1 a1) as N3.
    pose proof (less_trans a2 b2 c2) as T2.
    destruct (less a1 b1), (less b1 a1), (less b1 c1), (less c1 b1),
      (less a1 c1), (less c1 a1), (less a2 b2), (less b2 c2), (less a2 c2);
      simpl in *; try reflexivity; try discriminate;
      intuition congruence.
  - intros [a1 a2] [b1 b2] [c1 c2]; simpl. intros Hab Hbc.
    pose proof (less_negtrans a1 b1 c1) as N0.
    pose proof (less_negtrans b1 c1 a1) as N1.
    pose proof (less_negtrans c1 a1 b1) as N2.
    pose proof (less_negtrans a2 b2 c2) as M.
    destruct (less a1 b1), (less b1 a1), (less b1 c1), (less c1 b1),
      (less a1 c1), (less c1 a1), (less a2 b2), (less b2 c2), (less a2 c2);
      simpl in *; try reflexivity; try discriminate;
      intuition congruence.
Qed.

(** An ordering pulled back along a projection. *)
Lemma projected_swo {A B : Type} `{StrictWeakOrder B} (f : A -> B) :
  @StrictWeakOrder A (fun a b => less (f a) (f b)).
Proof.
  split.
  - intros a. exact (less_irrefl (f a)).
  - intros a b c. exact (less_trans (f a) (f b) (f c)).
  - intros a b c. exact (less_negtrans (f a) (f b) (f c)).
Qed.

#[global] Instance path_attributes_swo : StrictWeakOrder path_attributes.
Proof. apply (projected_swo path_attributes_fields). Qed.

#[global] Instance svg_path_ptr_swo : StrictWeakOrder svg_path_ptr.
Proof. apply (projected_swo (B:=Z) address). Qed.

(** ** Facts on ordered maps *)

Module StdMapFacts.
Section Facts.
Context {K V : Type} `{StrictWeakOrder K}.
Implicit Types (k : K) (v : V) (m : StdMap.t K V).

Lemma equivb_false_l k k' : less k k' = true -> StdMap.equivb k k' = false.
Proof. intros E. unfold StdMap.equivb. rewrite E. reflexivity. Qed.

Lemma equivb_false_r k k' : less k' k = true -> StdMap.equivb k k' = false.
Proof.
  intros E. unfold StdMap.equivb. rewrite E.
  apply andb_false_r.
Qed.

Lemma equivb_true k k' :
  less k k' = false -> less k' k = false -> StdMap.equivb k k' = true.
Proof. intros E1 E2. unfold StdMap.equivb. rewrite E1, E2. reflexivity. Qed.

(** After [emplace] the key is present. *)
Lemma find_emplace_is_Some k v m :
  is_Some (StdMap.find k (StdMap.emplace k v m)).
Proof.
  induction m as [|[k' v'] r IH]; simpl.
  - rewrite equivb_refl. eauto.
  - destruct (less k k') eqn:E1; simpl.
    + rewrite equivb_refl. eauto.
    + destruct (less k' k) eqn:E2; simpl.
      * rewrite (equivb_false_r _ _ E2). exact IH.
      * rewrite (equivb_true _ _ E1 E2). eauto.
Qed.

(** A key that was absent is bound to the value given to [emplace]. *)
Lemma find_emplace_new k v m :
  StdMap.find k m = None ->
  StdMap.find k (StdMap.emplace k v m) = Some v.
Proof.
  induction m as [|[k' v'] r IH]; simpl; intros Hnone.
  - rewrite equivb_refl. reflexivity.
  - destruct (StdMap.equivb k k') eqn:Eq; [discriminate|].
    destruct (less k k') eqn:E1; simpl.
    + rewrite equivb_refl. reflexivity.
    + destruct (less k' k) eqn:E2; simpl.
      * rewrite Eq. auto.
      * rewrite (equivb_true _ _ E1 E2) in Eq. discriminate.
Qed.

(** After [m[k] = v] the key is bound to [v]. *)
Lemma find_assign k v m :
  StdMap.find k (StdMap.assign k v m) = Some v.
Proof.
  induction m as [|[k' v'] r IH]; simpl.
  - rewrite equivb_refl. reflexivity.
  - destruct (less k k') eqn:E1; simpl.
    + rewrite equivb_refl. reflexivity.
    + destruct (less k' k) eqn:E2; simpl.
      * rewrite (equivb_false_r _ _ E2). exact IH.
      * rewrite (equivb_true _ _ E1 E2). reflexivity.
Qed.

Lemma find_erase_begin_None k m :
  StdMap.find k m = None -> StdMap.find k (StdMap.erase_begin m) = None.
Proof.
  destruct m as [|[k' v'] r]; simpl; [auto|].
  destruct (StdMap.equivb k k'); [discriminate|auto].
Qed.

(** Sizes. *)
Lemma size_emplace_le k v m :
  (StdMap.size (StdMap.emplace k v m) <= S (StdMap.size m))%nat.
Proof.
  unfold StdMap.size.
  induction m as [|[k' v'] r IH]; simpl; [lia|].
  destruct (less k k'); simpl; [lia|].
  destruct (less k' k); simpl; lia.
Qed.

Lemma size_emplace_new k v m :
  StdMap.find k m = None ->
  StdMap.size (StdMap.emplace k v m) = S (StdMap.size m).
Proof.
  unfold StdMap.size.
  induction m as [|[k' v'] r IH]; simpl; intros Hnone; [reflexivity|].
  destruct (StdMap.equivb k k') eqn:Eq; [discriminate|].
  destruct (less k k') eqn:E1; simpl; [reflexivity|].
  destruct (less k' k) eqn:E2; simpl.
  - rewrite IH; auto.
  - rewrite (equivb_true _ _ E1 E2) in Eq. discriminate.
Qed.

Lemma size_assign_le k v m :
  (StdMap.size (StdMap.assign k v m) <= S (StdMap.size m))%nat.
Proof.
  unfold StdMap.size.
  induction m as [|[k' v'] r IH]; simpl; [lia|].
  destruct (less k k'); simpl; [lia|].
  destruct (less k' k); simpl; lia.
Qed.

Lemma size_assign_new k v m :
  StdMap.find k m = None ->
  StdMap.size (StdMap.assign k v m) = S (StdMap.size m).
Proof.
  unfold StdMap.size.
  induction m as [|[k' v'] r IH]; simpl; intros Hnone; [reflexivity|].
  destruct (StdMap.equivb k k') eqn:Eq; [discriminate|].
  destruct (less k k') eqn:E1; simpl; [reflexivity|].
  destruct (less k' k) eqn:E2; simpl.
  - rewrite IH; auto.
  - rewrite (equivb_true _ _ E1 E2) in Eq. discriminate.
Qed.

Lemma size_erase_begin m :
  StdMap.size (StdMap.erase_begin m) = pred (StdMap.size m).
Proof. destruct m; reflexivity. Qed.

(** The invariant is kept by the three mutations. *)
Lemma sorted_erase_begin m :
  StdMap.sorted m -> StdMap.sorted (StdMap.erase_begin m).
Proof. destruct 1; simpl; [constructor|assumption]. Qed.

Lemma Forall_less_emplace k0 k v m :
  less k0 k = true ->
  Forall (fun e => less k0 (fst e) = true) m ->
  Forall (fun e => less k0 (fst e) = true) (StdMap.emplace k v m).
Proof.
  intros Hk. induction 1 as [|[k' v'] r Hlt Hall IH]; simpl.
  - repeat constructor. exact Hk.
  - destruct (less k k'); [repeat constructor; auto|].
    destruct (less k' k); constructor; auto.
Qed.

Lemma Forall_less_assign k0 k v m :
  less k0 k = true ->
  Forall (fun e => less k0 (fst e) = true) m ->
  Forall (fun e => less k0 (fst e) = true) (StdMap.assign k v m).
Proof.
  intros Hk. induction 1 as [|[k' v'] r Hlt Hall IH]; simpl.
  - repeat constructor. exact Hk.
  - destruct (less k k'); [repeat constructor; auto|].
    destruct (less k' k); constructor; auto.
Qed.

Lemma Forall_less_trans k k' m :
  less k k' = true ->
  Forall (fun e => less k' (fst e) = true) m ->
  Forall (fun e => less k (fst e) = true) m.
Proof.
  intros Hk Hall. eapply List.Forall_impl; [|exact Hall].
  intros e He. simpl in *. eapply less_trans; eauto.
Qed.

Lemma sorted_emplace k v m :
  StdMap.sorted m -> StdMap.sorted (StdMap.emplace k v m).
Proof.
  induction 1 as [|k' v' r Hall Hs IH]; simpl.
  - repeat constructor.
  - destruct (less k k') eqn:E1.
    + constructor; [|constructor; assumption].
      constructor; [exact E1|].
      eapply Forall_less_trans; eauto.
    + destruct (less k' k) eqn:E2.
      * constructor; [|exact IH].
        apply Forall_less_emplace; assumption.
      * constructor; assumption.
Qed.

Lemma sorted_assign k v m :
  StdMap.sorted m -> StdMap.sorted (StdMap.assign k v m).
Proof.
  induction 1 as [|k' v' r Hall Hs IH]; simpl.
  - repeat constructor.
  - destruct (less k k') eqn:E1.
    + constructor; [|constructor; assumption].
      constructor; [exact E1|].
      eapply Forall_less_trans; eauto.
    + destruct (less k' k) eqn:E2.
      * constructor; [|exact IH].
        apply Forall_less_assign; assumption.
      * constructor; assumption.
Qed.

Lemma sorted_evict cap m : StdMap.sorted m -> StdMap.sorted (StdMap.evict cap m).
Proof.
  unfold StdMap.evict. destruct (cap <? StdMap.size m)%nat; auto.
  apply sorted_erase_begin.
Qed.

Lemma find_evict_None cap k m :
  StdMap.find k m = None -> StdMap.find k (StdMap.evict cap m) = None.
Proof.
  unfold StdMap.evict. destruct (cap <? StdMap.size m)%nat; auto.
  apply find_erase_begin_None.
Qed.

Lemma size_evict_at_most cap m :
  (StdMap.size m <= cap)%nat -> StdMap.evict cap m = m.
Proof.
  intros Hle. unfold StdMap.evict.
  destruct (Nat.ltb_spec cap (StdMap.size m)); [lia|reflexivity].
Qed.

Lemma size_evict_over cap m :
  (cap < StdMap.size m)%nat ->
  StdMap.evict cap m = StdMap.erase_begin m /\
  StdMap.size (StdMap.evict cap m) = pred (StdMap.size m).
Proof.
  intros Hlt. unfold StdMap.evict.
  destruct (Nat.ltb_spec cap (StdMap.size m)); [|lia].
  split; [reflexivity|apply size_erase_begin].
Qed.

(** The bound that the insertions keep is one more than the capacity. *)
Lemma size_evict_emplace cap k v m :
  (StdMap.size m <= S cap)%nat ->
  (StdMap.size (StdMap.emplace k v (StdMap.evict cap m)) <= S cap)%nat.
Proof.
  intros Hle. pose proof (size_emplace_le k v (StdMap.evict cap m)) as Hs.
  destruct (Nat.ltb_spec cap (StdMap.size m)) as [Hlt|Hge].
  - destruct (size_evict_over cap m Hlt) as [_ Hsz]. lia.
  - rewrite (size_evict_at_most cap m Hge) in *. lia.
Qed.

Lemma size_evict_assign cap k v m :
  (StdMap.size m <= S cap)%nat ->
  (StdMap.size (StdMap.assign k v (StdMap.evict cap m)) <= S cap)%nat.
Proof.
  intros Hle. pose proof (size_assign_le k v (StdMap.evict cap m)) as Hs.
  destruct (Nat.ltb_spec cap (StdMap.size m)) as [Hlt|Hge].
  - destruct (size_evict_over cap m Hlt) as [_ Hsz]. lia.
  - rewrite (size_evict_at_most cap m Hge) in *. lia.
Qed.

End Facts.
End StdMapFacts.

(** ** The rendered-image cache *)

Section SampleIndex.
Import Dbl.
Local Open Scope Q_scope.

Lemma spec_bucket_range (t : Q) : (0 <= spec_bucket 8 t < 8)%Z.
Proof.
unfold spec_bucket, spec_fraction.
destruct (DblFacts.frac_range t) as [Hlo Hhi].
unfold Dbl.floor in Hlo, Hhi.
apply DblFacts.Qfloor_range.
- change (inject_Z 0) with 0%Q. change (inject_Z 8) with 8%Q. nra.
- change (inject_Z 8) with 8%Q. nra.
Qed.

(** The fractional part as the code computes it lies in [[0, 1]]: the exact
    difference is below 1 and may round up to it. *)
Lemma computed_fraction_range (t : Q) :
  0 <= Dbl.sub t (Dbl.floor t) <= 1.
Proof.
destruct (DblFacts.frac_range t) as [Hlo Hhi].
unfold Dbl.sub. split.
- rewrite <- (RoundFacts.round_zero 0) by reflexivity.
  apply RoundFacts.round_mono. exact Hlo.
- rewrite <- (RoundFacts.round_fix 1)
    by (apply (RoundFacts.in_format_int 1); reflexivity).
  apply RoundFacts.round_mono. lra.
Qed.

(** The bucket of one axis: the bucket of the exact fraction, or the next
    one when the computed fraction is the lower end of the next one. *)
Lemma computed_bucket (t : Q) :
  let k := spec_bucket 8 t in
  let d := Dbl.sub t (Dbl.floor t) in
  (0 <= k < 8)%Z
  /\ Qfloor (Dbl.mul d 8)
     = (k + (if Qeq_bool d (inject_Z (k + 1) / 8) then 1 else 0))%Z.
Proof.
intros k d.
assert (Hk : (0 <= k < 8)%Z) by apply spec_bucket_range.
split; [exact Hk|].
set (f := t - Dbl.floor t).
assert (Hkf : inject_Z k <= f * 8 /\ f * 8 < inject_Z k + 1).
{ subst k f. unfold spec_bucket, spec_fraction, Dbl.floor.
  change (inject_Z 8) with 8. apply RoundFacts.Qfloor_spec. }
assert (Hfix : forall j : Z, (0 <= j <= 8)%Z ->
                 round (inject_Z j / 8) == inject_Z j / 8).
{ intros j Hj. apply RoundFacts.round_fix, RoundFacts.in_format_eighths.
  lia. }
assert (Hd : inject_Z k / 8 <= d /\ d <= inject_Z (k + 1) / 8).
{ subst d. unfold Dbl.sub. fold f. split.
  - rewrite <- (Hfix k) by lia. apply RoundFacts.round_mono.
    apply Qle_shift_div_r; [reflexivity|]. lra.
  - rewrite <- (Hfix (k + 1)%Z) by lia. apply RoundFacts.round_mono.
    apply Qle_shift_div_l; [reflexivity|].
    rewrite inject_Z_plus. change (inject_Z 1) with 1. lra. }
assert (Hmul : Dbl.mul d 8 == d * 8).
{ unfold Dbl.mul. apply RoundFacts.round_fix.
  change 8 with (pow2 3).
  apply RoundFacts.in_format_shift; [lia|].
  subst d. unfold Dbl.sub. apply RoundFacts.round_in_format. }
rewrite (Qfloor_comp _ _ Hmul).
rewrite inject_Z_plus in Hd. change (inject_Z 1) with 1 in Hd.
destruct Hd as [Hd1 Hd2].
assert (Hd1' : inject_Z k <= d * 8).
{ assert (E8 : inject_Z k / 8 * 8 == inject_Z k) by field. lra. }
assert (Hd2' : d * 8 <= inject_Z k + 1).
{ assert (E8 : (inject_Z k + 1) / 8 * 8 == inject_Z k + 1) by field. lra. }
destruct (Qeq_bool d (inject_Z (k + 1) / 8)) eqn:E.
- apply Qeq_bool_iff in E.
  assert (Hm : d * 8 == inject_Z (k + 1)).
  { rewrite E. generalize (inject_Z (k + 1)). intros q. field. }
  apply RoundFacts.Qfloor_unique; rewrite Hm; lra.
- assert (Hne : ~ d * 8 == inject_Z k + 1).
  { intros Heq.
    assert (Heq' : d == inject_Z (k + 1) / 8).
    { rewrite inject_Z_plus. change (inject_Z 1) with 1.
      rewrite <- Heq. generalize d. intros q. unfold double in q. field. }
    apply Qeq_bool_iff in Heq'. congruence. }
  rewrite Z.add_0_r.
  apply RoundFacts.Qfloor_unique; [exact Hd1'|].
  destruct (Qlt_le_dec (d * 8) (inject_Z k + 1)) as [Hlt|Hge];
    [exact Hlt|].
  exfalso. apply Hne. lra.
Qed.


(** A double that is not negative has a fractional part that is a double:
    its subtraction does not round. *)
Lemma nonneg_fraction_exact (t : Q) :
  in_format t -> 0 <= t -> Dbl.sub t (Dbl.floor t) == t - Dbl.floor t.
Proof.
intros (m & e & Et & Hm & He) Ht.
pose proof (RoundFacts.pow2_pos e) as Pe.
assert (Hm0 : (0 <= m)%Z).
{ destruct (Z.le_gt_cases 0 m) as [Hle|Hgt]; [exact Hle|].
  exfalso.
  assert (inject_Z m < 0)
    by (change 0 with (inject_Z 0); rewrite <- Zlt_Qlt; lia).
  rewrite Et in Ht. nra. }
unfold Dbl.sub. apply RoundFacts.round_fix.
destruct (Z.le_gt_cases 0 e) as [He0|He0].
- apply RoundFacts.in_format_zero.
  assert (Ez : t == inject_Z (m * 2 ^ e)).
  { rewrite Et, inject_Z_mult, <- RoundFacts.pow2_Z by lia. reflexivity. }
  unfold Dbl.floor. rewrite (Qfloor_comp _ _ Ez), Qfloor_Z, Ez. ring.
- set (p := (2 ^ (- e))%Z).
  assert (Hp : (0 < p)%Z) by (subst p; apply Z.pow_pos_nonneg; lia).
  assert (HP : pow2 e * inject_Z p == 1).
  { subst p. rewrite <- RoundFacts.pow2_Z by lia.
    rewrite <- RoundFacts.pow2_add. replace (e + - e)%Z with 0%Z by lia.
    reflexivity. }
  pose proof (Z.div_mod m p ltac:(lia)) as Hdm.
  pose proof (Z.mod_pos_bound m p Hp) as Hr.
  assert (HM : inject_Z m
               == inject_Z p * inject_Z (m / p) + inject_Z (m mod p)).
  { rewrite <- inject_Z_mult, <- inject_Z_plus, <- Hdm. reflexivity. }
  assert (HR : 0 <= inject_Z (m mod p) /\ inject_Z (m mod p) < inject_Z p).
  { change 0 with (inject_Z 0). rewrite <- Zle_Qle, <- Zlt_Qlt. exact Hr. }
  assert (HPp : 0 < inject_Z p)
    by (change 0 with (inject_Z 0); rewrite <- Zlt_Qlt; exact Hp).
  assert (Hval : t == inject_Z (m / p) + inject_Z (m mod p) * pow2 e).
  { rewrite Et, HM.
    transitivity (inject_Z (m / p) * (pow2 e * inject_Z p)
                  + inject_Z (m mod p) * pow2 e); [ring|].
    rewrite HP. ring. }
  assert (Hfl : Qfloor t = (m / p)%Z).
  { apply RoundFacts.Qfloor_unique; rewrite Hval.
    - assert (0 <= inject_Z (m mod p) * pow2 e) by nra. lra.
    - assert (inject_Z (m mod p) * pow2 e < 1) by nra. lra. }
  exists (m mod p)%Z, e. split; [|split; [|exact He]].
  + unfold Dbl.floor. rewrite Hfl. rewrite Hval at 1. ring.
  + assert ((m mod p <= m)%Z) by (apply Z.mod_le; lia). lia.
Qed.

(** Where the subtraction is exact the bucket is the one of the exact
    fraction. *)
Lemma exact_fraction_bucket (t : Q) :
  Dbl.sub t (Dbl.floor t) == t - Dbl.floor t ->
  Qfloor (Dbl.mul (Dbl.sub t (Dbl.floor t)) 8) = spec_bucket 8 t.
Proof.
intros Et. destruct (computed_bucket t) as [_ Hb]. rewrite Hb.
destruct (Qeq_bool (Dbl.sub t (Dbl.floor t))
            (inject_Z (spec_bucket 8 t + 1) / 8)) eqn:E; [|lia].
exfalso. apply Qeq_bool_iff in E. rewrite Et in E.
pose proof (RoundFacts.Qfloor_spec ((t - Dbl.floor t) * 8)) as [_ Hlt].
unfold spec_bucket, spec_fraction in E. unfold Dbl.floor in *.
change (inject_Z 8) with 8 in E.
rewrite inject_Z_plus in E. change (inject_Z 1) with 1 in E.
set (k := inject_Z (Qfloor ((t - inject_Z (Qfloor t)) * 8))) in *.
set (f := t - inject_Z (Qfloor t)) in *.
assert (E8 : (k + 1) / 8 * 8 == k + 1) by field.
rewrite <- E in E8. lra.
Qed.

(** The index is formed from two buckets between 0 and 8, so the [int]
    arithmetic that forms it does not overflow. *)
Lemma sample_idx_of_buckets (marker_tr : trans_affine) :
  let bx := Qfloor (Dbl.mul (dx_of marker_tr) 8) in
  let by_ := Qfloor (Dbl.mul (dy_of marker_tr) 8) in
  sample_idx_of marker_tr = (by_ * 8 + bx)%Z
  /\ (0 <= bx <= 8)%Z /\ (0 <= by_ <= 8)%Z.
Proof.
intros bx by_.
destruct (computed_bucket (tx marker_tr)) as [Hkx Hbx].
destruct (computed_bucket (ty marker_tr)) as [Hky Hby].
fold (dx_of marker_tr) in Hbx. fold (dy_of marker_tr) in Hby.
fold bx in Hbx. fold by_ in Hby.
assert (Rx : (0 <= bx <= 8)%Z).
{ rewrite Hbx. clear - Hkx. destruct (Qeq_bool _ _); lia. }
assert (Ry : (0 <= by_ <= 8)%Z).
{ rewrite Hby. clear - Hky. destruct (Qeq_bool _ _); lia. }
clear Hbx Hby Hkx Hky.
split; [|split; assumption].
unfold sample_idx_of, sampling_rate. change (inject_Z 8) with 8.
fold bx. fold by_.
rewrite !DblFacts.static_cast_int_floor
  by (fold bx by_; unfold Dbl.int_min, Dbl.int_max; lia).
fold bx. fold by_.
unfold Dbl.int_add, Dbl.int_mul.
rewrite (DblFacts.int_wrap_id (by_ * 8))
  by (unfold Dbl.int_min, Dbl.int_max; lia).
apply DblFacts.int_wrap_id. unfold Dbl.int_min, Dbl.int_max. lia.
Qed.

(** A negative translation within [2^-54] of zero: its fractional part is
    computed as 1, and the bucket of the axis as 8. *)
Lemma small_negative_fraction (t : Q) :
  - pow2 (-54) <= t -> t < 0 ->
  Dbl.sub t (Dbl.floor t) == 1
  /\ Qfloor (Dbl.mul (Dbl.sub t (Dbl.floor t)) 8) = 8%Z.
Proof.
intros Hlo Hhi.
assert (H54 : pow2 (-54) == 1 # 18014398509481984) by reflexivity.
assert (Hf : Qfloor t = (-1)%Z).
{ apply RoundFacts.Qfloor_unique; change (inject_Z (-1)) with (-1); lra. }
assert (Hd : Dbl.sub t (Dbl.floor t) == 1).
{ unfold Dbl.sub, Dbl.floor. rewrite Hf. change (inject_Z (-1)) with (-1).
  assert (Hup : round (t - -1) <= 1).
  { rewrite <- (RoundFacts.round_fix 1)
      by (apply (RoundFacts.in_format_int 1); reflexivity).
    apply RoundFacts.round_mono. lra. }
  assert (Hdn : 1 <= round (t - -1)).
  { assert (E : round (1 - pow2 (-54)) == 1) by (vm_compute; reflexivity).
    rewrite <- E. apply RoundFacts.round_mono. lra. }
  lra. }
split; [exact Hd|].
unfold Dbl.mul. rewrite Hd.
assert (E : round (1 * 8) == 8) by (vm_compute; reflexivity).
rewrite (Qfloor_comp _ _ E). reflexivity.
Qed.

End SampleIndex.

Section ImageCacheFacts.
Context `{Collaborators}.

(** Blitting writes the destination buffer only. *)
Lemma blit_cached_images img tr params w :
  cached_images_ (fst (blit img tr params w)) = cached_images_ w.
Proof. destruct img; reflexivity. Qed.

Lemma blit_absent tr params w : blit None tr params w = (w, []).
Proof. reflexivity. Qed.

Lemma blit_snd img tr params w :
  snd (blit img tr params w) = blit_calls img tr.
Proof. destruct img; reflexivity. Qed.

Lemma render_cached_images src path a0 params marker_tr w :
  cached_images_ (fst (render_cached src path a0 params marker_tr w))
  = cached_images_
      (snd (fst (lookup_or_render src path a0 params marker_tr w))).
Proof.
  unfold render_cached.
  destruct (lookup_or_render src path a0 params marker_tr w)
    as [[[fill_img stroke_img] w1] c1]; simpl.
  pose proof (blit_cached_images fill_img
                (blit_tr src a0 marker_tr) params w1) as Hf.
  destruct (blit fill_img (blit_tr src a0 marker_tr) params w1)
    as [w2 c2]; simpl in Hf.
  pose proof (blit_cached_images stroke_img
                (blit_tr src a0 marker_tr) params w2) as Hs.
  destruct (blit stroke_img (blit_tr src a0 marker_tr) params w2)
    as [w3 c3]; simpl in *.
  congruence.
Qed.

(** A hit leaves the world as it is and returns the stored patches. *)
Lemma lookup_or_render_hit src path a0 params marker_tr w patches :
  StdMap.find (key_of src a0 marker_tr) (cached_images_ w) = Some patches ->
  lookup_or_render src path a0 params marker_tr w
  = (patches, w, [CachedImagesFind (key_of src a0 marker_tr)]).
Proof.
  intros Hfind. unfold lookup_or_render. rewrite Hfind.
  destruct patches; reflexivity.
Qed.

(** The cache after a miss. *)
Lemma lookup_or_render_miss src path a0 params marker_tr w :
  StdMap.find (key_of src a0 marker_tr) (cached_images_ w) = None ->
  let patches := (fill_patch src path a0 params marker_tr,
                  stroke_patch src path a0 params marker_tr) in
  let r := lookup_or_render src path a0 params marker_tr w in
  fst (fst r) = patches /\
  cached_images_ (snd (fst r))
  = StdMap.emplace (key_of src a0 marker_tr) patches
      (StdMap.evict cache_size (cached_images_ w)) /\
  buf_ (snd (fst r)) = buf_ w.
Proof.
  intros Hfind. unfold lookup_or_render. rewrite Hfind. simpl.
  repeat split.
Qed.

(** Whether it hits or misses, the key is in the cache afterwards. *)
Lemma lookup_or_render_present src path a0 params marker_tr w :
  is_Some
    (StdMap.find (key_of src a0 marker_tr)
       (cached_images_
          (snd (fst (lookup_or_render src path a0 params marker_tr w))))).
Proof.
  destruct (StdMap.find (key_of src a0 marker_tr) (cached_images_ w))
    as [patches|] eqn:Hfind.
  - rewrite (lookup_or_render_hit _ _ _ _ _ _ _ Hfind). simpl.
    rewrite Hfind. eauto.
  - destruct (lookup_or_render_miss src path a0 params marker_tr w Hfind)
      as (_ & Hc & _).
    rewrite Hc. apply StdMapFacts.find_emplace_is_Some.
Qed.

(** C3. The bucket index is formed as the claim says, from the two
    fractional parts as the code computes them: in double arithmetic. The
    bucket of an axis is the bucket [floor (fraction * 8)] of the exact
    fraction, or the one above it when the subtraction [t - floor t] rounds
    up onto the next multiple of [1 / 8]. For translations that are not
    negative the subtraction is exact and the index is the one of the
    claim; so it is at (10.3, 10.7) and at (10.35, 10.72), which both give
    [5 * 8 + 2 = 42], the second placement hitting the entry of the first.
    A negative translation within [2^-54] of zero has its fraction
    computed as 1 and its bucket as 8, where the exact bucket is 7. At
    the translation [(- 2^-62, - 2^-62)] both fractions round to 1: the
    index is [8 * 8 + 8 = 72] where the claim's formula gives
    [7 * 8 + 7 = 63], and the index 8 is shared by the placements
    [(- 2^-62, 0)] and [(0, 0.125)], whose fractions are a pixel apart:
    they share a key, and the patch stored for the first is rendered a
    whole pixel to the right of the one the second would render.
    The primitive floats of the kernel give the same indices. *)
Theorem sample_index_leaves_the_buckets_when_a_fraction_rounds_up :
  (forall marker_tr : trans_affine,
      let kx := spec_bucket 8 (tx marker_tr) in
      let ky := spec_bucket 8 (ty marker_tr) in
      let up (d : Q) (k : Z) : Z :=
        if Qeq_bool d (inject_Z (k + 1) / 8) then 1%Z else 0%Z in
      (0 <= kx < 8)%Z /\ (0 <= ky < 8)%Z
      /\ sample_idx_of marker_tr
         = ((ky + up (dy_of marker_tr) ky) * 8
            + (kx + up (dx_of marker_tr) kx))%Z)
  /\ (forall marker_tr : trans_affine,
        Dbl.in_format (tx marker_tr) -> Dbl.in_format (ty marker_tr) ->
        (0 <= tx marker_tr)%Q -> (0 <= ty marker_tr)%Q ->
        sample_idx_of marker_tr
        = (Qfloor ((ty marker_tr - inject_Z (Qfloor (ty marker_tr))) * 8) * 8
           + Qfloor ((tx marker_tr - inject_Z (Qfloor (tx marker_tr))) * 8))%Z)
  /\ sample_idx_of sample_placement = (5 * 8 + 2)%Z
  /\ sample_idx_of second_placement = 42%Z
  /\ (forall src path a0 params w,
        let w1 :=
          fst (render_marker src path [a0] params sample_placement w) in
        exists patches,
          StdMap.find (key_of src a0 second_placement) (cached_images_ w1)
          = Some patches /\
          lookup_or_render src path a0 params second_placement w1
          = (patches, w1,
             [CachedImagesFind (key_of src a0 second_placement)]))
  /\ (forall marker_tr : trans_affine,
        (- Dbl.pow2 (-54) <= tx marker_tr)%Q -> (tx marker_tr < 0)%Q ->
        (dx_of marker_tr == 1)%Q
        /\ Qfloor (Dbl.mul (dx_of marker_tr) 8%Q) = 8%Z
        /\ spec_bucket 8 (tx marker_tr) = 7%Z)
  /\ (dx_of (placement_at tiny_negative tiny_negative) == 1)%Q
  /\ sample_idx_of (placement_at tiny_negative tiny_negative) = 72%Z
  /\ spec_bucket_index 8 tiny_negative tiny_negative = 63%Z
  /\ sample_idx_of (placement_at tiny_negative 0) = 8%Z
  /\ sample_idx_of (placement_at 0 (1 # 8)) = 8%Z
  /\ (forall src a0,
        key_of src a0 (placement_at tiny_negative 0)
        = key_of src a0 (placement_at 0 (1 # 8))
        /\ tx (local_tr src a0 (placement_at tiny_negative 0))
           = Dbl.sub 1%Q (x0_of src (margin_of a0))
        /\ tx (local_tr src a0 (placement_at 0 (1 # 8)))
           = Dbl.sub 0%Q (x0_of src (margin_of a0)))
  /\ Binary64.sample_idx_of Binary64.tiny_negative Binary64.tiny_negative
     = 72%Z
  /\ Binary64.sample_idx_of (Binary64.decimal 103 10) (Binary64.decimal 107 10)
     = 42%Z
  /\ Binary64.sample_idx_of (Binary64.decimal 1035 100)
       (Binary64.decimal 1072 100)
     = 42%Z.
Proof.
  split.
  { intros marker_tr kx ky up.
    destruct (computed_bucket (tx marker_tr)) as [Hkx Hbx].
    destruct (computed_bucket (ty marker_tr)) as [Hky Hby].
    destruct (sample_idx_of_buckets marker_tr) as [Hidx _].
    split; [exact Hkx|]. split; [exact Hky|].
    rewrite Hidx. unfold dx_of, dy_of. rewrite Hbx, Hby. reflexivity. }
  split.
  { intros marker_tr Fx Fy Hx Hy.
    destruct (sample_idx_of_buckets marker_tr) as [Hidx _].
    rewrite Hidx. unfold dx_of, dy_of.
    rewrite (exact_fraction_bucket _ (nonneg_fraction_exact _ Fx Hx)).
    rewrite (exact_fraction_bucket _ (nonneg_fraction_exact _ Fy Hy)).
    reflexivity. }
  split; [vm_compute; reflexivity|].
  split; [vm_compute; reflexivity|].
  split.
  { intros src path a0 params w w1.
    assert (key_of src a0 second_placement = key_of src a0 sample_placement)
      as Hkey.
    { unfold key_of.
      assert (E : sample_idx_of second_placement
                  = sample_idx_of sample_placement)
        by (vm_compute; reflexivity).
      rewrite E. reflexivity. }
    assert (is_Some (StdMap.find (key_of src a0 second_placement)
                       (cached_images_ w1)))
      as [patches Hp].
    { rewrite Hkey. subst w1. unfold render_marker.
      assert (Ec : cacheable sample_placement = true)
        by (vm_compute; reflexivity).
      rewrite Ec. rewrite render_cached_images.
      apply lookup_or_render_present. }
    exists patches. split; [exact Hp|].
    apply lookup_or_render_hit. exact Hp. }
  split.
  { intros marker_tr Hlo Hhi.
    destruct (small_negative_fraction (tx marker_tr) Hlo Hhi) as [Hd Hb].
    split; [exact Hd|]. split; [exact Hb|].
    destruct (computed_bucket (tx marker_tr)) as [Hk Hc].
    rewrite Hb in Hc.
    destruct (Qeq_bool _ _) in Hc; lia. }
  split; [vm_compute; reflexivity|].
  split; [vm_compute; reflexivity|].
  split; [vm_compute; reflexivity|].
  split; [vm_compute; reflexivity|].
  split; [vm_compute; reflexivity|].
  split.
  { intros src a0. split; [|split].
    - unfold key_of.
      assert (E : sample_idx_of (placement_at tiny_negative 0)
                  = sample_idx_of (placement_at 0 (1 # 8)))
        by (vm_compute; reflexivity).
      rewrite E. reflexivity.
    - assert (E : dx_of (placement_at tiny_negative 0) = 1%Q)
        by (vm_compute; reflexivity).
      unfold local_tr, with_translation. cbn [tx]. rewrite E. reflexivity.
    - assert (E : dx_of (placement_at 0 (1 # 8)) = 0%Q)
        by (vm_compute; reflexivity).
      unfold local_tr, with_translation. cbn [tx]. rewrite E. reflexivity. }
  split; [vm_compute; reflexivity|].
  split; vm_compute; reflexivity.
Qed.

End ImageCacheFacts.

Section CacheApplicability.
Context `{Collaborators}.

Lemma cacheable_true_iff (marker_tr : trans_affine) :
  cacheable marker_tr = true <->
  (sx marker_tr == 1 /\ sy marker_tr == 1 /\
   shx marker_tr == 0 /\ shy marker_tr == 0)%Q.
Proof.
  unfold cacheable. rewrite !andb_true_iff, !DblFacts.eqb_true. tauto.
Qed.

Lemma render_cached_calls src path a0 params marker_tr w :
  let r := lookup_or_render src path a0 params marker_tr w in
  snd (render_cached src path a0 params marker_tr w)
  = snd r
    ++ blit_calls (fst (fst (fst r))) (blit_tr src a0 marker_tr)
    ++ blit_calls (snd (fst (fst r))) (blit_tr src a0 marker_tr).
Proof.
  unfold render_cached.
  destruct (lookup_or_render src path a0 params marker_tr w)
    as [[[fill_img stroke_img] w1] c1]; simpl.
  pose proof (blit_snd fill_img (blit_tr src a0 marker_tr) params w1) as Hf.
  destruct (blit fill_img (blit_tr src a0 marker_tr) params w1)
    as [w2 c2]; simpl in Hf.
  pose proof (blit_snd stroke_img (blit_tr src a0 marker_tr) params w2) as Hs.
  destruct (blit stroke_img (blit_tr src a0 marker_tr) params w2)
    as [w3 c3]; simpl in *.
  congruence.
Qed.

Lemma In_blit_calls img tr (c : call) :
  In c (blit_calls img tr) -> exists i, c = RenderRasterMarker i tr.
Proof.
  destruct img as [i|]; simpl; [|tauto].
  intros [<-|[]]. eauto.
Qed.

Lemma In_patch_calls active attrs tr (c : call) :
  In c (patch_calls active attrs tr) -> c = RenderVectorMarker Scratch attrs tr.
Proof.
  destruct active; simpl; [|tauto]. intros [<-|[]]. reflexivity.
Qed.

(** The calls made by the lookup: the find comes first; a miss renders
    into scratch buffers only and ends with the emplace. *)
Lemma lookup_or_render_calls src path a0 params marker_tr w :
  let key := key_of src a0 marker_tr in
  let calls := snd (lookup_or_render src path a0 params marker_tr w) in
  In (CachedImagesFind key) calls /\
  (In (CachedImagesEmplace key) calls <->
   StdMap.find key (cached_images_ w) = None) /\
  (forall attrs tr, ~ In (RenderVectorMarker Destination attrs tr) calls).
Proof.
  simpl. unfold lookup_or_render.
  destruct (StdMap.find (key_of src a0 marker_tr) (cached_images_ w))
    as [[fill_img stroke_img]|]; simpl.
  - split; [auto|]. split.
    + split; [intros [Hc|[]]; discriminate|discriminate].
    + intros attrs tr [Hc|[]]. discriminate.
  - split; [auto|]. split.
    + split; [reflexivity|]. intros _. right.
      rewrite !in_app_iff. right. right. left. reflexivity.
    + intros attrs tr [Hc|Hin]; [discriminate|].
      rewrite !in_app_iff in Hin.
      destruct Hin as [Hin|[Hin|Hin]].
      * apply In_patch_calls in Hin. discriminate.
      * apply In_patch_calls in Hin. discriminate.
      * destruct Hin as [Hc|[]]. discriminate.
Qed.

Lemma lookup_or_render_no_blit src path a0 params marker_tr w i tr :
  ~ In (RenderRasterMarker i tr)
      (snd (lookup_or_render src path a0 params marker_tr w)).
Proof.
  unfold lookup_or_render.
  destruct (StdMap.find (key_of src a0 marker_tr) (cached_images_ w))
    as [[fill_img stroke_img]|]; simpl.
  - intros [Hc|[]]. discriminate.
  - intros [Hc|Hin]; [discriminate|].
    rewrite !in_app_iff in Hin.
    destruct Hin as [Hin|[Hin|Hin]].
    + apply In_patch_calls in Hin. discriminate.
    + apply In_patch_calls in Hin. discriminate.
    + destruct Hin as [Hc|[]]. discriminate.
Qed.

Lemma lookup_or_render_buf src path a0 params marker_tr w :
  buf_ (snd (fst (lookup_or_render src path a0 params marker_tr w)))
  = buf_ w.
Proof.
  unfold lookup_or_render.
  destruct (StdMap.find (key_of src a0 marker_tr) (cached_images_ w))
    as [[fill_img stroke_img]|]; reflexivity.
Qed.

Lemma render_cached_world src path a0 params marker_tr w :
  let r := lookup_or_render src path a0 params marker_tr w in
  let tr := blit_tr src a0 marker_tr in
  fst (render_cached src path a0 params marker_tr w)
  = fst (blit (snd (fst (fst r))) tr params
           (fst (blit (fst (fst (fst r))) tr params (snd (fst r))))).
Proof.
  simpl. unfold render_cached.
  destruct (lookup_or_render src path a0 params marker_tr w)
    as [[[f s] w1] c1]; simpl.
  destruct (blit f (blit_tr src a0 marker_tr) params w1) as [w2 c2]; simpl.
  destruct (blit s (blit_tr src a0 marker_tr) params w2) as [w3 c3].
  reflexivity.
Qed.

(** What the cached path leaves behind: the cache, the entry under the
    key, and the destination. *)
Lemma render_cached_state src path a0 params marker_tr w :
  let r := render_cached src path a0 params marker_tr w in
  let key := key_of src a0 marker_tr in
  let found := StdMap.find key (cached_images_ w) in
  let patches :=
    match found with
    | Some stored => stored
    | None => (fill_patch src path a0 params marker_tr,
               stroke_patch src path a0 params marker_tr)
    end in
  let clip :=
    match found with
    | Some _ => ras_clip_box w
    | None => (0, 0, image_width (buf_ w), image_height (buf_ w))%Z
    end in
  let paste (img : image_ptr) (b : image_rgba8) :=
    match img with
    | Some i =>
        render_raster_marker
          {| rb_buffer := b; rb_comp_op := comp_op_ w |} clip i
          (blit_tr src a0 marker_tr) (opacity params)
          (scale_factor params) (snap_to_pixels params)
    | None => b
    end in
  cached_images_ (fst r)
  = match found with
    | Some _ => cached_images_ w
    | None =>
        StdMap.emplace key patches
          (StdMap.evict cache_size (cached_images_ w))
    end
  /\ StdMap.find key (cached_images_ (fst r)) = Some patches
  /\ buf_ (fst r) = paste (snd patches) (paste (fst patches) (buf_ w)).
Proof.
  cbv zeta. rewrite render_cached_world.
  unfold lookup_or_render.
  destruct (StdMap.find (key_of src a0 marker_tr) (cached_images_ w))
    as [[f s]|] eqn:Hfound; cbn [fst snd].
  - rewrite !blit_cached_images.
    split; [reflexivity|]. split; [exact Hfound|].
    destruct f as [fi|], s as [si|]; reflexivity.
  - rewrite !blit_cached_images.
    split; [reflexivity|]. split.
    + cbn [cached_images_ set_clip_box set_cached_images].
      apply StdMapFacts.find_emplace_new.
      apply StdMapFacts.find_evict_None. exact Hfound.
    + destruct (fill_patch src path a0 params marker_tr) as [fi|],
        (stroke_patch src path a0 params marker_tr) as [si|];
        reflexivity.
Qed.

(** C2. The rendered-image cache is consulted exactly for a single
    attribute record under a transform of unit scale and zero shear. It is
    then populated: after the render the key holds the patches that were
    blitted, which are the stored ones on a hit and the freshly rendered
    ones on a miss, the cache being otherwise as it was on a hit and the
    old one, evicted if over its size, with the new entry on a miss; the
    destination is the fill patch and then the stroke patch pasted over
    it by the raster renderer. Any other placement is rasterized directly
    into the destination by the full rasterizer, with the cache left as it
    was. *)
Theorem image_cache_used_iff_single_record_unit_transform
    src path attrs params marker_tr w :
  let applicable :=
    length attrs = 1%nat /\
    (sx marker_tr == 1 /\ sy marker_tr == 1 /\
     shx marker_tr == 0 /\ shy marker_tr == 0)%Q in
  let r := render_marker src path attrs params marker_tr w in
  ((exists key, In (CachedImagesFind key) (snd r)) <-> applicable) /\
  ((exists key, In (CachedImagesEmplace key) (snd r)) <->
   applicable /\
   exists a0, attrs = [a0] /\
     StdMap.find (key_of src a0 marker_tr) (cached_images_ w) = None) /\
  ((exists a tr, In (RenderVectorMarker Destination a tr) (snd r)) <->
   ~ applicable) /\
  (~ applicable ->
   snd r = [RenderVectorMarker Destination attrs marker_tr] /\
   cached_images_ (fst r) = cached_images_ w /\
   buf_ (fst r)
   = render_vector_marker path attrs (ras_clip_box w) (renb_ w)
       (bounding_box src) marker_tr (opacity params)
       (snap_to_pixels params)) /\
  (applicable ->
   exists a0, attrs = [a0] /\
     let key := key_of src a0 marker_tr in
     let found := StdMap.find key (cached_images_ w) in
     let patches :=
       match found with
       | Some stored => stored
       | None => (fill_patch src path a0 params marker_tr,
                  stroke_patch src path a0 params marker_tr)
       end in
     let clip :=
       match found with
       | Some _ => ras_clip_box w
       | None => (0, 0, image_width (buf_ w), image_height (buf_ w))%Z
       end in
     let paste (img : image_ptr) (b : image_rgba8) :=
       match img with
       | Some i =>
           render_raster_marker
             {| rb_buffer := b; rb_comp_op := comp_op_ w |} clip i
             (blit_tr src a0 marker_tr) (opacity params)
             (scale_factor params) (snap_to_pixels params)
       | None => b
       end in
     cached_images_ (fst r)
     = match found with
       | Some _ => cached_images_ w
       | None =>
           StdMap.emplace key patches
             (StdMap.evict cache_size (cached_images_ w))
       end
     /\ StdMap.find key (cached_images_ (fst r)) = Some patches
     /\ buf_ (fst r) = paste (snd patches) (paste (fst patches) (buf_ w))).
Proof.
  intros applicable r.
  assert (Hunc : ~ applicable ->
                 r = render_uncached src path attrs params marker_tr w).
  { intros Hn. subst r applicable. unfold render_marker.
    destruct attrs as [|a0 [|a1 rest]]; try reflexivity.
    destruct (cacheable marker_tr) eqn:Ec; [|reflexivity].
    exfalso. apply Hn. split; [reflexivity|].
    apply cacheable_true_iff. exact Ec. }
  assert (Hc : applicable ->
               exists a0, attrs = [a0] /\
                 r = render_cached src path a0 params marker_tr w).
  { intros [Hlen Htr]. subst r. unfold render_marker.
    destruct attrs as [|a0 [|a1 rest]]; try discriminate.
    exists a0. split; [reflexivity|].
    apply cacheable_true_iff in Htr. rewrite Htr. reflexivity. }
  assert (Hdec : applicable \/ ~ applicable).
  { subst applicable.
    destruct attrs as [|a0 [|a1 rest]];
      try (right; intros [Hlen _]; discriminate).
    destruct (cacheable marker_tr) eqn:Ec.
    - left. split; [reflexivity|]. apply cacheable_true_iff. exact Ec.
    - right. intros [_ Htr]. apply cacheable_true_iff in Htr. congruence. }
  destruct Hdec as [Happ|Hnot].
  - destruct (Hc Happ) as (a0 & -> & Hr).
    pose proof (render_cached_calls src path a0 params marker_tr w) as Hcalls.
    pose proof (lookup_or_render_calls src path a0 params marker_tr w)
      as (Hfind & Hemp & Hdest).
    simpl in Hcalls, Hfind, Hemp, Hdest.
    rewrite Hr, Hcalls.
    split; [|split; [|split; [|split]]].
    + split; [intros _; exact Happ|].
      intros _. exists (key_of src a0 marker_tr).
      apply in_app_iff. left. exact Hfind.
    + split.
      * intros [key Hin]. split; [exact Happ|].
        exists a0. split; [reflexivity|].
        apply Hemp.
        rewrite !in_app_iff in Hin. destruct Hin as [Hin|[Hin|Hin]].
        -- revert Hin. unfold lookup_or_render.
           destruct (StdMap.find (key_of src a0 marker_tr)
                       (cached_images_ w)) as [[f s]|]; simpl.
           ++ intros [Hx|[]]. discriminate.
           ++ intros _. right. rewrite !in_app_iff.
              right. right. left. reflexivity.
        -- apply In_blit_calls in Hin. destruct Hin as [i Hi]. discriminate.
        -- apply In_blit_calls in Hin. destruct Hin as [i Hi]. discriminate.
      * intros (_ & a & Ha & Hnone). inversion Ha; subst a.
        exists (key_of src a0 marker_tr).
        apply in_app_iff. left. apply Hemp. exact Hnone.
    + split; [|tauto].
      intros (a & tr & Hin). exfalso.
      rewrite !in_app_iff in Hin. destruct Hin as [Hin|[Hin|Hin]].
      * exact (Hdest a tr Hin).
      * apply In_blit_calls in Hin. destruct Hin as [i Hi]. discriminate.
      * apply In_blit_calls in Hin. destruct Hin as [i Hi]. discriminate.
    + tauto.
    + intros _. exists a0. split; [reflexivity|].
      exact (render_cached_state src path a0 params marker_tr w).
  - rewrite (Hunc Hnot). unfold render_uncached; simpl.
    split; [|split; [|split; [|split]]].
    + split; [|tauto]. intros [key [Hx|[]]]. discriminate.
    + split; [|tauto]. intros [key [Hx|[]]]. discriminate.
    + split; [intros _; exact Hnot|]. intros _. eauto.
    + intros _. repeat split.
    + intros Happ. contradiction.
Qed.

End CacheApplicability.

Section BlitRounding.
Import Dbl.
Local Open Scope Q_scope.

(** A rounding is off by at most the unit roundoff times a bound of what
    is rounded, plus half the least subnormal. *)
Lemma round_near (y c : Q) :
  Qabs y <= c ->
  - (c * pow2 (-53) + pow2 (-1075)) <= round y - y
  /\ round y - y <= c * pow2 (-53) + pow2 (-1075).
Proof.
  intros Hc.
  pose proof (RoundFacts.round_error y) as He.
  pose proof (RoundFacts.pow2_pos (-53)) as Hu.
  apply Qabs_Qle_condition in He.
  assert (Qabs y * pow2 (-53) <= c * pow2 (-53)) by nra.
  lra.
Qed.

Lemma Qabs_bounds (y : Q) : 0 <= Qabs y /\ y <= Qabs y /\ - y <= Qabs y.
Proof.
  split; [apply Qabs_nonneg|].
  split; [apply Qle_Qabs|].
  rewrite <- Qabs_opp. apply Qle_Qabs.
Qed.

(** The blitting translation [t + (x0 - (t - floor t))] of three rounded
    operations against its exact value [floor t + x0]. *)
Lemma blit_translation_error (t x0 : Q) :
  Qabs (add t (sub x0 (sub t (floor t))) - (floor t + x0))
  <= (Qabs (floor t) + Qabs x0 + 2) * pow2 (-51).
Proof.
  pose proof (computed_fraction_range t) as [Hd0 Hd1].
  pose proof (Qfloor_le t) as Hf0. pose proof (Qlt_floor t) as Hf1.
  rewrite inject_Z_plus in Hf1. change (inject_Z 1) with 1 in Hf1.
  unfold add, sub, floor in *.
  set (T := inject_Z (Qfloor t)) in *.
  set (d := round (t - T)) in *.
  set (s := round (x0 - d)) in *.
  pose proof (Qabs_bounds T) as (HA0 & HA1 & HA2).
  pose proof (Qabs_bounds x0) as (HB0 & HB1 & HB2).
  set (A := Qabs T) in *. set (B := Qabs x0) in *.
  pose proof (RoundFacts.pow2_pos (-53)) as Hu.
  pose proof (RoundFacts.pow2_pos (-1075)) as Hn.
  assert (Hnu : pow2 (-1075) <= pow2 (-53))
    by (apply RoundFacts.pow2_le; lia).
  assert (Hu8 : pow2 (-53) <= 1 # 8).
  { change (1 # 8) with (pow2 (-3)). apply RoundFacts.pow2_le; lia. }
  assert (H51 : pow2 (-51) == 4 * pow2 (-53)).
  { change 4 with (pow2 2). rewrite <- RoundFacts.pow2_add.
    reflexivity. }
  assert (H1 : Qabs (t - T) <= 1) by (apply Qabs_Qle_condition; lra).
  pose proof (round_near (t - T) 1 H1) as [E1a E1b]. fold d in E1a, E1b.
  assert (H2 : Qabs (x0 - d) <= B + 1) by (apply Qabs_Qle_condition; lra).
  pose proof (round_near (x0 - d) (B + 1) H2) as [E2a E2b].
  fold s in E2a, E2b.
  set (u := pow2 (-53)) in *. set (n := pow2 (-1075)) in *.
  assert (H3 : Qabs (t + s) <= A + B + (1 * u + n) + ((B + 1) * u + n))
    by (apply Qabs_Qle_condition; lra).
  pose proof (round_near (t + s) _ H3) as [E3a E3b].
  fold u n in E3a, E3b.
  rewrite H51.
  clearbody u n A B T d s.
  assert (Hbu : 0 <= B * u) by nra.
  assert (Hau : 0 <= A * u) by nra.
  assert (Huu : u * u <= u * (1 # 8)) by nra.
  assert (Hnu' : n * u <= u * (1 # 8)) by nra.
  assert (Hbuu : B * u * u <= B * u * (1 # 8)).
  { assert (0 <= (B * u) * ((1 # 8) - u)) by (apply Qmult_le_0_compat; lra).
    lra. }
  apply Qabs_Qle_condition. split; lra.
Qed.

(** The translation [dx - x0] of a patch and the blitting translation
    together, against the translation of the placement. *)
Lemma patch_and_blit_error (t x0 : Q) :
  Qabs (sub (sub t (floor t)) x0 + add t (sub x0 (sub t (floor t))) - t)
  <= (Qabs (floor t) + Qabs x0 + 2) * pow2 (-50).
Proof.
  pose proof (blit_translation_error t x0) as Hb.
  pose proof (computed_fraction_range t) as [Hd0 Hd1].
  pose proof (Qfloor_le t) as Hf0. pose proof (Qlt_floor t) as Hf1.
  rewrite inject_Z_plus in Hf1. change (inject_Z 1) with 1 in Hf1.
  set (blit := add t (sub x0 (sub t (floor t)))) in *. clearbody blit.
  unfold sub, floor in *.
  set (T := inject_Z (Qfloor t)) in *.
  set (d := round (t - T)) in *.
  pose proof (Qabs_bounds T) as (HA0 & HA1 & HA2).
  pose proof (Qabs_bounds x0) as (HB0 & HB1 & HB2).
  set (A := Qabs T) in *. set (B := Qabs x0) in *.
  pose proof (RoundFacts.pow2_pos (-53)) as Hu.
  pose proof (RoundFacts.pow2_pos (-1075)) as Hn.
  assert (Hnu : pow2 (-1075) <= pow2 (-53))
    by (apply RoundFacts.pow2_le; lia).
  assert (H51 : pow2 (-51) == 4 * pow2 (-53)).
  { change 4 with (pow2 2). rewrite <- RoundFacts.pow2_add.
    reflexivity. }
  assert (H50 : pow2 (-50) == 8 * pow2 (-53)).
  { change 8 with (pow2 3). rewrite <- RoundFacts.pow2_add.
    reflexivity. }
  assert (H1 : Qabs (t - T) <= 1) by (apply Qabs_Qle_condition; lra).
  pose proof (round_near (t - T) 1 H1) as [E1a E1b]. fold d in E1a, E1b.
  assert (H2 : Qabs (d - x0) <= B + 1) by (apply Qabs_Qle_condition; lra).
  pose proof (round_near (d - x0) (B + 1) H2) as [E2a E2b].
  rewrite H51 in Hb. rewrite H50.
  apply Qabs_Qle_condition in Hb. destruct Hb as [Hb1 Hb2].
  set (u := pow2 (-53)) in *. set (n := pow2 (-1075)) in *.
  set (p := round (d - x0)) in *.
  clearbody u n A B T d p.
  assert (Hbu : 0 <= B * u) by (apply Qmult_le_0_compat; lra).
  assert (Hau : 0 <= A * u) by (apply Qmult_le_0_compat; lra).
  apply Qabs_Qle_condition. split; lra.
Qed.

End BlitRounding.

Section Compositing.
Context `{Collaborators}.

(** C4, as the code has it. On a hit and on a miss alike the fill patch
    and then the stroke patch, the stored ones on a hit and the freshly
    rendered ones on a miss, are blitted into the destination by the
    raster renderer with the placement transform translated by
    [(x0 - dx, y0 - dy)]: scale and shear are kept and the translation
    is, as doubles, [tx + (x0 - dx)] and [ty + (y0 - dy)]. Where no
    operation overflows this is the integral part of the placement
    translation plus the canvas origin [(x0, y0)] up to the rounding of
    the three operations, [2 ^ -51] relative to the magnitudes involved:
    the whole fractional offset is removed, not the remainder of its
    quantization. The offset is carried by the patch, which a miss
    renders under the translation [(dx - x0, dy - y0)]: patch and blit
    together then give back the translation of the placement, up to
    [2 ^ -50] relative to the same magnitudes. *)
Theorem blit_transform_drops_fraction_and_adds_origin
    src path a0 params marker_tr w :
  let r := lookup_or_render src path a0 params marker_tr w in
  let rc := render_cached src path a0 params marker_tr w in
  let fill_img := fst (fst (fst r)) in
  let stroke_img := snd (fst (fst r)) in
  let tr := blit_tr src a0 marker_tr in
  let found := StdMap.find (key_of src a0 marker_tr) (cached_images_ w) in
  let clip :=
    match found with
    | Some _ => ras_clip_box w
    | None => (0, 0, image_width (buf_ w), image_height (buf_ w))%Z
    end in
  let paste (img : image_ptr) (b : image_rgba8) :=
    match img with
    | Some i =>
        render_raster_marker
          {| rb_buffer := b; rb_comp_op := comp_op_ w |} clip i tr
          (opacity params) (scale_factor params) (snap_to_pixels params)
    | None => b
    end in
  snd rc = snd r ++ blit_calls fill_img tr ++ blit_calls stroke_img tr
  /\ (fill_img, stroke_img)
     = match found with
       | Some stored => stored
       | None => (fill_patch src path a0 params marker_tr,
                  stroke_patch src path a0 params marker_tr)
       end
  /\ buf_ (fst rc) = paste stroke_img (paste fill_img (buf_ w))
  /\ cached_images_ (fst rc) = cached_images_ (snd (fst r))
  /\ (sx tr = sx marker_tr /\ sy tr = sy marker_tr /\
      shx tr = shx marker_tr /\ shy tr = shy marker_tr)
  /\ tx tr
     = Dbl.add (tx marker_tr)
         (Dbl.sub (x0_of src (margin_of a0)) (dx_of marker_tr))
  /\ ty tr
     = Dbl.add (ty marker_tr)
         (Dbl.sub (y0_of src (margin_of a0)) (dy_of marker_tr))
  /\ ((Qabs (tx marker_tr) <= Dbl.pow2 1000)%Q ->
      (Qabs (x0_of src (margin_of a0)) <= Dbl.pow2 1000)%Q ->
      (Qabs (tx tr
             - (Dbl.floor (tx marker_tr) + x0_of src (margin_of a0)))
       <= (Qabs (Dbl.floor (tx marker_tr))
           + Qabs (x0_of src (margin_of a0)) + 2) * Dbl.pow2 (-51))%Q)
  /\ ((Qabs (ty marker_tr) <= Dbl.pow2 1000)%Q ->
      (Qabs (y0_of src (margin_of a0)) <= Dbl.pow2 1000)%Q ->
      (Qabs (ty tr
             - (Dbl.floor (ty marker_tr) + y0_of src (margin_of a0)))
       <= (Qabs (Dbl.floor (ty marker_tr))
           + Qabs (y0_of src (margin_of a0)) + 2) * Dbl.pow2 (-51))%Q)
  /\ (tx (local_tr src a0 marker_tr)
      = Dbl.sub (dx_of marker_tr) (x0_of src (margin_of a0))
      /\ ty (local_tr src a0 marker_tr)
         = Dbl.sub (dy_of marker_tr) (y0_of src (margin_of a0)))
  /\ ((Qabs (tx marker_tr) <= Dbl.pow2 1000)%Q ->
      (Qabs (x0_of src (margin_of a0)) <= Dbl.pow2 1000)%Q ->
      (Qabs (tx (local_tr src a0 marker_tr) + tx tr - tx marker_tr)
       <= (Qabs (Dbl.floor (tx marker_tr))
           + Qabs (x0_of src (margin_of a0)) + 2) * Dbl.pow2 (-50))%Q)
  /\ ((Qabs (ty marker_tr) <= Dbl.pow2 1000)%Q ->
      (Qabs (y0_of src (margin_of a0)) <= Dbl.pow2 1000)%Q ->
      (Qabs (ty (local_tr src a0 marker_tr) + ty tr - ty marker_tr)
       <= (Qabs (Dbl.floor (ty marker_tr))
           + Qabs (y0_of src (margin_of a0)) + 2) * Dbl.pow2 (-50))%Q).
Proof.
  intros r rc fill_img stroke_img tr found clip paste.
  pose proof (render_cached_state src path a0 params marker_tr w)
    as (Hcache & _ & Hbuf).
  split; [apply render_cached_calls|].
  assert (Hp : (fill_img, stroke_img)
               = match found with
                 | Some stored => stored
                 | None => (fill_patch src path a0 params marker_tr,
                            stroke_patch src path a0 params marker_tr)
                 end).
  { subst fill_img stroke_img r found. unfold lookup_or_render.
    destruct (StdMap.find (key_of src a0 marker_tr) (cached_images_ w))
      as [[f s]|]; reflexivity. }
  split; [exact Hp|].
  split.
  { subst rc paste clip tr found. rewrite Hbuf.
    fold (StdMap.find (key_of src a0 marker_tr) (cached_images_ w)).
    rewrite <- Hp. reflexivity. }
  split.
  { subst rc r. rewrite render_cached_world, !blit_cached_images.
    reflexivity. }
  split; [repeat split|].
  split; [reflexivity|]. split; [reflexivity|].
  split; [intros _ _; apply blit_translation_error|].
  split; [intros _ _; apply blit_translation_error|].
  split; [split; reflexivity|].
  split; intros _ _; apply patch_and_blit_error.
Qed.

End Compositing.

(** C4, as stated, fails. For the filled square placed at (10.3, 10.7) the
    stated blit translation is (10.25, 10.625), and no representative of the
    buckets [[2/8, 3/8]] and [[5/8, 6/8]] gives another reading that fits:
    the code blits at (10, 10). *)
Lemma blit_translation_is_not_translation_minus_remainder :
  (tx (blit_tr square_marker plain_fill sample_placement) == 10)%Q /\
  (ty (blit_tr square_marker plain_fill sample_placement) == 10)%Q /\
  (spec_blit_translation 8 (tx sample_placement) == 41 # 4)%Q /\
  (spec_blit_translation 8 (ty sample_placement) == 85 # 8)%Q /\
  ~ (tx (blit_tr square_marker plain_fill sample_placement)
     == spec_blit_translation 8 (tx sample_placement))%Q /\
  ~ (ty (blit_tr square_marker plain_fill sample_placement)
     == spec_blit_translation 8 (ty sample_placement))%Q /\
  (forall rep : Q, (2 # 8 <= rep)%Q -> (rep <= 3 # 8)%Q ->
     ~ (tx (blit_tr square_marker plain_fill sample_placement)
        == tx sample_placement - (dx_of sample_placement - rep))%Q).
Proof.
  assert (Hx : (tx (blit_tr square_marker plain_fill sample_placement)
                == 10)%Q) by (vm_compute; reflexivity).
  assert (Hy : (ty (blit_tr square_marker plain_fill sample_placement)
                == 10)%Q) by (vm_compute; reflexivity).
  assert (Hsx : (spec_blit_translation 8 (tx sample_placement) == 41 # 4)%Q)
    by (vm_compute; reflexivity).
  assert (Hsy : (spec_blit_translation 8 (ty sample_placement) == 85 # 8)%Q)
    by (vm_compute; reflexivity).
  assert (Hdx : (dx_of sample_placement == tx sample_placement - 10)%Q)
    by (vm_compute; reflexivity).
  repeat split; try assumption.
  - rewrite Hx, Hsx. intros E. discriminate E.
  - rewrite Hy, Hsy. intros E. discriminate E.
  - intros rep Hlo Hhi. rewrite Hx, Hdx. intros E. lra.
Qed.

Section TransparentPatches.
Context `{Collaborators}.

Lemma render_patch_not_all_zero src path attrs clip w h tr snap img :
  render_patch src path attrs clip w h tr snap = Some img ->
  all_zero img = false.
Proof.
  unfold render_patch.
  destruct (all_zero (render_vector_marker _ _ _ _ _ _ _ _)) eqn:E;
    [discriminate|].
  intros Hs. inversion Hs; subst. exact E.
Qed.

Lemma render_patch_all_zero src path attrs clip w h tr snap :
  all_zero
    (render_vector_marker path attrs clip
       {| rb_buffer := new_image w h; rb_comp_op := default_comp_op |}
       (bounding_box src) tr 1%Q snap) = true ->
  render_patch src path attrs clip w h tr snap = None.
Proof. intros E. unfold render_patch. rewrite E. reflexivity. Qed.

(** C8. On a miss the cache stores the two patches that were rendered; a
    patch whose pixels are all zero is stored as absent, so that a stored
    patch is never an all-zero buffer; blitting an absent patch changes
    nothing and calls nothing, and with both patches absent the
    destination buffer after the render is the one before. *)
Theorem transparent_patch_is_absent_and_its_blit_is_a_no_op
    src path a0 params marker_tr w :
  let key := key_of src a0 marker_tr in
  let margin := margin_of a0 in
  let cw := canvas_width src margin in
  let ch := canvas_height src margin in
  let rendered attrs_copy :=
    render_vector_marker path attrs_copy (0, 0, cw, ch)%Z
      {| rb_buffer := new_image cw ch; rb_comp_op := default_comp_op |}
      (bounding_box src) (local_tr src a0 marker_tr) 1%Q
      (snap_to_pixels params) in
  let fill_img := fill_patch src path a0 params marker_tr in
  let stroke_img := stroke_patch src path a0 params marker_tr in
  let r := lookup_or_render src path a0 params marker_tr w in
  (StdMap.find key (cached_images_ w) = None ->
   fst (fst r) = (fill_img, stroke_img) /\
   StdMap.find key (cached_images_ (snd (fst r)))
   = Some (fill_img, stroke_img))
  /\ (all_zero (rendered [set_stroke_off a0]) = true -> fill_img = None)
  /\ (all_zero (rendered [set_fill_off a0]) = true -> stroke_img = None)
  /\ (forall img, fill_img = Some img -> all_zero img = false)
  /\ (forall img, stroke_img = Some img -> all_zero img = false)
  /\ (forall tr p w0, blit None tr p w0 = (w0, []))
  /\ (fst (fst r) = (None, None) ->
      buf_ (fst (render_cached src path a0 params marker_tr w)) = buf_ w
      /\ forall i tr,
           ~ In (RenderRasterMarker i tr)
               (snd (render_cached src path a0 params marker_tr w))).
Proof.
  intros key margin cw ch rendered fill_img stroke_img r.
  split; [|split; [|split; [|split; [|split; [|split]]]]].
  - intros Hnone.
    destruct (lookup_or_render_miss src path a0 params marker_tr w Hnone)
      as (Hp & Hc & _).
    split; [exact Hp|].
    subst r. rewrite Hc.
    apply StdMapFacts.find_emplace_new.
    apply StdMapFacts.find_evict_None. exact Hnone.
  - intros Hz. subst fill_img. unfold fill_patch.
    destruct (fill_active a0); [|reflexivity].
    apply render_patch_all_zero. exact Hz.
  - intros Hz. subst stroke_img. unfold stroke_patch.
    destruct (stroke_active a0); [|reflexivity].
    apply render_patch_all_zero. exact Hz.
  - intros img. subst fill_img. unfold fill_patch.
    destruct (fill_active a0); [|discriminate].
    apply render_patch_not_all_zero.
  - intros img. subst stroke_img. unfold stroke_patch.
    destruct (stroke_active a0); [|discriminate].
    apply render_patch_not_all_zero.
  - reflexivity.
  - intros Habsent.
    pose proof (render_cached_calls src path a0 params marker_tr w) as Hcalls.
    pose proof (render_cached_world src path a0 params marker_tr w) as Hw.
    simpl in Hcalls, Hw. fold r in Hcalls, Hw.
    rewrite Habsent in Hcalls, Hw. simpl in Hcalls, Hw.
    rewrite app_nil_r in Hcalls.
    split.
    + rewrite Hw. apply lookup_or_render_buf.
    + intros i tr. rewrite Hcalls. apply lookup_or_render_no_blit.
Qed.

End TransparentPatches.

(** ** The attribute cache *)

Section AttributeCache.
Context `{Collaborators}.

Lemma properties_cacheable_iff (sym : markers_symbolizer) :
  properties_cacheable sym = true <->
  (forall k v, properties sym !! k = Some v -> is_expression v = false).
Proof.
  unfold properties_cacheable. rewrite forallb_forall. split.
  - intros Hall k v Hkv.
    specialize (Hall (k, v)). simpl in Hall.
    apply negb_true_iff. apply Hall.
    apply list_elem_of_In. apply elem_of_map_to_list. exact Hkv.
  - intros Hall [k v] Hin. simpl.
    apply negb_true_iff. apply (Hall k).
    apply elem_of_map_to_list. apply list_elem_of_In. exact Hin.
Qed.

Lemma lookup_attributes_Some sym w attrs :
  lookup_attributes sym w = Some attrs <->
  exists props,
    StdMap.find (sym_address sym) (cached_attributes_ w)
    = Some (attrs, props)
    /\ props = properties sym.
Proof.
  unfold lookup_attributes.
  destruct (StdMap.find (sym_address sym) (cached_attributes_ w))
    as [[a props]|].
  - destruct (bool_decide_reflect (props = properties sym)) as [E|NE].
    + split.
      * intros Hs. inversion Hs; subst. eauto.
      * intros (p & Hp & _). inversion Hp; subst. reflexivity.
    + split; [discriminate|].
      intros (p & Hp & Heq). inversion Hp; subst. contradiction.
  - split; [discriminate|]. intros (p & Hp & _). discriminate.
Qed.

Lemma resolve_attributes_hit sym feature common stock w attrs :
  lookup_attributes sym w = Some attrs ->
  resolve_attributes sym feature common stock w
  = (attrs, w, [CachedAttributesFind (sym_address sym)]).
Proof. intros Hl. unfold resolve_attributes. rewrite Hl. reflexivity. Qed.

Lemma resolve_attributes_miss sym feature common stock w :
  lookup_attributes sym w = None ->
  let fresh := get_marker_attributes stock sym feature common in
  resolve_attributes sym feature common stock w
  = if properties_cacheable sym then
      (fresh,
       set_cached_attributes w
         (StdMap.assign (sym_address sym) (fresh, properties sym)
            (StdMap.evict attributes_cache_size (cached_attributes_ w))),
       [CachedAttributesFind (sym_address sym);
        CachedAttributesAssign (sym_address sym)])
    else (fresh, w, [CachedAttributesFind (sym_address sym)]).
Proof. intros Hl. unfold resolve_attributes. rewrite Hl. reflexivity. Qed.

(** What a lookup sees after an insertion under the same address. *)
Lemma lookup_after_insert sym w attrs props' :
  lookup_attributes (mk_symbolizer (sym_address sym) props')
    (set_cached_attributes w
       (StdMap.assign (sym_address sym) (attrs, properties sym)
          (StdMap.evict attributes_cache_size (cached_attributes_ w))))
  = if bool_decide (properties sym = props') then Some attrs else None.
Proof.
  unfold lookup_attributes; simpl.
  rewrite StdMapFacts.find_assign. reflexivity.
Qed.

(** C5. A lookup in the attribute cache returns a stored attribute set
    only when the property map stored with it equals the current
    property map of the symbolizer; the stored map is the one the
    symbolizer had when the entry was inserted, so that a symbolizer at
    the same address with any other property map misses, and a fresh
    resolution is computed for it. *)
Theorem attribute_cache_hit_needs_equal_properties
    sym feature common stock w :
  (forall attrs,
      lookup_attributes sym w = Some attrs <->
      exists props,
        StdMap.find (sym_address sym) (cached_attributes_ w)
        = Some (attrs, props)
        /\ props = properties sym)
  /\ (forall attrs,
        lookup_attributes sym w = Some attrs ->
        fst (fst (resolve_attributes sym feature common stock w)) = attrs)
  /\ (lookup_attributes sym w = None ->
      fst (fst (resolve_attributes sym feature common stock w))
      = get_marker_attributes stock sym feature common)
  /\ (lookup_attributes sym w = None ->
      properties_cacheable sym = true ->
      let w1 := snd (fst (resolve_attributes sym feature common stock w)) in
      forall props',
        let sym' := mk_symbolizer (sym_address sym) props' in
        (props' = properties sym ->
         lookup_attributes sym' w1
         = Some (get_marker_attributes stock sym feature common))
        /\ (props' <> properties sym ->
            lookup_attributes sym' w1 = None
            /\ fst (fst (resolve_attributes sym' feature common stock w1))
               = get_marker_attributes stock sym' feature common)).
Proof.
  split; [|split; [|split]].
  - intros attrs. apply lookup_attributes_Some.
  - intros attrs Hl. rewrite (resolve_attributes_hit _ _ _ _ _ _ Hl).
    reflexivity.
  - intros Hl. rewrite (resolve_attributes_miss _ _ _ _ _ Hl).
    destruct (properties_cacheable sym); reflexivity.
  - intros Hl Hc w1 props' sym'. subst w1.
    rewrite (resolve_attributes_miss _ _ _ _ _ Hl), Hc. simpl.
    subst sym'. rewrite lookup_after_insert.
    destruct (bool_decide_reflect (properties sym = props')) as [E|NE].
    + split; [reflexivity|]. intros Hne. congruence.
    + split; [intros E; congruence|]. intros _.
      split; [reflexivity|].
      rewrite resolve_attributes_miss.
      * destruct (properties_cacheable
                    (mk_symbolizer (sym_address sym) props'));
          reflexivity.
      * rewrite lookup_after_insert.
        rewrite (bool_decide_eq_false_2 _ NE). reflexivity.
Qed.

(** C6. When the lookup misses, the freshly resolved attribute set is
    what the render uses, and it is stored under the address of the
    symbolizer exactly when no property of the symbolizer is an
    expression; with an expression among the properties the caches are
    left as they were. *)
Theorem fresh_attributes_cached_iff_no_expression
    sym feature common stock w :
  lookup_attributes sym w = None ->
  let r := resolve_attributes sym feature common stock w in
  let fresh := get_marker_attributes stock sym feature common in
  let literal :=
    forall k v, properties sym !! k = Some v -> is_expression v = false in
  fst (fst r) = fresh
  /\ (In (CachedAttributesAssign (sym_address sym)) (snd r) <-> literal)
  /\ (literal ->
      cached_attributes_ (snd (fst r))
      = StdMap.assign (sym_address sym) (fresh, properties sym)
          (StdMap.evict attributes_cache_size (cached_attributes_ w))
      /\ StdMap.find (sym_address sym) (cached_attributes_ (snd (fst r)))
         = Some (fresh, properties sym))
  /\ (~ literal -> snd (fst r) = w)
  /\ ((exists k e, properties sym !! k = Some (expression_ptr e)) ->
      snd (fst r) = w /\ snd r = [CachedAttributesFind (sym_address sym)]).
Proof.
  intros Hl r fresh literal. subst r.
  rewrite (resolve_attributes_miss _ _ _ _ _ Hl).
  fold fresh.
  destruct (properties_cacheable sym) eqn:Hc; simpl.
  - assert (Hlit : literal)
      by exact (proj1 (properties_cacheable_iff sym) Hc).
    split; [reflexivity|]. split; [|split; [|split]].
    + split; [intros _; exact Hlit|]. intros _. right. left. reflexivity.
    + intros _. split; [reflexivity|]. apply StdMapFacts.find_assign.
    + intros Hn. contradiction.
    + intros (k & e & Hk). specialize (Hlit k _ Hk). discriminate.
  - assert (Hnl : ~ literal).
    { intros Hlit.
      pose proof (proj2 (properties_cacheable_iff sym) Hlit). congruence. }
    split; [reflexivity|]. split; [|split; [|split]].
    + split; [|intros Hlit; contradiction].
      intros [Hx|[]]. discriminate.
    + intros Hlit. contradiction.
    + reflexivity.
    + intros _. split; reflexivity.
Qed.

End AttributeCache.

(** ** Bounded caches and eviction *)

Section CacheInvariant.
Context {K V : Type} `{StrictWeakOrder K}.
Implicit Types (k : K) (v : V) (m : StdMap.t K V).

Lemma sortedb_sorted m : sortedb m = true -> StdMap.sorted m.
Proof.
  induction m as [|[k v] r IH]; simpl; intros Hb; [constructor|].
  destruct r as [|[k' v'] r'].
  - repeat constructor.
  - apply andb_true_iff in Hb. destruct Hb as [Hlt Hr].
    specialize (IH Hr). constructor; [|exact IH].
    constructor; [exact Hlt|].
    inversion IH; subst.
    eapply StdMapFacts.Forall_less_trans; eauto.
Qed.

Lemma cache_wf_empty cap : cache_wf cap (StdMap.empty : StdMap.t K V).
Proof. split; [constructor|simpl; lia]. Qed.

Lemma cache_wf_emplace cap k v m :
  cache_wf cap m ->
  cache_wf cap (StdMap.emplace k v (StdMap.evict cap m)).
Proof.
  intros [Hs Hb]. split.
  - apply StdMapFacts.sorted_emplace, StdMapFacts.sorted_evict, Hs.
  - apply StdMapFacts.size_evict_emplace, Hb.
Qed.

Lemma cache_wf_assign cap k v m :
  cache_wf cap m ->
  cache_wf cap (StdMap.assign k v (StdMap.evict cap m)).
Proof.
  intros [Hs Hb]. split.
  - apply StdMapFacts.sorted_assign, StdMapFacts.sorted_evict, Hs.
  - apply StdMapFacts.size_evict_assign, Hb.
Qed.

(** An eviction removes the entry with the least key, and only it. *)
Lemma evict_over_capacity cap m :
  StdMap.sorted m -> (cap < StdMap.size m)%nat ->
  exists k0 v0 rest,
    m = (k0, v0) :: rest
    /\ StdMap.begin m = Some (k0, v0)
    /\ StdMap.evict cap m = rest
    /\ Forall (fun e => less k0 (fst e) = true) rest
    /\ StdMap.find k0 rest = None.
Proof.
  intros Hs Hlt.
  destruct (StdMapFacts.size_evict_over cap m Hlt) as [He _].
  destruct m as [|[k0 v0] rest]; [simpl in Hlt; lia|].
  exists k0, v0, rest.
  inversion Hs as [|? ? ? Hall Hr]; subst.
  repeat split; try assumption.
  clear - Hall H0. induction Hall as [|[k1 v1] r Hlt1 Hall IH]; simpl.
  - reflexivity.
  - simpl in Hlt1. rewrite (StdMapFacts.equivb_false_l _ _ Hlt1). exact IH.
Qed.

(** At the capacity itself nothing is evicted. *)
Lemma insert_at_capacity cap k v m :
  StdMap.size m = cap -> StdMap.find k m = None ->
  StdMap.evict cap m = m
  /\ StdMap.size (StdMap.emplace k v (StdMap.evict cap m)) = S cap
  /\ StdMap.size (StdMap.assign k v (StdMap.evict cap m)) = S cap.
Proof.
  intros Hsz Hnone.
  assert (He : StdMap.evict cap m = m)
    by (apply StdMapFacts.size_evict_at_most; lia).
  rewrite He. split; [reflexivity|]. split.
  - rewrite StdMapFacts.size_emplace_new by exact Hnone. lia.
  - rewrite StdMapFacts.size_assign_new by exact Hnone. lia.
Qed.
End CacheInvariant.

Section CachesOfTheWorld.
Context `{Collaborators}.

Lemma caches_wf_same (w w' : world) :
  cached_images_ w' = cached_images_ w ->
  cached_attributes_ w' = cached_attributes_ w ->
  cached_ellipses_ w' = cached_ellipses_ w ->
  caches_wf w -> caches_wf w'.
Proof. unfold caches_wf. intros -> -> -> Hw. exact Hw. Qed.

Lemma blit_caches_wf img tr params w :
  caches_wf w -> caches_wf (fst (blit img tr params w)).
Proof. apply caches_wf_same; destruct img; reflexivity. Qed.

Lemma lookup_or_render_caches_wf src path a0 params marker_tr w :
  caches_wf w ->
  caches_wf (snd (fst (lookup_or_render src path a0 params marker_tr w))).
Proof.
  intros (Hi & Ha & He). unfold lookup_or_render.
  destruct (StdMap.find (key_of src a0 marker_tr) (cached_images_ w))
    as [[f s]|]; simpl.
  - exact (conj Hi (conj Ha He)).
  - split; [|split; assumption]. simpl.
    apply cache_wf_emplace. exact Hi.
Qed.

Lemma render_marker_caches_wf src path attrs params marker_tr w :
  caches_wf w ->
  caches_wf (fst (render_marker src path attrs params marker_tr w)).
Proof.
  intros Hw.
  assert (Hu : caches_wf
                 (fst (render_uncached src path attrs params marker_tr w)))
    by (revert Hw; apply caches_wf_same; reflexivity).
  unfold render_marker.
  destruct attrs as [|a0 [|a1 rest]]; try exact Hu.
  destruct (cacheable marker_tr); [|exact Hu].
  rewrite render_cached_world. simpl.
  apply blit_caches_wf, blit_caches_wf, lookup_or_render_caches_wf, Hw.
Qed.

Lemma for_each_placement_caches_wf step placements w :
  (forall m w0, caches_wf w0 -> caches_wf (fst (step m w0))) ->
  caches_wf w ->
  caches_wf (fst (for_each_placement step placements w)).
Proof.
  intros Hstep. revert w.
  induction placements as [|m rest IH]; simpl; intros w Hw; [exact Hw|].
  pose proof (Hstep m w Hw) as H1.
  destruct (step m w) as [w1 c1]; simpl in H1.
  specialize (IH w1 H1).
  destruct (for_each_placement step rest w1) as [w2 c2]. exact IH.
Qed.

Lemma dispatch_placements_caches_wf sym feature common params step w :
  (forall m w0, caches_wf w0 -> caches_wf (fst (step m w0))) ->
  caches_wf w ->
  caches_wf (fst (dispatch_placements sym feature common params step w)).
Proof.
  intros Hstep Hw. unfold dispatch_placements.
  destruct (apply_markers_multi _ _ _ _ _ _ _) as [placements det].
  apply for_each_placement_caches_wf; [exact Hstep|].
  revert Hw. apply caches_wf_same; reflexivity.
Qed.

Lemma resolve_attributes_caches_wf sym feature common stock w :
  caches_wf w ->
  caches_wf (snd (fst (resolve_attributes sym feature common stock w))).
Proof.
  intros (Hi & Ha & He). unfold resolve_attributes.
  destruct (lookup_attributes sym w); [exact (conj Hi (conj Ha He))|].
  destruct (properties_cacheable sym); [|exact (conj Hi (conj Ha He))].
  simpl. split; [exact Hi|]. split; [|exact He]. simpl.
  apply cache_wf_assign. exact Ha.
Qed.

Lemma resolve_ellipse_hit sym feature common w marker_ptr :
  StdMap.find (ellipse_key_of sym feature common) (cached_ellipses_ w)
  = Some marker_ptr ->
  resolve_ellipse sym feature common w
  = (marker_ptr, w,
     [CachedEllipsesFind (ellipse_key_of sym feature common)]).
Proof. intros Hf. unfold resolve_ellipse. rewrite Hf. reflexivity. Qed.

Lemma resolve_ellipse_miss sym feature common w :
  StdMap.find (ellipse_key_of sym feature common) (cached_ellipses_ w)
  = None ->
  let r := resolve_ellipse sym feature common w in
  address (fst (fst r)) = next_address w
  /\ cached_ellipses_ (snd (fst r))
     = StdMap.emplace (ellipse_key_of sym feature common) (fst (fst r))
         (StdMap.evict ellipses_cache_size (cached_ellipses_ w))
  /\ cached_images_ (snd (fst r)) = cached_images_ w
  /\ cached_attributes_ (snd (fst r)) = cached_attributes_ w.
Proof.
  intros Hf. unfold resolve_ellipse. rewrite Hf.
  destruct (build_ellipse sym feature (vars_ common)) as [[path attrs] bbox].
  simpl. repeat split.
Qed.

Lemma resolve_ellipse_caches_wf sym feature common w :
  caches_wf w ->
  caches_wf (snd (fst (resolve_ellipse sym feature common w))).
Proof.
  intros (Hi & Ha & He).
  destruct (StdMap.find (ellipse_key_of sym feature common)
              (cached_ellipses_ w)) as [p|] eqn:Hf.
  - rewrite (resolve_ellipse_hit _ _ _ _ _ Hf). exact (conj Hi (conj Ha He)).
  - destruct (resolve_ellipse_miss sym feature common w Hf)
      as (_ & Hc & Himg & Hattr).
    unfold caches_wf. rewrite Hc, Himg, Hattr.
    split; [exact Hi|]. split; [exact Ha|].
    apply cache_wf_emplace. exact He.
Qed.

Lemma visit_svg_caches_wf filename sym feature common mark w :
  caches_wf w ->
  caches_wf (fst (visit_svg filename sym feature common mark w)).
Proof.
  intros Hw. unfold visit_svg.
  pose proof (resolve_attributes_caches_wf sym feature common mark w Hw)
    as H1.
  destruct (resolve_attributes sym feature common mark w)
    as [[r_attributes w1] c1]; simpl in H1.
  destruct (negb (String.eqb filename ellipse_uri)
            || negb (has_key sym k_width || has_key sym k_height)).
  - match goal with
    | |- context [dispatch_placements ?s ?f ?c ?p ?st ?w0] =>
        pose proof (dispatch_placements_caches_wf s f c p st w0) as Hd;
        destruct (dispatch_placements s f c p st w0) as [w3 c3]
    end.
    simpl in *. apply Hd; [|exact H1].
    intros m w0. apply render_marker_caches_wf.
  - pose proof (resolve_ellipse_caches_wf sym feature common w1 H1) as H2.
    destruct (resolve_ellipse sym feature common w1)
      as [[marker_ptr w2] c2]; simpl in H2.
    match goal with
    | |- context [dispatch_placements ?s ?f ?c ?p ?st ?w0] =>
        pose proof (dispatch_placements_caches_wf s f c p st w0) as Hd;
        destruct (dispatch_placements s f c p st w0) as [w3 c3]
    end.
    simpl in *. apply Hd; [|exact H2].
    intros m w0. apply render_marker_caches_wf.
Qed.

Lemma visit_rgba8_caches_wf sym feature common data bbox w :
  caches_wf w ->
  caches_wf (fst (visit_rgba8 sym feature common data bbox w)).
Proof.
  intros Hw. unfold visit_rgba8.
  apply dispatch_placements_caches_wf; [|exact Hw].
  intros m w0. apply caches_wf_same; reflexivity.
Qed.

(** The empty caches satisfy the invariant and every render keeps it. *)
Lemma render_markers_symbolizer_caches_wf sym feature common w :
  caches_wf w ->
  caches_wf (fst (render_markers_symbolizer sym feature common w)).
Proof.
  intros Hw. unfold render_markers_symbolizer.
  destruct (negb (is_empty _)); [|exact Hw].
  destruct (marker_cache_find _ true) as [|data|data bbox].
  - exact Hw.
  - pose proof (visit_svg_caches_wf
                  (get_string sym k_file feature (vars_ common) ellipse_uri)
                  sym feature common data w Hw) as Hv.
    destruct (visit_svg _ sym feature common data w). exact Hv.
  - pose proof (visit_rgba8_caches_wf sym feature common data bbox w Hw)
      as Hv.
    destruct (visit_rgba8 sym feature common data bbox w). exact Hv.
Qed.

(** C7. In each of the three caches, an insertion that evicts removes the
    first entry of the map, whose key is less than every other key of the
    cache, and then inserts into what remains; a hit changes nothing in
    the world, so that which entries were looked up has no bearing on
    what is evicted. *)
Theorem eviction_removes_the_least_key (w : world) :
  caches_wf w ->
  (forall src path a0 params marker_tr,
      let key := key_of src a0 marker_tr in
      let r := lookup_or_render src path a0 params marker_tr w in
      (StdMap.find key (cached_images_ w) = None ->
       (cache_size < StdMap.size (cached_images_ w))%nat ->
       exists k0 v0 rest,
         cached_images_ w = (k0, v0) :: rest
         /\ Forall (fun e => less k0 (fst e) = true) rest
         /\ cached_images_ (snd (fst r)) = StdMap.emplace key (fst (fst r)) rest
         /\ StdMap.find k0 (cached_images_ (snd (fst r))) = None)
      /\ (forall patches,
            StdMap.find key (cached_images_ w) = Some patches ->
            snd (fst r) = w))
  /\ (forall sym feature common stock,
        let r := resolve_attributes sym feature common stock w in
        (lookup_attributes sym w = None ->
         properties_cacheable sym = true ->
         (attributes_cache_size < StdMap.size (cached_attributes_ w))%nat ->
         exists k0 v0 rest,
           cached_attributes_ w = (k0, v0) :: rest
           /\ Forall (fun e => less k0 (fst e) = true) rest
           /\ cached_attributes_ (snd (fst r))
              = StdMap.assign (sym_address sym)
                  (fst (fst r), properties sym) rest)
        /\ (forall attrs,
              lookup_attributes sym w = Some attrs -> snd (fst r) = w))
  /\ (forall sym feature common,
        let key := ellipse_key_of sym feature common in
        let r := resolve_ellipse sym feature common w in
        (StdMap.find key (cached_ellipses_ w) = None ->
         (ellipses_cache_size < StdMap.size (cached_ellipses_ w))%nat ->
         exists k0 v0 rest,
           cached_ellipses_ w = (k0, v0) :: rest
           /\ Forall (fun e => less k0 (fst e) = true) rest
           /\ cached_ellipses_ (snd (fst r))
              = StdMap.emplace key (fst (fst r)) rest
           /\ StdMap.find k0 (cached_ellipses_ (snd (fst r))) = None)
        /\ (forall marker_ptr,
              StdMap.find key (cached_ellipses_ w) = Some marker_ptr ->
              snd (fst r) = w)).
Proof.
  intros ([Hsi _] & [Hsa _] & [Hse _]).
  split; [|split].
  - intros src path a0 params marker_tr key r. split.
    + intros Hnone Hover.
      destruct (evict_over_capacity cache_size _ Hsi Hover)
        as (k0 & v0 & rest & Hm & _ & Hev & Hall & Hk0).
      exists k0, v0, rest.
      destruct (lookup_or_render_miss src path a0 params marker_tr w Hnone)
        as (Hp & Hc & _).
      fold r in Hp, Hc. fold key in Hc.
      split; [exact Hm|]. split; [exact Hall|].
      rewrite Hc, Hev, Hp. split; [reflexivity|].
      assert (Hne : StdMap.equivb k0 key = false).
      { rewrite Hm in Hnone. simpl in Hnone.
        destruct (StdMap.equivb key k0) eqn:E; [discriminate|].
        unfold StdMap.equivb in *. rewrite andb_comm. exact E. }
      clear - Hk0 Hne H. revert Hk0.
      induction rest as [|[k1 v1] rest IH]; simpl.
      * rewrite Hne. reflexivity.
      * destruct (StdMap.equivb k0 k1) eqn:E1; [discriminate|].
        intros Hr.
        destruct (less key k1); simpl.
        -- rewrite Hne, E1. exact Hr.
        -- destruct (less k1 key); simpl; rewrite E1; auto.
    + intros patches Hf. subst r.
      rewrite (lookup_or_render_hit _ _ _ _ _ _ _ Hf). reflexivity.
  - intros sym feature common stock r. split.
    + intros Hnone Hc Hover.
      destruct (evict_over_capacity attributes_cache_size _ Hsa Hover)
        as (k0 & v0 & rest & Hm & _ & Hev & Hall & _).
      exists k0, v0, rest.
      split; [exact Hm|]. split; [exact Hall|].
      subst r. rewrite (resolve_attributes_miss _ _ _ _ _ Hnone), Hc.
      simpl. rewrite Hev. reflexivity.
    + intros attrs Hl. subst r.
      rewrite (resolve_attributes_hit _ _ _ _ _ _ Hl). reflexivity.
  - intros sym feature common key r. split.
    + intros Hnone Hover.
      destruct (evict_over_capacity ellipses_cache_size _ Hse Hover)
        as (k0 & v0 & rest & Hm & _ & Hev & Hall & Hk0).
      exists k0, v0, rest.
      destruct (resolve_ellipse_miss sym feature common w Hnone)
        as (_ & Hc & _).
      fold r in Hc. fold key in Hc.
      split; [exact Hm|]. split; [exact Hall|].
      rewrite Hc, Hev. split; [reflexivity|].
      assert (Hne : StdMap.equivb k0 key = false).
      { fold key in Hnone. rewrite Hm in Hnone. simpl in Hnone.
        destruct (StdMap.equivb key k0) eqn:E; [discriminate|].
        unfold StdMap.equivb in *. rewrite andb_comm. exact E. }
      generalize (fst (fst r)). intros v.
      clear - Hk0 Hne H. revert Hk0.
      induction rest as [|[k1 v1] rest IH]; simpl.
      * rewrite Hne. reflexivity.
      * destruct (StdMap.equivb k0 k1) eqn:E1; [discriminate|].
        intros Hr.
        destruct (less key k1); simpl.
        -- rewrite Hne, E1. exact Hr.
        -- destruct (less k1 key); simpl; rewrite E1; auto.
    + intros marker_ptr Hf. subst r.
      rewrite (resolve_ellipse_hit _ _ _ _ _ Hf). reflexivity.
Qed.

End CachesOfTheWorld.

(** ** The entry point *)

Section EntryPoint.
Context `{Collaborators}.

Lemma is_empty_iff (s : string) : is_empty s = true <-> s = EmptyString.
Proof. destruct s; simpl; split; congruence. Qed.

(** C10. When the file property evaluates to the empty string the render
    returns at once: the world, with its caches and its destination
    buffer, is untouched, and no call is made, not even on the marker
    registry.  Any other file name is looked up in the registry first.
    A symbolizer without the file key gets the ellipse name, which is not
    empty, so that only a value that is present and evaluates to the empty
    string is skipped. *)
Theorem empty_file_name_renders_nothing sym feature common w :
  let filename :=
    get_string sym k_file feature (vars_ common) ellipse_uri in
  (filename = EmptyString ->
   render_markers_symbolizer sym feature common w = (w, []))
  /\ (filename <> EmptyString ->
      exists calls,
        snd (render_markers_symbolizer sym feature common w)
        = MarkerCacheFind filename :: calls)
  /\ (properties sym !! k_file = None ->
      filename = ellipse_uri /\ filename <> EmptyString)
  /\ (filename = EmptyString ->
      exists v, properties sym !! k_file = Some v
                /\ extract_string feature (vars_ common) v = EmptyString).
Proof.
  intros filename. split; [|split; [|split]].
  - intros He. unfold render_markers_symbolizer. fold filename.
    rewrite He. reflexivity.
  - intros Hne. unfold render_markers_symbolizer. fold filename.
    destruct (is_empty filename) eqn:E.
    + apply is_empty_iff in E. contradiction.
    + simpl.
      destruct (match marker_cache_find filename true with
                | marker_null => (w, [])
                | marker_svg data =>
                    visit_svg filename sym feature common data w
                | marker_rgba8 data bbox =>
                    visit_rgba8 sym feature common data bbox w
                end) as [w1 c1].
      exists c1. reflexivity.
  - intros Hnone. subst filename. unfold get_string. rewrite Hnone.
    split; [reflexivity|discriminate].
  - intros He. subst filename. unfold get_string in *.
    destruct (properties sym !! k_file) as [v|].
    + exists v. split; [reflexivity|exact He].
    + discriminate.
Qed.

End EntryPoint.

(** ** The interior point of degenerate polygons *)

Module InteriorFacts.
Import Interior.

Lemma min_le_l a b : (Dbl.min a b <= a)%Q.
Proof.
  unfold Dbl.min. destruct (Dbl.ltb b a) eqn:E.
  - apply DblFacts.ltb_true in E. lra.
  - lra.
Qed.

Lemma max_ge_l a b : (a <= Dbl.max a b)%Q.
Proof.
  unfold Dbl.max. destruct (Dbl.ltb a b) eqn:E.
  - apply DblFacts.ltb_true in E. lra.
  - lra.
Qed.

Lemma expand_valid b p : valid b -> valid (expand_to_include b p).
Proof.
  intros [Hx Hy]. unfold valid, expand_to_include; simpl.
  pose proof (min_le_l (minx b) (px p)).
  pose proof (max_ge_l (maxx b) (px p)).
  pose proof (min_le_l (miny b) (py p)).
  pose proof (max_ge_l (maxy b) (py p)).
  split; lra.
Qed.

Lemma fold_expand_valid ring b :
  valid b -> valid (fold_left expand_to_include ring b).
Proof.
  revert b. induction ring as [|p rest IH]; simpl; intros b Hb; [exact Hb|].
  apply IH. apply expand_valid. exact Hb.
Qed.

(** The bounding box of a ring with a vertex is valid; that of the empty
    ring has a negative width and a negative height. *)
Lemma envelope_cases (ring : linear_ring) :
  valid (envelope ring)
  \/ ((width (envelope ring) < 0)%Q /\ (height (envelope ring) < 0)%Q).
Proof.
  destruct ring as [|p rest]; simpl.
  - right. unfold width, height, default_box; simpl.
    split; reflexivity.
  - left. apply fold_expand_valid. split; simpl; lra.
Qed.

Lemma div_by_two (n : Q) : div n 2 = Ok (n / 2)%Q.
Proof. reflexivity. Qed.

(** Past the guard the fitness divides by the larger side of the box:
    with a box of no extent it would divide by zero for any point inside
    the polygon. *)
Lemma fitness_of_empty_box_divides_by_zero sqrt (c0 p : point) (d0 : Q) :
  (0 < d0)%Q ->
  apply_fitness sqrt (make_fitness c0 (mk_point 0%Q 0%Q)) p d0
  = DivisionByZero.
Proof.
  intros Hd. unfold apply_fitness.
  destruct (Dbl.leb d0 0%Q) eqn:E.
  - apply Qle_bool_iff in E. lra.
  - reflexivity.
Qed.

Section Degenerate.
Variable sqrt : Q -> Q.
Variable centroid : polygon -> option point.

(** C9. For a polygon whose bounding box has zero width or zero
    height, [polylabel] returns the minimum corner of the bounding
    box; it does so with any amount of fuel, none included, and
    without a division by zero. *)
Theorem polylabel_of_degenerate_box_is_min_corner
    (fuel : nat) (poly : polygon) (precision : Q) :
  let bbox := envelope (exterior_ring poly) in
  (width bbox == 0 \/ height bbox == 0)%Q ->
  polylabel sqrt centroid fuel poly precision
  = Ok (mk_point (minx bbox) (miny bbox))
  /\ polylabel sqrt centroid fuel poly precision <> DivisionByZero
  /\ interior sqrt centroid fuel poly precision
     = Ok (mk_point (minx bbox) (miny bbox)).
Proof.
  intros bbox Hz.
  assert (Hcell : (Dbl.min (width bbox) (height bbox) == 0)%Q).
  { destruct (envelope_cases (exterior_ring poly)) as [[Hx Hy]|[Hw Hh]].
    - apply DblFacts.min_zero; [| |exact Hz].
      + unfold width. fold bbox in Hx. lra.
      + unfold height. fold bbox in Hy. lra.
    - fold bbox in Hw, Hh. destruct Hz as [Hz|Hz]; lra. }
  assert (Hp : forall prec,
             polylabel sqrt centroid fuel poly prec
             = Ok (mk_point (minx bbox) (miny bbox))).
  { intros prec. unfold polylabel. fold bbox. simpl px. simpl py.
    rewrite div_by_two. simpl.
    apply DblFacts.eqb_true in Hcell. rewrite Hcell. reflexivity. }
  split; [apply Hp|]. split; [rewrite Hp; discriminate|].
  unfold interior. apply Hp.
Qed.
End Degenerate.

End InteriorFacts.

(** ** The interior point: what the search never does *)

Module PolylabelFacts.
Import Interior.
Local Open Scope Q_scope.

Lemma div_ok (n d : Q) : ~ (d == 0)%Q -> div n d = Ok (n / d)%Q.
Proof.
intros Hd. unfold div.
destruct (Dbl.eqb d 0) eqn:E; [|reflexivity].
apply DblFacts.eqb_true in E. contradiction.
Qed.

Lemma neqb_true (a b : Q) : Dbl.neqb a b = true <-> ~ (a == b)%Q.
Proof.
unfold Dbl.neqb. rewrite negb_true_iff.
split.
- intros E Heq. apply Qeq_bool_iff in Heq. congruence.
- intros Hne. destruct (Qeq_bool a b) eqn:E; [|reflexivity].
apply Qeq_bool_iff in E. contradiction.
Qed.

Lemma gtb_true (a b : Q) : Dbl.gtb a b = true <-> (b < a)%Q.
Proof. unfold Dbl.gtb. apply DblFacts.ltb_true. Qed.

Lemma gtb_false (a b : Q) : Dbl.gtb a b = false <-> (a <= b)%Q.
Proof. unfold Dbl.gtb. apply DblFacts.ltb_false. Qed.

Lemma leb_true (a b : Q) : Dbl.leb a b = true <-> (a <= b)%Q.
Proof. unfold Dbl.leb. apply Qle_bool_iff. Qed.

Lemma sum_squares_zero (x y : Q) :
(x * x + y * y == 0)%Q -> (x == 0)%Q /\ (y == 0)%Q.
Proof.
intros Hs.
assert (0 <= x * x)%Q by nra.
assert (0 <= y * y)%Q by nra.
assert (Hx : (x * x == 0)%Q) by lra.
assert (Hy : (y * y == 0)%Q) by lra.
split.
- destruct (Qmult_integral _ _ Hx); assumption.
- destruct (Qmult_integral _ _ Hy); assumption.
Qed.

Section Search.
Variable sqrt : Q -> Q.
Variable centroid : polygon -> option point.

(** The distance to a segment is always computed: the division is
guarded by the test that the segment has two distinct ends. *)
Lemma segment_dist_sq_ok (p a b : point) :
exists r, segment_dist_sq p a b = Ok r.
Proof.
unfold segment_dist_sq.
destruct (Dbl.neqb (px b - px a) 0 || Dbl.neqb (py b - py a) 0) eqn:E.
- rewrite div_ok.
+ simpl.
destruct (Dbl.gtb _ 1); [simpl; eauto|].
destruct (Dbl.gtb _ 0); simpl; eauto.
+ intros Hz. apply sum_squares_zero in Hz. destruct Hz as [Hx Hy].
apply orb_true_iff in E. destruct E as [E|E];
  apply neqb_true in E; contradiction.
- simpl. eauto.
Qed.

Lemma ring_step_ok (p a b : point) (st : bool * option Q) :
exists inside m, ring_step p a b st = Ok (inside, Some m).
Proof.
unfold ring_step. destruct st as [inside min_dist_sq].
destruct (segment_dist_sq_ok p a b) as [r Hr].
destruct (xorb (Dbl.gtb (py a) (py p)) (Dbl.gtb (py b) (py p))) eqn:E.
- rewrite div_ok.
+ simpl. rewrite Hr. simpl.
destruct min_dist_sq; simpl; eauto.
+ intros Hz.
assert (Heq : Dbl.gtb (py a) (py p) = Dbl.gtb (py b) (py p)).
{ destruct (Dbl.gtb (py b) (py p)) eqn:Eb.
  - apply gtb_true in Eb. apply gtb_true. lra.
  - apply gtb_false in Eb. apply gtb_false. lra. }
rewrite Heq in E. rewrite xorb_nilpotent in E. discriminate.
- simpl. rewrite Hr. simpl. destruct min_dist_sq; simpl; eauto.
Qed.

Lemma ring_loop_ok (p b : point) (ring : list point) (st : bool * option Q) :
exists inside m,
ring_loop p b ring st = Ok (inside, m)
/\ (ring <> [] \/ is_Some (snd st) -> is_Some m)
/\ (ring = [] -> m = snd st).
Proof.
revert b st. induction ring as [|a rest IH]; intros b st; simpl.
- destruct st as [inside m]. exists inside, m. simpl.
split; [reflexivity|]. split; [|reflexivity].
intros [Hne|Hs]; [contradiction|exact Hs].
- destruct (ring_step_ok p a b st) as (i1 & m1 & H1).
rewrite H1. simpl.
destruct (IH a (i1, Some m1)) as (i2 & m2 & H2 & Hsome & _).
exists i2, m2. split; [exact H2|]. split; [|discriminate].
intros _. apply Hsome. right. simpl. eauto.
Qed.

Lemma point_to_ring_dist_ok (p : point) (ring : linear_ring)
(st : bool * option Q) :
exists inside m,
point_to_ring_dist p ring st = Ok (inside, m)
/\ (ring <> [] \/ is_Some (snd st) -> is_Some m)
/\ (ring = [] -> m = snd st).
Proof.
unfold point_to_ring_dist. destruct ring as [|a rest].
- destruct st as [inside m]. exists inside, m. simpl.
split; [reflexivity|]. split; [|reflexivity].
intros [Hne|Hs]; [contradiction|exact Hs].
- apply ring_loop_ok.
Qed.

Lemma rings_loop_ok (p : point) (rings : list linear_ring)
(st : bool * option Q) :
exists inside m,
rings_loop p rings st = Ok (inside, m)
/\ (is_Some m <-> Exists (fun r => r <> []) rings \/ is_Some (snd st)).
Proof.
revert st. induction rings as [|ring rest IH]; intros st; simpl.
- destruct st as [inside m]. exists inside, m. simpl.
split; [reflexivity|]. split; [auto|].
intros [Hex|Hs]; [inversion Hex|exact Hs].
- destruct (point_to_ring_dist_ok p ring st) as (i1 & m1 & H1 & Hs1 & He1).
rewrite H1. simpl.
destruct (IH (i1, m1)) as (i2 & m2 & H2 & Hiff).
exists i2, m2. split; [exact H2|]. rewrite Hiff. simpl.
split.
+ intros [Hex|Hm1].
* left. apply Exists_cons_tl. exact Hex.
* destruct ring as [|a r].
  -- right. rewrite <- (He1 eq_refl). exact Hm1.
  -- left. apply Exists_cons_hd. discriminate.
+ intros [Hex|Hst].
* inversion Hex; subst.
  -- right. apply Hs1. left. assumption.
  -- left. assumption.
* right. apply Hs1. right. exact Hst.
Qed.

Lemma point_to_polygon_dist_quiet (p : point) (poly : polygon) :
point_to_polygon_dist sqrt p poly <> DivisionByZero.
Proof.
unfold point_to_polygon_dist.
destruct (point_to_ring_dist_ok p (exterior_ring poly) (false, None))
as (i1 & m1 & H1 & _). rewrite H1. simpl.
destruct (rings_loop_ok p (interior_rings poly) (i1, m1))
as (i2 & m2 & H2 & _). rewrite H2. simpl.
destruct m2; discriminate.
Qed.

(** X1. In exact arithmetic, where no operation overflows or underflows,
the signed distance from a point to a polygon is a number exactly when
some ring of the polygon has a vertex; for a polygon without any vertex
the minimum stays at infinity and the distance is not finite. No
division by zero occurs on the way: the division of the crossing test
is reached only when the two ends of the edge lie on different sides of
the horizontal through the point. *)
Theorem distance_to_polygon_is_finite_iff_a_ring_has_a_vertex
(p : point) (poly : polygon) :
let has_vertex :=
exterior_ring poly <> []
\/ Exists (fun r => r <> []) (interior_rings poly) in
(has_vertex <-> exists d, point_to_polygon_dist sqrt p poly = Ok d)
/\ (~ has_vertex <-> point_to_polygon_dist sqrt p poly = NotFinite)
/\ point_to_polygon_dist sqrt p poly <> DivisionByZero.
Proof.
intros has_vertex. unfold point_to_polygon_dist.
destruct (point_to_ring_dist_ok p (exterior_ring poly) (false, None))
as (i1 & m1 & H1 & Hs1 & He1).
rewrite H1. simpl.
destruct (rings_loop_ok p (interior_rings poly) (i1, m1))
as (i2 & m2 & H2 & Hiff).
rewrite H2. simpl. simpl in Hiff.
assert (Hv : has_vertex <-> is_Some m2).
{ rewrite Hiff. subst has_vertex. split.
- intros [Hne|Hex]; [right; apply Hs1; left; exact Hne|left; exact Hex].
- intros [Hex|Hm1]; [right; exact Hex|].
left. intros Hnil. rewrite (He1 Hnil) in Hm1. simpl in Hm1.
destruct Hm1 as [x Hx]. discriminate. }
destruct m2 as [m|].
- split; [|split; [|discriminate]].
+ split; [eauto|]. intros _. apply Hv. eauto.
+ split; [|discriminate]. intros Hn. exfalso. apply Hn, Hv. eauto.
- split; [|split; [|discriminate]].
+ split.
* intros Hh. apply Hv in Hh. destruct Hh as [x Hx]. discriminate.
* intros [d0 Hd]. discriminate.
+ split; [reflexivity|]. intros _ Hh. apply Hv in Hh.
destruct Hh as [x Hx]. discriminate.
Qed.

Lemma bind_not_div {A B : Type} (m : outcome A) (f : A -> outcome B) :
m <> DivisionByZero ->
(forall a, m = Ok a -> f a <> DivisionByZero) ->
(m ≫= f) <> DivisionByZero.
Proof.
intros Hm Hf. destruct m; simpl; try discriminate; auto.
Qed.

Lemma apply_fitness_ok (ff : fitness_functor) (cc : point) (d0 : Q) :
~ (max_size ff == 0) -> exists r, apply_fitness sqrt ff cc d0 = Ok r.
Proof.
intros Hm. unfold apply_fitness.
destruct (Dbl.leb d0 0); [eauto|].
rewrite div_ok by exact Hm. simpl. eauto.
Qed.

Lemma make_cell_not_div (cc : point) (h0 : Q) (poly : polygon)
(ff : fitness_functor) :
~ (max_size ff == 0) ->
(exists cl, make_cell sqrt cc h0 poly ff = Ok cl)
\/ make_cell sqrt cc h0 poly ff = NotFinite.
Proof.
intros Hm. unfold make_cell.
destruct (point_to_polygon_dist sqrt cc poly) as [d0| | |] eqn:Hd.
- simpl.
destruct (apply_fitness_ok ff cc d0 Hm) as [f Hf]. rewrite Hf. simpl.
destruct (apply_fitness_ok ff cc (d0 + h0 * sqrt 2) Hm) as [mf Hmf].
rewrite Hmf. simpl. left. eauto.
- exfalso. exact (point_to_polygon_dist_quiet cc poly Hd).
- right. reflexivity.
- exfalso. revert Hd. unfold point_to_polygon_dist.
destruct (point_to_ring_dist_ok cc (exterior_ring poly) (false, None))
as (i1 & m1 & H1 & _). rewrite H1. simpl.
destruct (rings_loop_ok cc (interior_rings poly) (i1, m1))
as (i2 & m2 & H2 & _). rewrite H2. simpl.
destruct m2; discriminate.
Qed.

Lemma make_cell_quiet (cc : point) (h0 : Q) (poly : polygon)
(ff : fitness_functor) :
~ (max_size ff == 0) -> make_cell sqrt cc h0 poly ff <> DivisionByZero.
Proof.
intros Hm. destruct (make_cell_not_div cc h0 poly ff Hm) as [[cl ->]| ->];
discriminate.
Qed.

Lemma cover_y_quiet (fuel : nat) (x y : Q) (bbox : box2d) (cell_size h0 : Q)
(poly : polygon) (ff : fitness_functor) (queue : list cell) :
~ (max_size ff == 0) ->
cover_y sqrt fuel x y bbox cell_size h0 poly ff queue <> DivisionByZero.
Proof.
intros Hm. revert y queue.
induction fuel as [|fuel IH]; intros y queue; simpl;
destruct (Dbl.ltb y (maxy bbox)); try discriminate.
apply bind_not_div; [apply make_cell_quiet; exact Hm|].
intros cl _. apply IH.
Qed.

Lemma cover_x_quiet (fuel : nat) (x : Q) (bbox : box2d) (cell_size h0 : Q)
(poly : polygon) (ff : fitness_functor) (queue : list cell) :
~ (max_size ff == 0) ->
cover_x sqrt fuel x bbox cell_size h0 poly ff queue <> DivisionByZero.
Proof.
intros Hm. revert x queue.
induction fuel as [|fuel IH]; intros x queue; simpl;
destruct (Dbl.ltb x (maxx bbox)); try discriminate.
apply bind_not_div; [apply cover_y_quiet; exact Hm|].
intros q _. apply IH.
Qed.

Lemma search_quiet (fuel : nat) (precision : Q) (poly : polygon)
(ff : fitness_functor) (queue : list cell) (best : cell) :
~ (max_size ff == 0) ->
search sqrt fuel precision poly ff queue best <> DivisionByZero.
Proof.
intros Hm. revert queue best.
induction fuel as [|fuel IH]; intros queue best; simpl;
destruct (pop_top queue) as [[current rest]|]; try discriminate.
destruct (Dbl.leb _ precision); [apply IH|].
repeat (apply bind_not_div; [apply make_cell_quiet; exact Hm|]; intros ? _).
apply IH.
Qed.

(** Past the guard the larger side of the box is not zero. *)
Lemma max_size_not_zero (ring : linear_ring) :
let bbox := envelope ring in
~ (Dbl.min (width bbox) (height bbox) == 0) ->
~ (Dbl.max (width bbox) (height bbox) == 0).
Proof.
intros bbox Hmin Hmax.
destruct (InteriorFacts.envelope_cases ring) as [[Hx Hy]|[Hw Hh]];
fold bbox in Hx, Hy || fold bbox in Hw, Hh.
- assert (0 <= width bbox) by (unfold width; lra).
assert (0 <= height bbox) by (unfold height; lra).
revert Hmin Hmax. unfold Dbl.min, Dbl.max.
destruct (Dbl.ltb (height bbox) (width bbox)) eqn:E1;
destruct (Dbl.ltb (width bbox) (height bbox)) eqn:E2;
try apply DblFacts.ltb_true in E1; try apply DblFacts.ltb_true in E2;
try apply DblFacts.ltb_false in E1; try apply DblFacts.ltb_false in E2;
intros; lra.
- revert Hmax. unfold Dbl.max.
destruct (Dbl.ltb (width bbox) (height bbox)); lra.
Qed.

(** X2. In exact arithmetic the search for the interior point never
divides by zero, whatever the polygon, the precision and the number of
steps: the division by the squared length of a segment is guarded by
the test that its ends differ, the division of the crossing test by
the test that the ends lie on different sides, and the division by the
larger side of the bounding box is reached only past the return for a
box whose smaller side is zero. *)
Theorem polylabel_never_divides_by_zero
(fuel : nat) (poly : polygon) (precision scale_factor : Q) :
polylabel sqrt centroid fuel poly precision <> DivisionByZero
/\ interior sqrt centroid fuel poly scale_factor <> DivisionByZero.
Proof.
assert (Hp : forall prec,
       polylabel sqrt centroid fuel poly prec <> DivisionByZero).
{ intros prec. unfold polylabel.
rewrite div_ok by (intros E; discriminate E). simpl.
destruct (Dbl.eqb _ 0) eqn:Ez; [discriminate|].
destruct (centroid poly) as [c0|]; [|discriminate].
assert (Hm : ~ (max_size
                (make_fitness c0
                   (mk_point (width (envelope (exterior_ring poly)))
                      (height (envelope (exterior_ring poly))))) == 0)).
{ simpl. apply max_size_not_zero. intros Hz.
apply DblFacts.eqb_true in Hz. simpl in Ez. congruence. }
apply bind_not_div; [apply cover_x_quiet; exact Hm|]. intros q _.
apply bind_not_div; [apply make_cell_quiet; exact Hm|]. intros b _.
apply search_quiet. exact Hm. }
split; [apply Hp|]. unfold interior. apply Hp.
Qed.

(** X3. When the bounding box of the exterior ring has no side of length
zero and the polygon has no centroid, the interior point is the centre
of the bounding box, found without any search; for a ring with a vertex
that centre lies within the box. *)
Theorem polylabel_without_centroid_is_box_centre
(fuel : nat) (poly : polygon) (precision : Q) :
let bbox := envelope (exterior_ring poly) in
centroid poly = None ->
~ (Dbl.min (width bbox) (height bbox) == 0) ->
polylabel sqrt centroid fuel poly precision
= Ok (mk_point (fst (center bbox)) (snd (center bbox)))
/\ (exterior_ring poly <> [] ->
  minx bbox <= fst (center bbox) <= maxx bbox
  /\ miny bbox <= snd (center bbox) <= maxy bbox).
Proof.
intros bbox Hc Hmin. split.
- unfold polylabel. fold bbox.
rewrite div_ok by (intros E; discriminate E). simpl.
destruct (Dbl.eqb _ 0) eqn:Ez.
+ apply DblFacts.eqb_true in Ez. contradiction.
+ rewrite Hc. reflexivity.
- intros Hne.
assert (Hv : valid bbox).
{ subst bbox. destruct (exterior_ring poly) as [|p0 rest];
  [contradiction|].
simpl. apply InteriorFacts.fold_expand_valid. split; simpl; lra. }
destruct Hv as [Hx Hy]. unfold center; simpl.
split; split.
+ apply Qle_shift_div_l; lra.
+ apply Qle_shift_div_r; lra.
+ apply Qle_shift_div_l; lra.
+ apply Qle_shift_div_r; lra.
Qed.

End Search.

(** X4. The queue of cells is ordered by their potential: taking the top
  fails exactly on the empty queue, and otherwise gives a cell whose
  potential no remaining cell exceeds, and leaves the other cells, each
  as often as it was queued. *)
Theorem pop_top_takes_a_greatest_cell (queue : list cell) :
(pop_top queue = None <-> queue = [])
/\ (forall top rest,
      pop_top queue = Some (top, rest) ->
      Permutation queue (top :: rest)
      /\ Forall (fun x => max_fitness x <= max_fitness top) rest).
Proof.
induction queue as [|a q IH]; simpl.
- split; [split; reflexivity|]. intros top rest Hs. discriminate.
- destruct IH as [Hnone Hsome].
split; [split; [|discriminate]|].
+ destruct (pop_top q) as [[b r]|]; [|discriminate].
  destruct (Dbl.ltb (max_fitness a) (max_fitness b)); discriminate.
+ intros top rest.
  destruct (pop_top q) as [[b r]|] eqn:Hq.
  * destruct (Hsome b r eq_refl) as [Hperm Hall].
    destruct (Dbl.ltb (max_fitness a) (max_fitness b)) eqn:E;
      intros Hs; inversion Hs; subst.
    -- apply DblFacts.ltb_true in E. split.
       ++ rewrite Hperm. apply perm_swap.
       ++ constructor; [lra|exact Hall].
    -- apply DblFacts.ltb_false in E. split; [reflexivity|].
       rewrite Hperm. constructor; [exact E|].
       eapply List.Forall_impl; [|exact Hall].
       intros x Hx. simpl in Hx. lra.
  * intros Hs. inversion Hs; subst.
    assert (q = []) as -> by (apply Hnone; reflexivity).
    split; [reflexivity|constructor].
Qed.

End PolylabelFacts.

Module SegmentFacts.
Import Interior.
Local Open Scope Q_scope.

Lemma sq_nonneg (q : Q) : 0 <= q * q.
Proof. nra. Qed.

(** X5. In exact arithmetic, where no operation rounds, the squared
  distance from a point to a segment is always computed and is not
  negative; it is at most the squared distance to either end of the
  segment, and for a segment whose ends coincide it is the squared
  distance to that point. *)
Theorem segment_dist_sq_is_at_most_the_distance_to_the_ends (p a b : point) :
exists r,
  segment_dist_sq p a b = Ok r
  /\ 0 <= r /\ r <= dist_sq p a /\ r <= dist_sq p b
  /\ (px a == px b -> py a == py b -> r == dist_sq p a).
Proof.
unfold segment_dist_sq, dist_sq.
destruct a as [ax ay], b as [bx by_], p as [x y]; simpl.
pose proof (sq_nonneg (bx - ax)) as Sdx.
pose proof (sq_nonneg (by_ - ay)) as Sdy.
destruct (Dbl.neqb (bx - ax) 0 || Dbl.neqb (by_ - ay) 0) eqn:E.
- assert (HL : ~ ((bx - ax) * (bx - ax) + (by_ - ay) * (by_ - ay) == 0)).
{ intros Hz. apply PolylabelFacts.sum_squares_zero in Hz.
  destruct Hz as [Hx Hy].
  apply orb_true_iff in E. destruct E as [E|E];
    apply PolylabelFacts.neqb_true in E; contradiction. }
rewrite PolylabelFacts.div_ok by exact HL. simpl.
assert (Hb : (x - bx) * (x - bx) + (y - by_) * (y - by_)
             == (x - ax) * (x - ax) + (y - ay) * (y - ay)
                - 2 * ((x - ax) * (bx - ax) + (y - ay) * (by_ - ay))
                + ((bx - ax) * (bx - ax) + (by_ - ay) * (by_ - ay)))
  by ring.
assert (Hdeg : ax == bx -> ay == by_ -> False).
{ intros Hx Hy. apply HL.
  assert (H1 : bx - ax == 0) by lra. assert (H2 : by_ - ay == 0) by lra.
  rewrite H1, H2. reflexivity. }
remember ((bx - ax) * (bx - ax) + (by_ - ay) * (by_ - ay)) as L eqn:HeqL.
remember ((x - ax) * (bx - ax) + (y - ay) * (by_ - ay)) as n eqn:Heqn.
assert (Ht : (n / L) * L == n) by (field; exact HL).
assert (HLpos : 0 < L).
{ assert (0 <= L) by (subst L; lra).
  destruct (Qlt_le_dec 0 L); [assumption|]. exfalso. apply HL. lra. }
remember (n / L) as t eqn:Heqt.
destruct (Dbl.gtb t 1) eqn:E1.
+ apply PolylabelFacts.gtb_true in E1. simpl.
  eexists. split; [reflexivity|].
  pose proof (sq_nonneg (x - bx)). pose proof (sq_nonneg (y - by_)).
  split; [lra|]. split; [|split; [lra|]].
  * rewrite Hb.
    assert (L < t * L) by nra. lra.
  * intros Hx Hy. exfalso. auto.
+ apply PolylabelFacts.gtb_false in E1.
  destruct (Dbl.gtb t 0) eqn:E0.
  * apply PolylabelFacts.gtb_true in E0. simpl.
    eexists. split; [reflexivity|].
    pose proof (sq_nonneg (x - (ax + (bx - ax) * t))).
    pose proof (sq_nonneg (y - (ay + (by_ - ay) * t))).
    split; [lra|].
    assert (Heq : (x - (ax + (bx - ax) * t)) * (x - (ax + (bx - ax) * t))
                  + (y - (ay + (by_ - ay) * t)) * (y - (ay + (by_ - ay) * t))
                  == (x - ax) * (x - ax) + (y - ay) * (y - ay)
                     - 2 * t * n + t * t * L).
    { subst n L. ring. }
    rewrite Heq, Hb.
    assert (Htt : t * n == t * t * L).
    { rewrite <- Ht. ring. }
    assert (0 <= t * t * L) by (pose proof (sq_nonneg t); nra).
    assert (0 <= (1 - t) * (1 - t) * L)
      by (pose proof (sq_nonneg (1 - t)); nra).
    split; [|split].
    -- nra.
    -- nra.
    -- intros Hx Hy. exfalso. auto.
  * apply PolylabelFacts.gtb_false in E0. simpl.
    eexists. split; [reflexivity|].
    pose proof (sq_nonneg (x - ax)). pose proof (sq_nonneg (y - ay)).
    split; [lra|]. split; [lra|]. split; [|intros; lra].
    rewrite Hb.
    assert (t * L <= 0) by nra. lra.
- simpl. eexists. split; [reflexivity|].
apply orb_false_iff in E. destruct E as [Ex Ey].
assert (Hx : bx - ax == 0).
{ destruct (Qeq_dec (bx - ax) 0) as [|Hn]; [assumption|].
  apply PolylabelFacts.neqb_true in Hn. congruence. }
assert (Hy : by_ - ay == 0).
{ destruct (Qeq_dec (by_ - ay) 0) as [|Hn]; [assumption|].
  apply PolylabelFacts.neqb_true in Hn. congruence. }
pose proof (sq_nonneg (x - ax)). pose proof (sq_nonneg (y - ay)).
split; [lra|]. split; [lra|]. split; [|intros; lra].
assert (Hbx : bx == ax) by lra. assert (Hby : by_ == ay) by lra.
rewrite Hbx, Hby. lra.
Qed.
End SegmentFacts.


(** ** Further properties of the renders *)

Section ScratchCanvas.
Context `{Collaborators}.
Import Dbl.
Local Open Scope Q_scope.

Lemma margin_nonneg (a0 : path_attributes) : 0 <= margin_of a0.
Proof.
  unfold margin_of. destruct (stroke_active a0); [|lra].
  unfold Dbl.abs. apply Qabs_nonneg.
Qed.

Lemma inject_Z_sub (a b : Z) : inject_Z (a - b) == inject_Z a - inject_Z b.
Proof.
  unfold Z.sub. rewrite inject_Z_plus, inject_Z_opp. ring.
Qed.

Lemma on_grid_eighths (q : Q) :
  on_grid q ->
  exists k : Z, q == inject_Z k / 8 /\ (Z.abs k <= 2 ^ 23)%Z.
Proof.
  intros [Hk Hq]. exists (Qfloor (q * 8)).
  split; [rewrite Hk; field|].
  apply Qabs_Qle_condition in Hq. destruct Hq as [Hlo Hhi].
  assert (E : inject_Z (2 ^ 20) * 8 == inject_Z (2 ^ 23)) by reflexivity.
  assert (H1 : inject_Z (Qfloor (q * 8)) <= inject_Z (2 ^ 23))
    by (rewrite Hk, <- E; lra).
  assert (H2 : inject_Z (- 2 ^ 23) <= inject_Z (Qfloor (q * 8))).
  { rewrite Hk, inject_Z_opp, <- E. lra. }
  rewrite <- Zle_Qle in H1, H2. lia.
Qed.

Lemma eighths_exact (k : Z) :
  (Z.abs k < 2 ^ 53)%Z -> round (inject_Z k / 8) == inject_Z k / 8.
Proof.
  intros Hk. apply RoundFacts.round_fix, RoundFacts.in_format_eighths.
  exact Hk.
Qed.

Lemma integer_exact (z : Z) :
  (Z.abs z < 2 ^ 53)%Z -> round (inject_Z z) == inject_Z z.
Proof.
  intros Hz. apply RoundFacts.round_fix, RoundFacts.in_format_int.
  exact Hz.
Qed.

(** On the grid the difference of two coordinates is exact. *)
Lemma grid_sub (a b : Q) :
  on_grid a -> on_grid b -> sub a b == a - b.
Proof.
  intros Ha Hb.
  destruct (on_grid_eighths a Ha) as (ka & Ea & Ka).
  destruct (on_grid_eighths b Hb) as (kb & Eb & Kb).
  assert (E : a - b == inject_Z (ka - kb) / 8)
    by (rewrite Ea, Eb, inject_Z_sub; field).
  unfold sub. rewrite E. apply eighths_exact. lia.
Qed.

(** So is the side of the box widened by the margin on both ends. *)
Lemma grid_side (lo hi m : Q) :
  on_grid lo -> on_grid hi -> on_grid m ->
  add (sub hi lo) (mul 2 m) == hi - lo + 2 * m.
Proof.
  intros Hlo Hhi Hm.
  pose proof (grid_sub hi lo Hhi Hlo) as E1.
  destruct (on_grid_eighths lo Hlo) as (kl & El & Kl).
  destruct (on_grid_eighths hi Hhi) as (kh & Eh & Kh).
  destruct (on_grid_eighths m Hm) as (km & Em & Km).
  assert (E2 : mul 2 m == 2 * m).
  { assert (E : 2 * m == inject_Z (2 * km) / 8)
      by (rewrite Em, inject_Z_mult; change (inject_Z 2) with 2; field).
    unfold mul. rewrite E. apply eighths_exact. lia. }
  unfold add. rewrite E1, E2.
  assert (E : hi - lo + 2 * m == inject_Z (kh - kl + 2 * km) / 8).
  { rewrite El, Eh, Em, inject_Z_plus, inject_Z_sub, inject_Z_mult.
    change (inject_Z 2) with 2. field. }
  rewrite E. apply eighths_exact. lia.
Qed.

(** The origin of the canvas is the floor of the exact difference. *)
Lemma grid_origin (lo m : Q) :
  on_grid lo -> on_grid m ->
  floor (sub lo m) = inject_Z (Qfloor (lo - m))
  /\ (Z.abs (Qfloor (lo - m)) <= 2 ^ 22)%Z.
Proof.
  intros Hlo Hm. split.
  - unfold floor. rewrite (Qfloor_comp _ _ (grid_sub lo m Hlo Hm)).
    reflexivity.
  - destruct Hlo as [_ Hlo], Hm as [_ Hm].
    apply Qabs_Qle_condition in Hlo, Hm.
    pose proof (Qfloor_le (lo - m)) as H1.
    pose proof (Qlt_floor (lo - m)) as H2.
    rewrite inject_Z_plus in H2. change (inject_Z 1) with 1 in H2.
    assert (E : inject_Z (2 ^ 20) == 1048576) by reflexivity.
    rewrite E in Hlo, Hm.
    assert (H3 : inject_Z (Qfloor (lo - m)) <= inject_Z (2 ^ 22))
      by (change (inject_Z (2 ^ 22)) with 4194304; lra).
    assert (H4 : inject_Z (- 2 ^ 22) <= inject_Z (Qfloor (lo - m)))
      by (change (inject_Z (- 2 ^ 22)) with (- 4194304); lra).
    rewrite <- Zle_Qle in H3, H4. lia.
Qed.

(** The local translation of an axis: the fraction of the placement less an
    integral origin stays between the two integers around it. *)
Lemma local_translation_bounds (t : Q) (z : Z) :
  (Z.abs z < 2 ^ 52)%Z ->
  - inject_Z z <= sub (sub t (floor t)) (inject_Z z)
  /\ sub (sub t (floor t)) (inject_Z z) <= 1 - inject_Z z.
Proof.
  intros Hz.
  destruct (computed_fraction_range t) as [H0 H1].
  set (d := sub t (floor t)) in *. clearbody d. unfold sub.
  assert (Elo : round (inject_Z (- z)) == inject_Z (- z))
    by (apply integer_exact; lia).
  assert (Ehi : round (inject_Z (1 - z)) == inject_Z (1 - z))
    by (apply integer_exact; lia).
  assert (Mlo : round (inject_Z (- z)) <= round (d - inject_Z z)).
  { apply RoundFacts.round_mono. rewrite inject_Z_opp. lra. }
  assert (Mhi : round (d - inject_Z z) <= round (inject_Z (1 - z))).
  { apply RoundFacts.round_mono. rewrite inject_Z_sub.
    change (inject_Z 1) with 1. lra. }
  rewrite Elo in Mlo. rewrite Ehi in Mhi.
  rewrite inject_Z_opp in Mlo. rewrite inject_Z_sub in Mhi.
  change (inject_Z 1) with 1 in Mhi. split; assumption.
Qed.

(** The side of the canvas: two more than the ceiling of the exact side. *)
Lemma grid_canvas_side (lo hi m : Q) :
  on_grid lo -> on_grid hi -> on_grid m ->
  hi - lo + 2 * m + 2
  <= inject_Z
       (int_add (static_cast_int (ceil (add (sub hi lo) (mul 2 m)))) 2).
Proof.
  intros Hlo Hhi Hm.
  unfold ceil. rewrite (Qceiling_comp _ _ (grid_side lo hi m Hlo Hhi Hm)).
  set (W := hi - lo + 2 * m).
  pose proof (Qle_ceiling W) as Hc. pose proof (Qceiling_lt W) as Hl.
  rewrite inject_Z_sub in Hl. change (inject_Z 1) with 1 in Hl.
  assert (HW : - 4194304 <= W /\ W <= 4194304).
  { destruct Hlo as [_ Hlo], Hhi as [_ Hhi], Hm as [_ Hm].
    apply Qabs_Qle_condition in Hlo, Hhi, Hm.
    assert (E : inject_Z (2 ^ 20) == 1048576) by reflexivity.
    rewrite E in Hlo, Hhi, Hm. subst W. split; lra. }
  assert (Hz : (- 2 ^ 23 <= Qceiling W <= 2 ^ 23)%Z).
  { assert (H3 : inject_Z (Qceiling W) <= inject_Z (2 ^ 23))
      by (change (inject_Z (2 ^ 23)) with 8388608; lra).
    assert (H4 : inject_Z (- 2 ^ 23) <= inject_Z (Qceiling W))
      by (change (inject_Z (- 2 ^ 23)) with (- 8388608); lra).
    rewrite <- Zle_Qle in H3, H4. lia. }
  rewrite DblFacts.static_cast_int_inject
    by (unfold int_min, int_max; lia).
  unfold int_add. rewrite DblFacts.int_wrap_id
    by (unfold int_min, int_max; lia).
  rewrite inject_Z_plus. change (inject_Z 2) with 2. lra.
Qed.

(** X6. The scratch image of a cached marker is large enough for a marker
    on the grid: when the sides of the bounding box and the stroke margin
    are multiples of an eighth of a pixel, at most [2^20] from the origin,
    the local transform keeps the scale and shear of the placement and
    replaces its translation so that the bounding box widened by the
    margin lands at coordinates from 0 up to, but below, the width and
    the height of the canvas, whatever the translation of the placement.
    The margin is never negative. *)
Theorem stroked_box_fits_the_scratch_canvas
    (src : svg_path_ptr) (a0 : path_attributes) (marker_tr : trans_affine) :
  let bbox := bounding_box src in
  let m := margin_of a0 in
  let tr := local_tr src a0 marker_tr in
  on_grid (minx bbox) -> on_grid (maxx bbox) ->
  on_grid (miny bbox) -> on_grid (maxy bbox) -> on_grid m ->
  0 <= m
  /\ (sx tr = sx marker_tr /\ sy tr = sy marker_tr
      /\ shx tr = shx marker_tr /\ shy tr = shy marker_tr)
  /\ 0 <= (minx bbox - m) + tx tr
  /\ (maxx bbox + m) + tx tr < inject_Z (canvas_width src m)
  /\ 0 <= (miny bbox - m) + ty tr
  /\ (maxy bbox + m) + ty tr < inject_Z (canvas_height src m).
Proof.
  intros bbox m tr Hx0 Hx1 Hy0 Hy1 Hm.
  split; [apply margin_nonneg|]. split; [repeat split|].
  destruct (grid_origin (minx bbox) m Hx0 Hm) as [Ex Kx].
  destruct (grid_origin (miny bbox) m Hy0 Hm) as [Ey Ky].
  pose proof (grid_canvas_side (minx bbox) (maxx bbox) m Hx0 Hx1 Hm) as Hw.
  pose proof (grid_canvas_side (miny bbox) (maxy bbox) m Hy0 Hy1 Hm) as Hh.
  unfold canvas_width, canvas_height. cbv zeta. fold bbox.
  assert (Tx : tx tr = sub (sub (tx marker_tr) (floor (tx marker_tr)))
                         (floor (sub (minx bbox) m))) by reflexivity.
  assert (Ty : ty tr = sub (sub (ty marker_tr) (floor (ty marker_tr)))
                         (floor (sub (miny bbox) m))) by reflexivity.
  rewrite Ex in Tx. rewrite Ey in Ty.
  rewrite Tx, Ty.
  destruct (local_translation_bounds (tx marker_tr)
              (Qfloor (minx bbox - m)) ltac:(lia)) as [Lx Ux].
  destruct (local_translation_bounds (ty marker_tr)
              (Qfloor (miny bbox - m)) ltac:(lia)) as [Ly Uy].
  pose proof (Qfloor_le (minx bbox - m)) as Fx1.
  pose proof (Qlt_floor (minx bbox - m)) as Fx2.
  pose proof (Qfloor_le (miny bbox - m)) as Fy1.
  pose proof (Qlt_floor (miny bbox - m)) as Fy2.
  rewrite inject_Z_plus in Fx2, Fy2.
  change (inject_Z 1) with 1 in Fx2, Fy2.
  repeat split; lra.
Qed.

End ScratchCanvas.

Section RepeatedRender.
Context `{Collaborators}.

Lemma blit_calls_not_miss img tr :
Forall (fun c => is_miss_call c = false) (blit_calls img tr).
Proof. destruct img; repeat constructor. Qed.

(** X7. After a marker with a single attribute record was rendered at a
  placement with unit scale and no shear, rendering it at any such
  placement with the same cache key looks the key up, finds the patches
  of the first render and blits them at the new placement: the
  destination is the fill patch and then the stroke patch of the first
  render pasted over it by the raster renderer under the blitting
  transform of the new placement. It neither rasterizes nor stores
  anything, and the image cache stays as it was. *)
Theorem render_with_a_cached_key_only_blits
  src path a0 params params' marker_tr marker_tr' w :
cacheable marker_tr = true ->
cacheable marker_tr' = true ->
key_of src a0 marker_tr' = key_of src a0 marker_tr ->
let w1 := fst (render_marker src path [a0] params marker_tr w) in
let r2 := render_marker src path [a0] params' marker_tr' w1 in
let paste (img : image_ptr) (b : image_rgba8) :=
  match img with
  | Some i =>
      render_raster_marker
        {| rb_buffer := b; rb_comp_op := comp_op_ w1 |} (ras_clip_box w1) i
        (blit_tr src a0 marker_tr') (opacity params')
        (scale_factor params') (snap_to_pixels params')
  | None => b
  end in
exists patches,
  StdMap.find (key_of src a0 marker_tr) (cached_images_ w1) = Some patches
  /\ snd r2
     = [CachedImagesFind (key_of src a0 marker_tr)]
       ++ blit_calls (fst patches) (blit_tr src a0 marker_tr')
       ++ blit_calls (snd patches) (blit_tr src a0 marker_tr')
  /\ buf_ (fst r2) = paste (snd patches) (paste (fst patches) (buf_ w1))
  /\ Forall (fun c => is_miss_call c = false) (snd r2)
  /\ cached_images_ (fst r2) = cached_images_ w1.
Proof.
intros Hc Hc' Hkey w1 r2 paste.
assert (Hsome : is_Some (StdMap.find (key_of src a0 marker_tr)
                         (cached_images_ w1))).
{ subst w1. unfold render_marker. rewrite Hc.
rewrite render_cached_images. apply lookup_or_render_present. }
destruct Hsome as [patches Hp]. exists patches.
split; [exact Hp|].
assert (Hhit : lookup_or_render src path a0 params' marker_tr' w1
             = (patches, w1, [CachedImagesFind (key_of src a0 marker_tr)])).
{ rewrite <- Hkey. apply lookup_or_render_hit. rewrite Hkey. exact Hp. }
assert (Hcalls : snd r2
       = [CachedImagesFind (key_of src a0 marker_tr)]
         ++ blit_calls (fst patches) (blit_tr src a0 marker_tr')
         ++ blit_calls (snd patches) (blit_tr src a0 marker_tr')).
{ subst r2. unfold render_marker. rewrite Hc'.
rewrite render_cached_calls. simpl. rewrite Hhit. reflexivity. }
split; [exact Hcalls|]. split; [|split].
- pose proof (render_cached_state src path a0 params' marker_tr' w1)
    as (_ & _ & Hbuf).
  cbv zeta in Hbuf. rewrite Hkey, Hp in Hbuf.
  subst r2 paste. unfold render_marker. rewrite Hc'. exact Hbuf.
- rewrite Hcalls. apply Forall_app. split; [repeat constructor|].
apply Forall_app. split; apply blit_calls_not_miss.
- subst r2. unfold render_marker. rewrite Hc'.
rewrite render_cached_images. rewrite Hhit. reflexivity.
Qed.

End RepeatedRender.

Section ConverterStages.
Context `{Collaborators}.
Local Open Scope Q_scope.

Lemma abs_gt_zero (q : Q) : Dbl.gtb (Dbl.abs q) 0 = true <-> ~ (q == 0).
Proof.
unfold Dbl.gtb. rewrite DblFacts.ltb_true. unfold Dbl.abs.
split.
- intros Hlt Hz. rewrite Hz in Hlt. discriminate Hlt.
- intros Hne. apply Qabs_case; intros Hs; [|].
+ destruct (Qlt_le_dec 0 q); [assumption|]. exfalso. apply Hne. lra.
+ destruct (Qlt_le_dec 0 (- q)); [assumption|]. exfalso. apply Hne. lra.
Qed.

(** X8. The stages of the vertex converter are switched on in one fixed
  order. The transform and the affine transform are always on; polygon
  clipping is on exactly for a clipped polygon or multi-polygon and line
  clipping exactly for a clipped line string or multi-line string; the
  offset is on exactly when the offset is not zero, simplification and
  smoothing exactly when their values are positive. *)
Theorem converter_stages_follow_a_fixed_order
  (sym : markers_symbolizer) (feature : feature_impl) (vars : variables) :
let tags := converter_tags sym feature vars in
let clip := get_bool k_clip sym feature vars in
let geom := geometry_type feature in
sublist tags converter_order
/\ In transform_tag tags
/\ In affine_transform_tag tags
/\ (In clip_poly_tag tags <->
    clip = true /\ (geom = Polygon \/ geom = MultiPolygon))
/\ (In clip_line_tag tags <->
    clip = true /\ (geom = LineString \/ geom = MultiLineString))
/\ (In offset_transform_tag tags <->
    ~ (get_double k_offset sym feature vars == 0))
/\ (In simplify_tag tags <->
    0 < get_double k_simplify_tolerance sym feature vars)
/\ (In smooth_tag tags <-> 0 < get_double k_smooth sym feature vars).
Proof.
intros tags clip geom. subst tags. unfold converter_tags, converter_order.
fold clip. fold geom.
rewrite <- abs_gt_zero.
rewrite <- !PolylabelFacts.gtb_true.
destruct clip, geom,
(Dbl.gtb (Dbl.abs (get_double k_offset sym feature vars)) 0),
(Dbl.gtb (get_double k_simplify_tolerance sym feature vars) 0),
(Dbl.gtb (get_double k_smooth sym feature vars) 0);
simpl;
(split; [repeat first [apply sublist_nil | apply sublist_skip
                      | apply sublist_cons]|]);
intuition (try discriminate; try congruence).
Qed.

End ConverterStages.


(** ** Further properties of the visitor *)

Section VisitorFacts.
Context `{Collaborators}.

Lemma render_marker_calls src path attrs params marker_tr w :
Forall (fun c => is_render_call c = true)
  (snd (render_marker src path attrs params marker_tr w)).
Proof.
assert (Hu : Forall (fun c => is_render_call c = true)
             (snd (render_uncached src path attrs params marker_tr w)))
by (repeat constructor).
unfold render_marker.
destruct attrs as [|a0 [|a1 rest]]; try exact Hu.
destruct (cacheable marker_tr); [|exact Hu].
rewrite render_cached_calls. simpl.
apply Forall_app. split.
- unfold lookup_or_render.
destruct (StdMap.find (key_of src a0 marker_tr) (cached_images_ w))
  as [[f s]|]; simpl; [repeat constructor|].
constructor; [reflexivity|].
unfold patch_calls.
destruct (fill_active a0), (stroke_active a0); repeat constructor.
- apply Forall_app.
split; match goal with
       | |- Forall _ (blit_calls ?i _) => destruct i; repeat constructor
       end.
Qed.

Lemma for_each_placement_calls (P : call -> Prop) step placements w :
(forall m w0, Forall P (snd (step m w0))) ->
Forall P (snd (for_each_placement step placements w)).
Proof.
intros Hstep. revert w.
induction placements as [|m rest IH]; intros w; simpl; [constructor|].
pose proof (Hstep m w) as H1.
destruct (step m w) as [w1 c1]; simpl in H1.
specialize (IH w1).
destruct (for_each_placement step rest w1) as [w2 c2]; simpl in *.
apply Forall_app. split; assumption.
Qed.

Lemma dispatch_placements_calls (P : call -> Prop)
  sym feature common params step w :
(forall m w0, Forall P (snd (step m w0))) ->
Forall P (snd (dispatch_placements sym feature common params step w)).
Proof.
intros Hstep. unfold dispatch_placements.
destruct (apply_markers_multi _ _ _ _ _ _ _) as [placements det].
apply for_each_placement_calls. exact Hstep.
Qed.

(** The raster path: one blit per placement, in order, and nothing else. *)
Lemma for_each_raster_placement data params placements w :
let r := for_each_placement (render_marker_raster data params)
           placements w in
let paste (b : image_rgba8) (m : trans_affine) :=
  render_raster_marker {| rb_buffer := b; rb_comp_op := comp_op_ w |}
    (ras_clip_box w) data m (opacity params) (scale_factor params)
    (snap_to_pixels params) in
snd r = map (RenderRasterMarker data) placements
/\ fst r = set_buf w (fold_left paste placements (buf_ w)).
Proof.
revert w. induction placements as [|m rest IH]; intros w; simpl.
- split; [reflexivity|]. destruct w; reflexivity.
- specialize (IH (set_buf w
                  (render_raster_marker (renb_ w) (ras_clip_box w) data m
                     (opacity params) (scale_factor params)
                     (snap_to_pixels params)))).
simpl in IH.
destruct (for_each_placement (render_marker_raster data params) rest _)
  as [w2 c2]; simpl in *.
destruct IH as (Hc & Hw).
rewrite Hc, Hw. split; reflexivity.
Qed.

(** X9. When the file name is not empty and the registry has no marker
  for it, the symbolizer renders nothing: the registry is asked once,
  and the caches and the destination stay as they were. *)
Theorem null_marker_renders_nothing sym feature common w :
let filename :=
  get_string sym k_file feature (vars_ common) ellipse_uri in
filename <> EmptyString ->
marker_cache_find filename true = marker_null ->
render_markers_symbolizer sym feature common w
= (w, [MarkerCacheFind filename]).
Proof.
intros filename Hne Hnull. unfold render_markers_symbolizer. fold filename.
destruct (is_empty filename) eqn:E.
- apply is_empty_iff in E. contradiction.
- simpl. rewrite Hnull. reflexivity.
Qed.

(** X10. A raster marker is blitted once for every placement that the
  placement finder returns for the feature, in their order, after the one
  lookup in the registry. The finder is given the box of the image at the
  origin and the image transform composed after the translation that
  moves the centre of the marker's box to the origin; the destination is
  the image pasted over it by the raster renderer at one placement after
  the other, the detector is the one the finder left, and none of the
  three caches is read or written on the way. *)
Theorem raster_marker_is_blitted_once_per_placement
  sym feature common w data bbox :
let filename :=
  get_string sym k_file feature (vars_ common) ellipse_uri in
filename <> EmptyString ->
marker_cache_find filename true = marker_rgba8 data bbox ->
let r := render_markers_symbolizer sym feature common w in
let vars := vars_ common in
let image_tr :=
  apply_image_transform sym feature common
    (setup_transform_scaling (trans_affine_scaling (scale_factor_ common))
       (inject_Z (image_width data)) (inject_Z (image_height data))
       feature vars sym) in
let recenter :=
  trans_affine_translation (- fst (center bbox)) (- snd (center bbox)) in
let params :=
  make_markers_dispatch_params
    (mk_box2d 0 0 (inject_Z (image_width data))
       (inject_Z (image_height data)))
    (multiply recenter image_tr) sym feature vars (scale_factor_ common)
    false in
let found :=
  apply_markers_multi feature vars sym (converter_tags sym feature vars)
    (geom_tr_of sym feature common) params (detector_ w) in
let paste (b : image_rgba8) (m : trans_affine) :=
  render_raster_marker {| rb_buffer := b; rb_comp_op := comp_op_ w |}
    (ras_clip_box w) data m (opacity params) (scale_factor params)
    (snap_to_pixels params) in
snd r
= MarkerCacheFind filename :: map (RenderRasterMarker data) (fst found)
/\ buf_ (fst r) = fold_left paste (fst found) (buf_ w)
/\ detector_ (fst r) = snd found
/\ cached_images_ (fst r) = cached_images_ w
/\ cached_attributes_ (fst r) = cached_attributes_ w
/\ cached_ellipses_ (fst r) = cached_ellipses_ w
/\ next_address (fst r) = next_address w.
Proof.
intros filename Hne Hr r vars image_tr recenter params found paste.
subst r.
unfold render_markers_symbolizer. fold filename.
destruct (is_empty filename) eqn:E.
{ apply is_empty_iff in E. contradiction. }
simpl. rewrite Hr. unfold visit_rgba8, dispatch_placements.
fold vars. fold image_tr. fold recenter. fold params. fold found.
destruct found as [placements det] eqn:Hfound.
pose proof (for_each_raster_placement data params placements
              (set_detector w det)) as Hf.
destruct (for_each_placement (render_marker_raster data params) placements
            (set_detector w det)) as [w2 c2].
cbv zeta in Hf. cbn [fst snd] in *. destruct Hf as (Hc & Hw).
subst w2 c2. repeat split.
Qed.

(** X11. Once an ellipse was resolved, resolving it again only looks its
  key up and gives the same storage, without building it; so does any
  symbolizer and feature with the same width, height and stroke width. *)
Theorem ellipse_is_built_once_per_key sym feature common w :
let r1 := resolve_ellipse sym feature common w in
let w1 := snd (fst r1) in
resolve_ellipse sym feature common w1
= (fst (fst r1), w1,
   [CachedEllipsesFind (ellipse_key_of sym feature common)])
/\ (forall sym' feature',
      ellipse_key_of sym' feature' common
      = ellipse_key_of sym feature common ->
      fst (fst (resolve_ellipse sym' feature' common w1)) = fst (fst r1)).
Proof.
intros r1 w1.
assert (Hf : StdMap.find (ellipse_key_of sym feature common)
             (cached_ellipses_ w1) = Some (fst (fst r1))).
{ subst w1 r1.
destruct (StdMap.find (ellipse_key_of sym feature common)
            (cached_ellipses_ w)) as [p|] eqn:Hfind.
- rewrite (resolve_ellipse_hit _ _ _ _ _ Hfind). simpl. exact Hfind.
- destruct (resolve_ellipse_miss sym feature common w Hfind)
    as (_ & Hc & _).
  rewrite Hc. apply StdMapFacts.find_emplace_new.
  apply StdMapFacts.find_evict_None. exact Hfind. }
split.
- apply resolve_ellipse_hit. exact Hf.
- intros sym' feature' Hkey.
rewrite <- Hkey in Hf.
rewrite (resolve_ellipse_hit _ _ _ _ _ Hf). reflexivity.
Qed.

(** X12. Starting from empty caches, after any sequence of renders every
  cache holds its keys in strictly increasing order and at most one
  entry more than its stated maximum: 4097 images, 257 attribute sets
  and 257 ellipses. *)
Theorem renders_from_empty_caches_keep_the_caches_well_formed
  (requests : list (markers_symbolizer * feature_impl * renderer_common))
  (buf : image_rgba8) (comp_op : Z) (clip : clip_box_t) (det : detector)
  (addr : Z) :
let w :=
  render_all requests
    (mk_world StdMap.empty StdMap.empty StdMap.empty buf comp_op clip det
       addr) in
(StdMap.sorted (cached_images_ w)
 /\ (StdMap.size (cached_images_ w) <= S cache_size)%nat)
/\ (StdMap.sorted (cached_attributes_ w)
    /\ (StdMap.size (cached_attributes_ w) <= S attributes_cache_size)%nat)
/\ (StdMap.sorted (cached_ellipses_ w)
    /\ (StdMap.size (cached_ellipses_ w) <= S ellipses_cache_size)%nat).
Proof.
intros w.
assert (Hwf : forall reqs w0, caches_wf w0 -> caches_wf (render_all reqs w0)).
{ induction reqs as [|r rest IH]; intros w0 Hw0; simpl; [exact Hw0|].
apply IH. apply render_markers_symbolizer_caches_wf. exact Hw0. }
apply (Hwf requests). split; [|split]; apply cache_wf_empty.
Qed.

(** The cache of ellipses is looked up by the vector visitor exactly when
  the file name is the ellipse and the symbolizer has a width or a
  height. *)
Lemma ellipse_lookup_iff filename sym feature common mark w :
(exists key,
    In (CachedEllipsesFind key)
       (snd (visit_svg filename sym feature common mark w)))
<-> filename = ellipse_uri
    /\ (is_Some (properties sym !! k_width)
        \/ is_Some (properties sym !! k_height)).
Proof.
assert (Hcond : negb (String.eqb filename ellipse_uri)
              || negb (has_key sym k_width || has_key sym k_height) = false
              <-> filename = ellipse_uri
                  /\ (is_Some (properties sym !! k_width)
                      \/ is_Some (properties sym !! k_height))).
{ rewrite orb_false_iff, !negb_false_iff, orb_true_iff.
unfold has_key. rewrite !bool_decide_eq_true.
rewrite String.eqb_eq. reflexivity. }
assert (Hrender : forall p pth attrs params w0 key,
         ~ In (CachedEllipsesFind key)
             (snd (dispatch_placements sym feature common params
                     (render_marker p pth attrs params) w0))).
{ intros p pth attrs params w0 key Hin.
pose proof (dispatch_placements_calls
              (fun c => is_render_call c = true) sym feature common params
              (render_marker p pth attrs params) w0
              (fun m w1 => render_marker_calls p pth attrs params m w1))
  as Hall.
rewrite List.Forall_forall in Hall. specialize (Hall _ Hin).
discriminate. }
assert (Hattr : forall key,
         ~ In (CachedEllipsesFind key)
             (snd (resolve_attributes sym feature common mark w))).
{ intros key. unfold resolve_attributes.
destruct (lookup_attributes sym w); simpl.
- intros [Hx|[]]. discriminate.
- destruct (properties_cacheable sym); simpl.
  + intros [Hx|[Hx|[]]]; discriminate.
  + intros [Hx|[]]. discriminate. }
rewrite <- Hcond. unfold visit_svg.
destruct (resolve_attributes sym feature common mark w)
as [[r_attributes w1] c1] eqn:Hra.
assert (Hc1 : forall key, ~ In (CachedEllipsesFind key) c1).
{ intros key. exact (Hattr key). }
destruct (negb (String.eqb filename ellipse_uri)
        || negb (has_key sym k_width || has_key sym k_height)) eqn:Eb.
- match goal with
| |- context [dispatch_placements ?s ?f ?c ?p (render_marker ?a ?b ?d ?p) ?w0] =>
    pose proof (Hrender a b d p w0) as Hd;
    destruct (dispatch_placements s f c p (render_marker a b d p) w0)
      as [w3 c3]
end.
simpl in *. split; [|intros Hf; discriminate Hf].
intros [key Hin]. exfalso. rewrite !in_app_iff in Hin.
destruct Hin as [Hin|Hin].
+ exact (Hc1 key Hin).
+ exact (Hd key Hin).
- split; [reflexivity|]. intros _.
exists (ellipse_key_of sym feature common).
assert (Hell : In (CachedEllipsesFind (ellipse_key_of sym feature common))
                 (snd (resolve_ellipse sym feature common w1))).
{ unfold resolve_ellipse.
  destruct (StdMap.find _ (cached_ellipses_ w1)); simpl; [left; reflexivity|].
  destruct (build_ellipse sym feature (vars_ common)) as [[pth at_] bb].
  simpl. left. reflexivity. }
destruct (resolve_ellipse sym feature common w1)
  as [[marker_ptr w2] c2]; simpl in Hell.
match goal with
| |- context [dispatch_placements ?s ?f ?c ?p ?st ?w0] =>
    destruct (dispatch_placements s f c p st w0) as [w3 c3]
end.
simpl. rewrite !in_app_iff. right. left. exact Hell.
Qed.

(** X13. For a vector marker the cache of ellipses is looked up exactly
  when the file name is the ellipse and the symbolizer has a width or a
  height: the marker that is dispatched is then the ellipse resolved
  through that cache, under the image transform without the scaling
  setup. Otherwise the marker of the registry is used as it is: its own
  path and box are dispatched, under the image transform set up from the
  width and height of its box. Either way the attributes are resolved
  first, from the marker of the registry. *)
Theorem ellipse_cache_is_used_iff_ellipse_with_a_size
  filename sym feature common mark w :
let sized_ellipse :=
  filename = ellipse_uri
  /\ (is_Some (properties sym !! k_width)
      \/ is_Some (properties sym !! k_height)) in
let r := visit_svg filename sym feature common mark w in
let ra := resolve_attributes sym feature common mark w in
let vars := vars_ common in
let snap := negb (is_uri filename) in
let scaling := trans_affine_scaling (scale_factor_ common) in
((exists key, In (CachedEllipsesFind key) (snd r)) <-> sized_ellipse)
/\ (~ sized_ellipse ->
    let image_tr :=
      apply_image_transform sym feature common
        (setup_transform_scaling scaling
           (Dbl.sub (maxx (bounding_box mark)) (minx (bounding_box mark)))
           (Dbl.sub (maxy (bounding_box mark)) (miny (bounding_box mark)))
           feature vars sym) in
    let params :=
      make_markers_dispatch_params (bounding_box mark)
        (vector_dispatch_tr mark image_tr) sym feature vars
        (scale_factor_ common) snap in
    let d :=
      dispatch_placements sym feature common params
        (render_marker mark (source mark) (fst (fst ra)) params)
        (snd (fst ra)) in
    r = (fst d, snd ra ++ snd d))
/\ (sized_ellipse ->
    let re := resolve_ellipse sym feature common (snd (fst ra)) in
    let marker_ptr := fst (fst re) in
    let image_tr := apply_image_transform sym feature common scaling in
    let params :=
      make_markers_dispatch_params (bounding_box marker_ptr)
        (vector_dispatch_tr marker_ptr image_tr) sym feature vars
        (scale_factor_ common) snap in
    let d :=
      dispatch_placements sym feature common params
        (render_marker marker_ptr (source marker_ptr) (fst (fst ra)) params)
        (snd (fst re)) in
    r = (fst d, snd ra ++ snd re ++ snd d)).
Proof.
intros sized_ellipse r ra vars snap scaling.
assert (Hcond : negb (String.eqb filename ellipse_uri)
              || negb (has_key sym k_width || has_key sym k_height) = false
              <-> sized_ellipse).
{ subst sized_ellipse.
rewrite orb_false_iff, !negb_false_iff, orb_true_iff.
unfold has_key. rewrite !bool_decide_eq_true.
rewrite String.eqb_eq. reflexivity. }
split; [|split].
- subst r sized_ellipse. cbv zeta.
  exact (ellipse_lookup_iff filename sym feature common mark w).
- intros Hn. cbv zeta. subst r ra. unfold visit_svg.
  destruct (negb (String.eqb filename ellipse_uri)
            || negb (has_key sym k_width || has_key sym k_height)) eqn:Eb;
    [|exfalso; apply Hn, Hcond; reflexivity].
  destruct (resolve_attributes sym feature common mark w)
    as [[r_attributes w1] c1].
  cbn [fst snd].
  match goal with
  | |- _ = (fst ?d, _) =>
      change ((let '(w3, c3) := d in (w3, c1 ++ [] ++ c3))
              = (fst d, c1 ++ snd d));
      destruct d; reflexivity
  end.
- intros Hy. cbv zeta. subst r ra. unfold visit_svg.
  destruct (negb (String.eqb filename ellipse_uri)
            || negb (has_key sym k_width || has_key sym k_height)) eqn:Eb;
    [apply Hcond in Hy; discriminate Hy|].
  destruct (resolve_attributes sym feature common mark w)
    as [[r_attributes w1] c1].
  cbn [fst snd].
  destruct (resolve_ellipse sym feature common w1)
    as [[marker_ptr w2] c2].
  cbn [fst snd].
  match goal with
  | |- _ = (fst ?d, _) =>
      change ((let '(w3, c3) := d in (w3, c1 ++ c2 ++ c3))
              = (fst d, c1 ++ c2 ++ snd d));
      destruct d; reflexivity
  end.
Qed.

End VisitorFacts.


(** ** Properties of the PostGIS connection *)

Module PostgisFacts.
Import Postgis.

Section Facts.
Context `{Libpq}.

Lemma exec_status_eqb_eq (a b : ExecStatusType) :
exec_status_eqb a b = true <-> a = b.
Proof. destruct a, b; split; (reflexivity || discriminate). Qed.

(** X14. Closing a connection marks it closed, after which it is not OK;
the client library is told to finish exactly when the connection was
still open, and closing once more does nothing. *)
Theorem close_finishes_the_connection_once (c : Connection) :
let r := close c in
closed_ (fst r) = true
/\ isOK (fst r) = false
/\ snd r = (if closed_ c then [] else [C_PQfinish])
/\ conn_ (fst r) = conn_ c /\ cursorId (fst r) = cursorId c
/\ close (fst r) = (fst r, []).
Proof.
unfold close, isOK. destruct c as [conn id closed]; simpl.
destruct closed; simpl; repeat split.
Qed.

Lemma clearAsyncResult_calls fuel result conn conn' calls :
clearAsyncResult fuel result conn = Some (conn', calls) ->
Forall (fun k => k = C_PQclear \/ k = C_PQgetResult) calls
/\ ~ In C_PQfinish calls.
Proof.
revert result conn conn' calls.
induction fuel as [|fuel IH]; intros result conn conn' calls; simpl.
- destruct result; [discriminate|].
intros Hs. inversion Hs; subst. split; [constructor|intros []].
- destruct result; [|intros Hs; inversion Hs; subst;
                  split; [constructor|intros []]].
destruct (get_result_on conn) as [next conn1].
destruct (clearAsyncResult fuel next conn1) as [[conn2 calls2]|] eqn:Hrec;
[|discriminate].
intros Hs. inversion Hs; subst.
destruct (IH _ _ _ _ Hrec) as [Hall Hnf].
split.
+ constructor; [left; reflexivity|].
constructor; [right; reflexivity|exact Hall].
+ intros [Hx|[Hx|Hin]]; try discriminate. contradiction.
Qed.

Lemma clearAsyncResult_None fuel conn :
clearAsyncResult fuel None conn = Some (conn, []).
Proof. destruct fuel; reflexivity. Qed.

(** What a failed asynchronous call leaves behind. *)
Lemma fail_async_closes {A : Type} fuel what result c before :
let r := @fail_async _ A fuel what result c before in
(fst (fst r) = Throw what
/\ closed_ (snd (fst r)) = true
/\ isOK (snd (fst r)) = false
/\ cursorId (snd (fst r)) = cursorId c
/\ exists calls,
    snd r
    = before ++ calls ++ (if closed_ c then [] else [C_PQfinish])
    /\ Forall (fun k => k = C_PQclear \/ k = C_PQgetResult) calls)
\/ r = (OutOfFuel, c, before).
Proof.
unfold fail_async.
destruct (clearAsyncResult fuel result (conn_ c)) as [[conn calls]|] eqn:Hc;
[|right; reflexivity].
left. destruct (clearAsyncResult_calls _ _ _ _ _ Hc) as [Hall _].
unfold close, isOK, set_conn. destruct c as [conn0 id closed]; simpl.
destruct closed; simpl; repeat split; eauto.
Qed.



(** X16. When no result is pending, the two ways of fetching an
asynchronous result differ: fetching the next one returns a result set
around the null result and leaves the connection as it is; fetching
the result throws and closes the connection. *)
Theorem async_results_differ_on_the_null_result
(fuel : nat) (c : Connection) :
fst (get_result_on (conn_ c)) = None ->
let conn := snd (get_result_on (conn_ c)) in
getNextAsyncResult fuel c = (Return None, set_conn c conn, [C_PQgetResult])
/\ getAsyncResult fuel c
 = (Throw ("Postgis Plugin: " +:+ status conn +:+ newline
           +:+ "in getAsyncResult"),
    mk_connection conn (cursorId c) true,
    C_PQgetResult :: (if closed_ c then [] else [C_PQfinish])).
Proof.
unfold getNextAsyncResult, getAsyncResult.
destruct (get_result_on (conn_ c)) as [result conn]; simpl.
intros ->. simpl. split; [reflexivity|].
unfold fail_async. rewrite clearAsyncResult_None.
unfold close, set_conn; simpl.
destruct (closed_ c) eqn:Ec; simpl; reflexivity.
Qed.

(** X17. On a pending result the two ways of fetching agree: a result
with tuples is returned by both, wrapped and not cleared, after the one
call that fetched it; on any other result neither returns, and both
make the same calls and leave the same connection. *)
Theorem async_results_agree_on_a_result_with_tuples
(fuel : nat) (c : Connection) (r0 : PGresult) :
fst (get_result_on (conn_ c)) = Some r0 ->
let conn := snd (get_result_on (conn_ c)) in
(PQresultStatus r0 = PGRES_TUPLES_OK ->
getNextAsyncResult fuel c
= (Return (Some r0), set_conn c conn, [C_PQgetResult])
/\ getAsyncResult fuel c
  = (Return (Some r0), set_conn c conn, [C_PQgetResult]))
/\ (PQresultStatus r0 <> PGRES_TUPLES_OK ->
  forall rs,
    fst (fst (getNextAsyncResult fuel c)) <> Return rs
    /\ fst (fst (getAsyncResult fuel c)) <> Return rs
    /\ snd (getNextAsyncResult fuel c) = snd (getAsyncResult fuel c)
    /\ snd (fst (getNextAsyncResult fuel c))
       = snd (fst (getAsyncResult fuel c))).
Proof.
unfold getNextAsyncResult, getAsyncResult.
destruct (get_result_on (conn_ c)) as [result conn]; simpl.
intros ->. simpl. split.
- intros ->. simpl. split; reflexivity.
- intros Hne rs.
destruct (exec_status_eqb (PQresultStatus r0) PGRES_TUPLES_OK) eqn:E.
{ apply exec_status_eqb_eq in E. contradiction. }
simpl. unfold fail_async.
destruct (clearAsyncResult fuel (Some r0) (conn_ (set_conn c conn)))
as [[conn2 calls2]|]; simpl.
+ destruct (close (set_conn (set_conn c conn) conn2)) as [c' closing].
simpl. repeat split; discriminate.
+ repeat split; discriminate.
Qed.

Lemma int_wrap_small (z : Z) :
(- 2 ^ 31 <= z < 2 ^ 31)%Z -> int_wrap z = z.
Proof.
intros Hz. unfold int_wrap. rewrite Z.mod_small by lia. lia.
Qed.

Lemma cursor_names_spec (n : nat) (c : Connection) :
(- 2 ^ 31 <= cursorId c)%Z ->
(cursorId c + Z.of_nat n < 2 ^ 31)%Z ->
cursor_names n c
= map (fun i => "mapnik_" +:+ pretty (cursorId c + Z.of_nat i)%Z)
  (seq 0 n).
Proof.
revert c. induction n as [|n IH]; intros c Hlo Hhi; [reflexivity|].
cbn [cursor_names new_cursor_name seq map].
rewrite Z.add_0_r. f_equal.
destruct n as [|n']; [reflexivity|].
rewrite IH; cbn [cursorId]; rewrite int_wrap_small by lia; try lia.
rewrite <- seq_shift, map_map.
apply map_ext. intros i. do 2 f_equal. lia.
Qed.

(** X18. While the counter does not overflow, the cursor names given out
one after the other are pairwise distinct: the i-th of them is the
prefix followed by the decimal form of the counter plus i. *)
Theorem cursor_names_are_distinct_while_the_counter_does_not_overflow
(n : nat) (c : Connection) :
(- 2 ^ 31 <= cursorId c)%Z ->
(cursorId c + Z.of_nat n < 2 ^ 31)%Z ->
NoDup (cursor_names n c)
/\ length (cursor_names n c) = n
/\ forall i, (i < n)%nat ->
   nth_error (cursor_names n c) i
   = Some ("mapnik_" +:+ pretty (cursorId c + Z.of_nat i)%Z).
Proof.
intros Hlo Hhi. rewrite (cursor_names_spec n c Hlo Hhi).
split; [|split].
- apply NoDup_fmap_2_strong; [|apply NoDup_seq].
intros i j _ _ Hij. apply String.app_inj in Hij.
apply pretty_Z_inj in Hij. lia.
- rewrite length_map, length_seq. reflexivity.
- intros i Hi. rewrite nth_error_map, nth_error_seq.
destruct (Nat.ltb_spec i n); [reflexivity|lia].
Qed.

(** X19. The constructor calls the library once, with the connection
string followed by the password only if one is given and not empty,
and never finishes the connection. A connection that it returns is
open, OK and not null, and its first cursor is number 0; the message
that it throws quotes the connection string without the password, and
for a null connection says that the connection is uninitialized. *)
Theorem a_constructed_connection_is_ok
(connection_str : string) (password : option string) :
let conninfo := connect_with_pass connection_str password in
let r := connect connection_str password in
snd r = [C_PQconnectdb conninfo]
/\ (forall c,
    fst r = Return c ->
    isOK c = true /\ closed_ c = false /\ is_Some (conn_ c)
    /\ fst (new_cursor_name c) = "mapnik_0")
/\ (forall what,
    fst r = Throw what ->
    what = connect_error (PQconnectdb conninfo) connection_str)
/\ (PQconnectdb conninfo = None ->
  fst r
  = Throw ("Postgis Plugin: Uninitialized connection" +:+ newline
           +:+ "Connection string: '" +:+ connection_str +:+ "'"
           +:+ newline))
/\ (password = None \/ password = Some EmptyString ->
  conninfo = connection_str).
Proof.
intros conninfo r. subst r. unfold connect. fold conninfo.
split; [reflexivity|]. cbn [fst].
split; [|split; [|split]].
- intros c.
destruct (PQconnectdb conninfo) as [pg|]; simpl;
[|intros Hc; discriminate Hc].
destruct (PQstatus pg) eqn:Est; simpl; intros Hc;
try discriminate Hc.
inversion Hc; subst c. unfold isOK; simpl. rewrite Est.
repeat split. eauto.
- intros what.
destruct (negb _); intros Hw; [|discriminate Hw].
inversion Hw. reflexivity.
- intros ->. reflexivity.
- subst conninfo. intros [->| ->]; reflexivity.
Qed.

(** X20. Unlike the asynchronous calls, a synchronous query never closes
the connection and never finishes it. A result that it returns is the
one of the library, has tuples and was not cleared; when it throws,
the result was cleared exactly if it was not null. *)
Theorem executeQuery_never_closes_the_connection
(c : Connection) (sql : string) (type : Z) :
let r := executeQuery c sql type in
let result := fst (exec_on (conn_ c) sql (type =? 1)%Z) in
closed_ (snd (fst r)) = closed_ c
/\ ~ In C_PQfinish (snd r)
/\ (forall rs,
    fst (fst r) = Return rs ->
    rs = result
    /\ (exists res, rs = Some res
                    /\ PQresultStatus res = PGRES_TUPLES_OK)
    /\ ~ In C_PQclear (snd r))
/\ (forall what,
    fst (fst r) = Throw what ->
    (In C_PQclear (snd r) <-> is_Some result))
/\ fst (fst r) <> OutOfFuel.
Proof.
intros r result. subst r result. unfold executeQuery.
destruct (exec_on (conn_ c) sql (type =? 1)%Z) as [result conn].
cbn [fst].
assert (Hcall : forall k, k = C_PQfinish \/ k = C_PQclear ->
              exec_call sql (type =? 1)%Z <> k).
{ intros k [-> | ->]; unfold exec_call;
destruct (type =? 1)%Z; discriminate. }
destruct (negb (result_is result PGRES_TUPLES_OK)) eqn:E; cbn [fst snd].
- split; [reflexivity|]. split.
{ intros Hin. apply in_app_or in Hin. destruct Hin as [[Hx|[]]|Hin].
- revert Hx. apply Hcall. left; reflexivity.
- destruct result; [destruct Hin as [Hx|[]]; discriminate|destruct Hin]. }
split; [intros rs Hr; discriminate Hr|].
split; [|discriminate].
intros what _. split.
+ intros Hin. apply in_app_or in Hin. destruct Hin as [[Hx|[]]|Hin].
* exfalso. revert Hx. apply Hcall. right; reflexivity.
* destruct result; [eauto|destruct Hin].
+ intros [res ->]. apply in_or_app. right. left. reflexivity.
- split; [reflexivity|]. split.
{ intros [Hx|[]]. revert Hx. apply Hcall. left; reflexivity. }
split; [|split; [intros what Hw; discriminate Hw|discriminate]].
intros rs Hr. inversion Hr; subst rs. split; [reflexivity|].
split.
+ apply negb_false_iff in E. unfold result_is in E.
destruct result as [res|]; [|discriminate E].
exists res. split; [reflexivity|]. apply exec_status_eqb_eq. exact E.
+ intros [Hx|[]]. revert Hx. apply Hcall. right; reflexivity.
Qed.

(** X21. A statement whose execution is reported as a success has a
result with the status of a command, which a query without parameters
refuses: on the same connection it throws, after executing the
statement and clearing its result as the execution did. *)
Theorem a_command_that_execute_accepts_makes_executeQuery_throw
(c : Connection) (sql : string) (type : Z) :
type <> 1%Z ->
fst (fst (execute c sql)) = true ->
fst (fst (executeQuery c sql type))
= Throw (query_error (snd (exec_on (conn_ c) sql false))
         "executeQuery" sql)
/\ snd (executeQuery c sql type) = [C_PQexec sql; C_PQclear]
/\ snd (executeQuery c sql type) = snd (execute c sql)
/\ snd (fst (executeQuery c sql type)) = snd (fst (execute c sql)).
Proof.
intros Ht. unfold execute, executeQuery.
assert (Eb : (type =? 1)%Z = false) by (apply Z.eqb_neq; exact Ht).
rewrite Eb.
destruct (exec_on (conn_ c) sql false) as [result conn]. cbn [fst snd].
destruct result as [res|]; [|intros Hf; discriminate Hf].
intros Hok. apply exec_status_eqb_eq in Hok.
unfold result_is. rewrite Hok. simpl. repeat split.
Qed.

End Facts.
End PostgisFacts.


(** ** Properties of the report of the visual tests *)

Module VisualReportFacts.
Import VisualReport.

Lemma string_app_assoc (a b c : string) : (a +:+ b) +:+ c = a +:+ (b +:+ c).
Proof.
induction a as [|x a IH]; [reflexivity|].
change (String x ((a +:+ b) +:+ c) = String x (a +:+ (b +:+ c))).
f_equal. exact IH.
Qed.

Lemma string_app_nil_r (a : string) : a +:+ EmptyString = a.
Proof.
induction a as [|x a IH]; [reflexivity|].
change (String x (a +:+ EmptyString) = String x a).
f_equal. exact IH.
Qed.

Section Facts.
Context `{Filesystem}.

Lemma wrap_succ (z : Z) :
unsigned_wrap (unsigned_wrap z + 1) = unsigned_wrap (z + 1).
Proof. unfold unsigned_wrap. apply Zplus_mod_idemp_l. Qed.

(** The counters after the loop. *)
Lemma counters_after (results : list result) (a b c d : Z) :
fold_left count results
(mk_counters (unsigned_wrap a) (unsigned_wrap b) (unsigned_wrap c)
   (unsigned_wrap d))
= mk_counters
  (unsigned_wrap (a + count_of (has_state STATE_OK) results))
  (unsigned_wrap (b + count_of (has_state STATE_ERROR) results))
  (unsigned_wrap (c + count_of (has_state STATE_FAIL) results))
  (unsigned_wrap (d + count_of (has_state STATE_OVERWRITE) results)).
Proof.
revert a b c d. unfold count_of.
induction results as [|r rest IH]; intros a b c d.
- simpl. rewrite !Z.add_0_r. reflexivity.
- cbn [fold_left List.filter]. unfold count at 2.
cbn [ok error fail overwrite].
assert (Hs : forall st, has_state st r = true <-> state r = st).
{ intros st. unfold has_state.
destruct (state r), st; split; (reflexivity || discriminate). }
destruct (state r) eqn:E; rewrite wrap_succ, IH;
repeat match goal with
       | |- context [has_state ?st r] =>
           let Hb := fresh in
           destruct (has_state st r) eqn:Hb;
           [apply Hs in Hb; try discriminate Hb
           |try (assert (has_state st r = true)
                   by (apply Hs; reflexivity); congruence)]
       end;
cbn [length]; f_equal; f_equal; lia.
Qed.

Lemma count_of_range (p : result -> bool) (results : list result) :
(0 <= count_of p results <= Z.of_nat (length results))%Z.
Proof.
unfold count_of. pose proof (List.filter_length_le p results). lia.
Qed.

Lemma count_of_zero (p : result -> bool) (results : list result) :
count_of p results = 0%Z <-> Forall (fun r => p r = false) results.
Proof.
unfold count_of. induction results as [|r rest IH]; simpl.
- split; [constructor|reflexivity].
- destruct (p r) eqn:E; simpl.
+ split; [lia|]. intros Hf. inversion Hf; congruence.
+ rewrite IH. split; [constructor; assumption|].
intros Hf. inversion Hf; assumption.
Qed.

Lemma count_of_failed (results : list result) :
count_of failed results
= (count_of (has_state STATE_FAIL) results
 + count_of (has_state STATE_ERROR) results)%Z.
Proof.
unfold count_of, failed, has_state.
induction results as [|r rest IH]; [reflexivity|].
cbn [List.filter]. destruct (state r); cbn [length]; lia.
Qed.

Lemma console_summary_value (s : string) (results : list result) :
snd (console_report_summary s results)
= unsigned_wrap (count_of failed results).
Proof.
unfold console_report_summary. cbn [snd].
change (mk_counters 0 0 0 0)
with (mk_counters (unsigned_wrap 0) (unsigned_wrap 0) (unsigned_wrap 0)
      (unsigned_wrap 0)).
rewrite counters_after. cbn [fail error]. rewrite !Z.add_0_l.
rewrite count_of_failed. unfold unsigned_wrap.
symmetry. apply Zplus_mod.
Qed.

(** X22. For fewer than 2^32 results the value that the console summary
returns is the number of results that failed or could not be
rendered; it is zero exactly when every result is OK or was
overwritten. *)
Theorem console_summary_is_zero_iff_nothing_failed
(s : string) (results : list result) :
(Z.of_nat (length results) < 2 ^ 32)%Z ->
snd (console_report_summary s results) = count_of failed results
/\ (snd (console_report_summary s results) = 0%Z
  <-> Forall (fun r => state r = STATE_OK \/ state r = STATE_OVERWRITE)
        results).
Proof.
intros Hlen.
pose proof (count_of_range failed results) as Hr.
assert (Hid : unsigned_wrap (count_of failed results)
          = count_of failed results).
{ unfold unsigned_wrap. apply Z.mod_small. lia. }
rewrite console_summary_value, Hid. split; [reflexivity|].
rewrite count_of_zero. apply Forall_iff. intros r.
unfold failed. destruct (state r); split; intros Hx;
try reflexivity; try discriminate; auto;
destruct Hx as [Hx|Hx]; discriminate.
Qed.

Lemma html_report_loop_skips (results : list result) (output_dir : path)
(st : fs * string) :
html_report_loop results output_dir st
= html_report_loop (List.filter failed results) output_dir st.
Proof.
revert st. induction results as [|r rest IH]; intros st; [reflexivity|].
cbn [html_report_loop List.filter]. destruct (failed r) eqn:Ef.
- cbn [html_report_loop].
destruct (match state r with
        | STATE_OK => Some st
        | _ => html_report_report r output_dir st
        end) as [st'|]; simpl; [apply IH|reflexivity].
- assert (Hskip : match state r with
              | STATE_OK => Some st
              | _ => html_report_report r output_dir st
              end = Some st).
{ unfold failed in Ef. unfold html_report_report. destruct st as [f s0].
destruct (state r); try discriminate Ef; reflexivity. }
rewrite Hskip. simpl. apply IH.
Qed.

Lemma html_report_loop_errors (results : list result) (output_dir : path)
(f : fs) (s : string) :
Forall (fun r => state r <> STATE_FAIL) results ->
html_report_loop results output_dir (f, s)
= Some (f, s +:+ concat_strings
                 (map error_div (List.filter is_error results))).
Proof.
revert s. induction results as [|r rest IH]; intros s Hall.
- simpl. rewrite string_app_nil_r. reflexivity.
- inversion Hall as [|r0 rest0 Hr Hrest]; subst.
cbn [html_report_loop List.filter]. unfold is_error at 1.
unfold html_report_report.
destruct (state r) eqn:E; simpl; try (apply IH; exact Hrest).
+ contradiction.
+ rewrite IH by exact Hrest. rewrite string_app_assoc. reflexivity.
Qed.

(** X23. The html summary writes, and does to the files, what it would
for the failed and the unrendered results alone: a result that is OK is
skipped, and one that was overwritten is passed on but leaves no
trace. *)
Theorem html_summary_reports_failures_and_errors_only
(results : list result) (output_dir : path) (st : fs * string) :
html_report_summary results output_dir st
= html_report_summary (List.filter failed results) output_dir st.
Proof.
unfold html_report_summary. rewrite html_report_loop_skips. reflexivity.
Qed.

(** The header and the footer are the literals of the source, byte for
byte: 524 and 22 characters, the lines of the style sheet indented. *)
Example html_header_and_footer_lengths :
String.length html_header = 524%nat
/\ String.length html_footer = 22%nat
/\ String.substring 30 9 html_header = "  <style>".
Proof. repeat split; vm_compute; reflexivity. Qed.

(** X24. When no result failed the comparison, the html summary cannot
throw and leaves the files as they are; it writes the header, one
block for every result that could not be rendered, in order, and the
footer. *)
Theorem html_summary_without_failed_images_leaves_the_files
(results : list result) (output_dir : path) (st : fs * string) :
Forall (fun r => state r <> STATE_FAIL) results ->
html_report_summary results output_dir st
= Some (fst st,
      snd st +:+ html_header
      +:+ concat_strings (map error_div (List.filter is_error results))
      +:+ html_footer).
Proof.
intros Hall. unfold html_report_summary.
rewrite html_report_loop_errors by exact Hall. simpl.
rewrite !string_app_assoc. reflexivity.
Qed.

End Facts.
End VisualReportFacts.

(** ** The model on concrete worlds *)

#[local] Existing Instance flat_collaborators.

Lemma cache_wf_check {K V : Type} `{StrictWeakOrder K} (cap : nat)
    (m : StdMap.t K V) :
  sortedb m && (StdMap.size m <=? S cap)%nat = true -> cache_wf cap m.
Proof.
  intros Hb. apply andb_true_iff in Hb. destruct Hb as [Hs Hl].
  split; [apply sortedb_sorted; exact Hs|apply Nat.leb_le; exact Hl].
Qed.

Lemma world_with_caches_wf (i a e : nat) :
  sortedb (images_upto i) && (i <=? S cache_size)%nat
  && (sortedb (attributes_upto a) && (a <=? S attributes_cache_size)%nat)
  && (sortedb (ellipses_upto e) && (e <=? S ellipses_cache_size)%nat) = true ->
  caches_wf (world_with i a e).
Proof.
  intros Hb. apply andb_true_iff in Hb. destruct Hb as [Hb He].
  apply andb_true_iff in Hb. destruct Hb as [Hi Ha].
  unfold caches_wf, world_with; simpl.
  split; [|split]; apply cache_wf_check.
  - unfold images_upto, StdMap.size. rewrite length_map, length_seq. exact Hi.
  - unfold attributes_upto, StdMap.size.
    rewrite length_map, length_seq. exact Ha.
  - unfold ellipses_upto, StdMap.size.
    rewrite length_map, length_seq. exact He.
Qed.

Lemma empty_world_caches_wf : caches_wf empty_world.
Proof. split; [|split]; apply cache_wf_empty. Qed.

(** C1, on the code. With 4096 rendered images, 256 attribute sets and 256
    ellipses in the caches, an insertion under a new key evicts nothing:
    the first entry stays, and the caches hold 4097, 257 and 257 entries,
    one more than the maximum that the constants name. *)
Theorem caches_grow_past_their_maximum :
  StdMap.size (cached_images_ (world_with 4096 256 256)) = cache_size
  /\ StdMap.size (cached_attributes_ (world_with 4096 256 256))
     = attributes_cache_size
  /\ StdMap.size (cached_ellipses_ (world_with 4096 256 256))
     = ellipses_cache_size
  /\ (let w' :=
        fst (render_marker (numbered_marker 5000) [] [plain_fill] plain_params
               sample_placement (world_with 4096 256 256)) in
      StdMap.size (cached_images_ w') = S cache_size
      /\ StdMap.begin (cached_images_ w')
         = StdMap.begin (cached_images_ (world_with 4096 256 256)))
  /\ (let w' :=
        snd (fst (resolve_attributes bare_symbolizer tt unit_common
                    square_marker (world_with 4096 256 256))) in
      StdMap.size (cached_attributes_ w') = S attributes_cache_size
      /\ StdMap.begin (cached_attributes_ w')
         = StdMap.begin (cached_attributes_ (world_with 4096 256 256)))
  /\ (let w' :=
        snd (fst (resolve_ellipse wide_symbolizer tt unit_common
                    (world_with 4096 256 256))) in
      StdMap.size (cached_ellipses_ w') = S ellipses_cache_size
      /\ StdMap.begin (cached_ellipses_ w')
         = StdMap.begin (cached_ellipses_ (world_with 4096 256 256))).
Proof.
  split; [vm_compute; reflexivity|].
  split; [vm_compute; reflexivity|].
  split; [vm_compute; reflexivity|].
  split; [|split]; cbv zeta; (split; [vm_compute; reflexivity|]);
    vm_compute; reflexivity.
Qed.

(** The invariant of C7 holds of a world whose attribute cache is over its
    capacity, where caching the attributes of one more symbolizer evicts
    the entry of the lowest address. *)
Lemma eviction_removes_the_least_key_witness :
  caches_wf (world_with 2 257 2)
  /\ exists k0 v0 rest,
       cached_attributes_ (world_with 2 257 2) = (k0, v0) :: rest
       /\ Forall (fun e => less k0 (fst e) = true) rest
       /\ cached_attributes_
            (snd (fst (resolve_attributes bare_symbolizer tt unit_common
                         square_marker (world_with 2 257 2))))
          = StdMap.assign (sym_address bare_symbolizer)
              (fst (fst (resolve_attributes bare_symbolizer tt unit_common
                           square_marker (world_with 2 257 2))),
               properties bare_symbolizer)
              rest.
Proof.
  assert (Hwf : caches_wf (world_with 2 257 2)).
  { apply world_with_caches_wf. vm_compute. reflexivity. }
  split; [exact Hwf|].
  apply (eviction_removes_the_least_key (world_with 2 257 2) Hwf).
  - vm_compute. reflexivity.
  - vm_compute. reflexivity.
  - apply Nat.ltb_lt. vm_compute. reflexivity.
Defined.

(** The lookup that C6 starts from misses in the empty world, where the
    attributes of a symbolizer without properties are then resolved. *)
Lemma fresh_attributes_cached_iff_no_expression_witness :
  lookup_attributes bare_symbolizer empty_world = None
  /\ fst (fst (resolve_attributes bare_symbolizer tt unit_common
                 square_marker empty_world))
     = get_marker_attributes square_marker bare_symbolizer tt unit_common.
Proof.
  split; [reflexivity|].
  exact (proj1 (fresh_attributes_cached_iff_no_expression
                  bare_symbolizer tt unit_common square_marker empty_world
                  eq_refl)).
Defined.

(** The segment has a bounding box of zero width; its interior point is the
    minimum corner, with no fuel at all. *)
Lemma polylabel_of_degenerate_box_is_min_corner_witness :
  (width (Interior.envelope (Interior.exterior_ring segment_polygon)) == 0)%Q
  /\ Interior.polylabel (fun x => x) (fun _ => None) 0 segment_polygon 1
     = Interior.Ok (Interior.mk_point 0 0).
Proof.
  split; [reflexivity|].
  exact (proj1 (InteriorFacts.polylabel_of_degenerate_box_is_min_corner
                  (fun x => x) (fun _ => None) 0%nat segment_polygon 1%Q
                  (or_introl (eq_refl : (0 * 1)%Z = (0 * 1)%Z)))).
Defined.

(** A whole render on the sample instance: from the empty world the first
    render of a symbolizer misses in the attribute cache and in the image
    cache and fills both; the second one hits both and only blits. *)
Example second_render_hits_the_caches :
  let first :=
    render_markers_symbolizer bare_symbolizer tt unit_common empty_world in
  let second :=
    render_markers_symbolizer bare_symbolizer tt unit_common (fst first) in
  map is_miss_call (snd first) = [false; false; true; false; true; true; false]
  /\ map is_miss_call (snd second) = [false; false; false; false]
  /\ cached_images_ (fst second) = cached_images_ (fst first)
  /\ cached_attributes_ (fst second) = cached_attributes_ (fst first).
Proof.
  cbv zeta.
  split; [vm_compute; reflexivity|].
  split; [vm_compute; reflexivity|].
  split; vm_compute; reflexivity.
Qed.

(** Past the guard the search runs: the interior point of the square of
    side 8 is its centre. *)
Example interior_of_square :
  Interior.interior integer_sqrt
    (fun _ => Some (Interior.mk_point 4 4)) 2 square_polygon 1
  = Interior.Ok (Interior.mk_point 4 4).
Proof. vm_compute. reflexivity. Qed.

(** ** The further properties on the small instances *)

(** The square has no side of length zero; without a centroid its interior
    point is the centre of its bounding box. *)
Lemma polylabel_without_centroid_is_box_centre_witness :
  let bbox := Interior.envelope (Interior.exterior_ring square_polygon) in
  (Dbl.min (width bbox) (height bbox) == 8)%Q
  /\ Interior.polylabel integer_sqrt (fun _ => None) 0 square_polygon 1
     = Interior.Ok
         (Interior.mk_point (fst (center bbox)) (snd (center bbox)))
  /\ (fst (center bbox) == 4)%Q /\ (snd (center bbox) == 4)%Q.
Proof.
  intros bbox.
  assert (Hside : ~ (Dbl.min (width bbox) (height bbox) == 0)%Q).
  { vm_compute. intros Hz. discriminate Hz. }
  split; [vm_compute; reflexivity|].
  split; [|split; vm_compute; reflexivity].
  exact (proj1 (PolylabelFacts.polylabel_without_centroid_is_box_centre
                  integer_sqrt (fun _ => None) 0%nat square_polygon 1%Q
                  eq_refl Hside)).
Defined.

(** The square marker lies on the grid: its box fits the canvas of 12 by
    12 pixels at the sample placement. *)
Lemma stroked_box_fits_the_scratch_canvas_witness :
  on_grid (minx (bounding_box square_marker))
  /\ on_grid (maxx (bounding_box square_marker))
  /\ on_grid (miny (bounding_box square_marker))
  /\ on_grid (maxy (bounding_box square_marker))
  /\ on_grid (margin_of plain_fill)
  /\ canvas_width square_marker (margin_of plain_fill) = 12%Z
  /\ (0 <= minx (bounding_box square_marker) - margin_of plain_fill
           + tx (local_tr square_marker plain_fill sample_placement))%Q
  /\ (maxx (bounding_box square_marker) + margin_of plain_fill
      + tx (local_tr square_marker plain_fill sample_placement)
      < inject_Z (canvas_width square_marker (margin_of plain_fill)))%Q.
Proof.
  assert (G0 : on_grid 0)
    by (split; vm_compute; [reflexivity|intros E; discriminate E]).
  assert (G10 : on_grid 10)
    by (split; vm_compute; [reflexivity|intros E; discriminate E]).
  split; [exact G0|]. split; [exact G10|].
  split; [exact G0|]. split; [exact G10|]. split; [exact G0|].
  split; [vm_compute; reflexivity|].
  pose proof (stroked_box_fits_the_scratch_canvas
                square_marker plain_fill sample_placement
                G0 G10 G0 G10 G0) as (_ & _ & Hlo & Hhi & _).
  split; [exact Hlo|exact Hhi].
Defined.

(** Two placements of the square marker with the same fractional offsets:
    the second render only blits. *)
Lemma render_with_a_cached_key_only_blits_witness :
  cacheable sample_placement = true
  /\ cacheable shifted_placement = true
  /\ key_of square_marker plain_fill shifted_placement
     = key_of square_marker plain_fill sample_placement
  /\ Forall (fun c => is_miss_call c = false)
       (snd (render_marker square_marker (source square_marker) [plain_fill]
               plain_params shifted_placement
               (fst (render_marker square_marker (source square_marker)
                       [plain_fill] plain_params sample_placement
                       empty_world)))).
Proof.
  assert (H1 : cacheable sample_placement = true) by reflexivity.
  assert (H2 : cacheable shifted_placement = true) by reflexivity.
  assert (H3 : key_of square_marker plain_fill shifted_placement
               = key_of square_marker plain_fill sample_placement)
    by (vm_compute; reflexivity).
  split; [exact H1|]. split; [exact H2|]. split; [exact H3|].
  destruct (render_with_a_cached_key_only_blits square_marker
              (source square_marker) plain_fill plain_params plain_params
              sample_placement shifted_placement empty_world H1 H2 H3)
    as (patches & _ & _ & _ & Hall & _).
  exact Hall.
Defined.

(** The registry of the small instance does not know the file. *)
Lemma null_marker_renders_nothing_witness :
  @get_string flat_collaborators file_symbolizer k_file tt tt ellipse_uri
  = "missing.svg"
  /\ render_markers_symbolizer file_symbolizer tt unit_common empty_world
     = (empty_world, [MarkerCacheFind "missing.svg"]).
Proof.
  split; [reflexivity|].
  apply (@null_marker_renders_nothing flat_collaborators file_symbolizer tt
           unit_common empty_world).
  - vm_compute. intros Hf. discriminate Hf.
  - reflexivity.
Defined.

(** With the registry of raster markers, the image is blitted at each of
    the two placements of a feature. *)
Lemma raster_marker_is_blitted_once_per_placement_witness :
  @get_string raster_collaborators bare_symbolizer k_file tt tt ellipse_uri
  <> EmptyString
  /\ @marker_cache_find raster_collaborators ellipse_uri true
     = marker_rgba8 dot_image (mk_box2d 0 0 2 2)
  /\ length (snd (@render_markers_symbolizer raster_collaborators
                    bare_symbolizer tt raster_common raster_world))
     = 3%nat.
Proof.
  assert (H1 : @get_string raster_collaborators bare_symbolizer k_file tt tt
                 ellipse_uri <> EmptyString)
    by (vm_compute; intros Hf; discriminate Hf).
  assert (H2 : @marker_cache_find raster_collaborators
                 (@get_string raster_collaborators bare_symbolizer k_file
                    tt tt ellipse_uri) true
               = marker_rgba8 dot_image (mk_box2d 0 0 2 2))
    by reflexivity.
  split; [exact H1|]. split; [exact H2|].
  pose proof (@raster_marker_is_blitted_once_per_placement
                raster_collaborators bare_symbolizer tt raster_common
                raster_world dot_image (mk_box2d 0 0 2 2) H1 H2)
    as (Hcalls & _).
  rewrite Hcalls. reflexivity.
Defined.

(** On the scripted library nothing is pending on a fresh connection. *)
Lemma async_results_differ_on_the_null_result_witness :
  fst (fst (@Postgis.getNextAsyncResult scripted_libpq 1
              (scripted_connection [])))
  = Postgis.Return None
  /\ @Postgis.isOK scripted_libpq
       (snd (fst (@Postgis.getAsyncResult scripted_libpq 1
                    (scripted_connection []))))
     = false.
Proof.
  destruct (@PostgisFacts.async_results_differ_on_the_null_result
              scripted_libpq 1%nat (scripted_connection []) eq_refl)
    as [Hnext Hres].
  rewrite Hnext, Hres. split; reflexivity.
Defined.

(** A result with tuples is pending: both calls return it. *)
Lemma async_results_agree_on_a_result_with_tuples_witness :
  @Postgis.getNextAsyncResult scripted_libpq 1
    (scripted_connection [Postgis.PGRES_TUPLES_OK])
  = @Postgis.getAsyncResult scripted_libpq 1
      (scripted_connection [Postgis.PGRES_TUPLES_OK]).
Proof.
  destruct (@PostgisFacts.async_results_agree_on_a_result_with_tuples
              scripted_libpq 1%nat
              (scripted_connection [Postgis.PGRES_TUPLES_OK])
              Postgis.PGRES_TUPLES_OK eq_refl) as [Hok _].
  destruct (Hok eq_refl) as [Hnext Hres].
  rewrite Hnext, Hres. reflexivity.
Defined.

(** The first three cursors of a fresh connection. *)
Lemma cursor_names_are_distinct_while_the_counter_does_not_overflow_witness :
  NoDup (@Postgis.cursor_names scripted_libpq 3 (scripted_connection []))
  /\ @Postgis.cursor_names scripted_libpq 3 (scripted_connection [])
     = ["mapnik_0"; "mapnik_1"; "mapnik_2"].
Proof.
  split; [|vm_compute; reflexivity].
  apply (@PostgisFacts.cursor_names_are_distinct_while_the_counter_does_not_overflow
           scripted_libpq 3%nat (scripted_connection [])).
  - simpl. lia.
  - simpl. lia.
Defined.

(** The scripted library accepts every command. *)
Lemma a_command_that_execute_accepts_makes_executeQuery_throw_witness :
  fst (fst (@Postgis.execute scripted_libpq (scripted_connection [])
              "BEGIN"))
  = true
  /\ snd (@Postgis.executeQuery scripted_libpq (scripted_connection [])
            "BEGIN" 0)
     = [Postgis.C_PQexec "BEGIN"; Postgis.C_PQclear].
Proof.
  split; [reflexivity|].
  destruct (@PostgisFacts.a_command_that_execute_accepts_makes_executeQuery_throw
              scripted_libpq (scripted_connection []) "BEGIN" 0%Z)
    as (_ & Hcalls & _).
  - lia.
  - reflexivity.
  - exact Hcalls.
Defined.

(** Three results, of which one could not be rendered. *)
Lemma console_summary_is_zero_iff_nothing_failed_witness :
  snd (@VisualReport.console_report_summary flat_filesystem EmptyString
         sample_results)
  = 1%Z.
Proof.
  destruct (@VisualReportFacts.console_summary_is_zero_iff_nothing_failed
              flat_filesystem EmptyString sample_results) as [Hv _].
  - vm_compute. reflexivity.
  - rewrite Hv. vm_compute. reflexivity.
Defined.

Lemma html_summary_without_failed_images_leaves_the_files_witness :
  @VisualReport.html_report_summary flat_filesystem sample_results "out"
    (["reference.png"], EmptyString)
  = Some (["reference.png"],
          VisualReport.html_header
          +:+ @VisualReport.error_div flat_filesystem
                (sample_result "text" VisualReport.STATE_ERROR)
          +:+ VisualReport.html_footer).
Proof.
  rewrite (@VisualReportFacts.html_summary_without_failed_images_leaves_the_files
             flat_filesystem sample_results "out"
             (["reference.png"], EmptyString)).
  - vm_compute. reflexivity.
  - repeat constructor; discriminate.
Defined.

(** On the scripted library a statement sent with parameters is refused:
    the pending results are cleared one by one and the connection is
    finished last. *)
Example refused_query_clears_and_closes :
  @Postgis.executeAsyncQuery scripted_libpq 3
    (scripted_connection [Postgis.PGRES_TUPLES_OK; Postgis.PGRES_FATAL_ERROR])
    "SELECT 1" 1
  = (Postgis.Throw
       (@Postgis.query_error scripted_libpq
          (Some [Postgis.PGRES_TUPLES_OK; Postgis.PGRES_FATAL_ERROR])
          "executeAsyncQuery" "SELECT 1"),
     @Postgis.mk_connection scripted_libpq (Some []) 0 true,
     [Postgis.C_PQsendQueryParams "SELECT 1"; Postgis.C_PQgetResult;
      Postgis.C_PQclear; Postgis.C_PQgetResult;
      Postgis.C_PQclear; Postgis.C_PQgetResult;
      Postgis.C_PQfinish]).
Proof. vm_compute. reflexivity. Qed.
